(** * mrjob/tools/spark_submit.py: option classification and step assembly

    A shallow embedding of [mrjob.tools.spark_submit] and the properties of
    its argument classification, parser construction, step building and
    dispatch.

    Python sets are [gset string], dicts read by key are [gmap string _],
    dicts that are iterated keep their insertion order in an association
    list.  Exceptions are an error result; the printing, logging and runner
    calls of [main] are recorded in an event log. *)

From Stdlib Require Import Ascii.
From stdpp Require Import base option list sets gmap strings.

Local Open Scope string_scope.
Local Open Scope list_scope.

(** ** Python values that flow through the parser and the runner kwargs *)

Inductive value :=
  | VNone
  | VBool (b : bool)
  | VStr (s : string)
  | VList (l : list string).

(** Python truthiness, as used by [or], [and], [not] and [if]. *)
Definition truthy (v : value) : bool :=
  match v with
  | VNone => false
  | VBool b => b
  | VStr s => negb (String.eqb s "")
  | VList l => match l with [] => false | _ => true end
  end.

(** [a or b] *)
Definition py_or (a b : value) : value := if truthy a then a else b.

(** [a and b] *)
Definition py_and (a b : value) : value := if truthy a then b else a.

(** ** Static tables (lines 55-242) *)

Definition _SPARK_RUNNERS : list string := ["emr"; "hadoop"].

Definition _DEFAULT_RUNNER : string := "hadoop".

Definition _DEPRECATED_OPT_HELP : string :=
  "To include help for deprecated options, add --deprecated".

Definition _SPARK_SUBMIT_ARG_GROUPS : list (option string * list string) :=
  [ (None,
     [ "spark_deploy_mode"; "main_class"; "name"; "libjars"; "packages";
       "exclude_packages"; "repositories"; "py_files"; "upload_files";
       "cmdenv"; "jobconf"; "properties_file"; "driver_memory";
       "driver_java_options"; "driver_library_path"; "driver_class_path";
       "executor_memory"; "proxy_user" ]);
    (Some "Hadoop runner only", [ "spark_master" ]);
    (Some "Cluster deploy mode only", [ "driver_cores" ]);
    (Some "Spark standalone or Mesos with cluster deploy mode only",
     [ "supervise" ]);
    (Some "Spark standalone and Mesos only", [ "total_executor_cores" ]);
    (Some "Spark standalone and YARN only", [ "executor_cores" ]);
    (Some "YARN-only",
     [ "queue_name"; "num_executors"; "upload_archives"; "upload_dirs";
       "principal"; "keytab" ]) ].

(** The set comprehension of lines 182-185. *)
Definition _SPARK_SUBMIT_OPT_NAMES : gset string :=
  list_to_set (mjoin (snd <$> _SPARK_SUBMIT_ARG_GROUPS)).

(** [_SPARK_SUBMIT_SWITCHES], in the order the dict is written (the order
    [.items()] iterates in). *)
Definition _SPARK_SUBMIT_SWITCHES : list (string * string) :=
  [ ("cmdenv", "--cmdenv");
    ("driver_class_path", "--driver-class-path");
    ("driver_cores", "--driver-cores");
    ("driver_java_options", "--driver-java-options");
    ("driver_library_path", "--driver-library-path");
    ("driver_memory", "--driver-memory");
    ("exclude_packages", "--exclude-packages");
    ("executor_cores", "--executor-cores");
    ("executor_memory", "--executor-memory");
    ("jobconf", "--conf");
    ("keytab", "--keytab");
    ("libjars", "--jars");
    ("main_class", "--class");
    ("name", "--name");
    ("num_executors", "--num-executors");
    ("packages", "--packages");
    ("principal", "--principal");
    ("properties_file", "--properties-file");
    ("proxy_user", "--proxy-user");
    ("py_files", "--py-files");
    ("queue_name", "--queue");
    ("repositories", "--repositories");
    ("spark_deploy_mode", "--deploy-mode");
    ("spark_master", "--master");
    ("supervise", "--supervise");
    ("total_executor_cores", "--total-executor-cores");
    ("upload_archives", "--archives");
    ("upload_dirs", "--dirs");
    ("upload_files", "--files") ].

(** [set(_SPARK_SUBMIT_SWITCHES)]: the keys of the dict. *)
Definition spark_submit_switch_names : gset string :=
  list_to_set (fst <$> _SPARK_SUBMIT_SWITCHES).

(** [_SPARK_SUBMIT_SWITCHES[opt_name]] *)
Definition spark_submit_switch (opt_name : string) : option string :=
  snd <$> List.find (fun kv => String.eqb (fst kv) opt_name)
                    _SPARK_SUBMIT_SWITCHES.

Definition _SPARK_SUBMIT_ARG_KWARGS : gmap string (gmap string value) :=
  {[ "supervise" := {[ "action" := VStr "store_true" ]} ]}.

Definition _STEP_OPT_NAMES : gset string := {[ "main_class" ]}.

Definition _SWITCH_ALIASES : gmap string string :=
  list_to_map
    [ ("--master", "--spark-master");
      ("--deploy-mode", "--spark-deploy-mode");
      ("--jars", "--libjars");
      ("--conf", "--jobconf") ].

Definition _HARD_CODED_OPTS : gmap string value :=
  list_to_map [ ("check_input_paths", VBool false); ("output_dir", VNone) ].

(** The double quote character, for the texts that contain one. *)
Definition dq : string := String (Ascii.Ascii false true false false false true false false) "".

(** [_SPARK_SUBMIT_ARG_HELP] (lines 117-180). *)
Definition _SPARK_SUBMIT_ARG_HELP : gmap string string :=
  list_to_map
    [ ("cmdenv",
       "Arbitrary environment variable to set inside Spark, in the"
       +:+ " format NAME=VALUE.");
      ("driver_class_path",
       "Extra class path entries to pass to the driver. Note"
       +:+ " that jars added with --jars are automatically"
       +:+ " included in the classpath.");
      ("driver_cores", "Number of cores used by the driver (Default: 1).");
      ("driver_java_options", "Extra Java options to pass to the driver.");
      ("driver_library_path",
       "Extra library path entries to pass to the driver.");
      ("driver_memory",
       "Memory for driver (e.g. 1000M, 2G) (Default: 1024M).");
      ("exclude_packages",
       "Comma-separated list of groupId:artifactId, to exclude"
       +:+ " while resolving the dependencies provided in"
       +:+ " --packages to avoid dependency conflicts.");
      ("executor_cores",
       "Number of cores per executor. (Default: 1 in YARN mode,"
       +:+ " or all available cores on the worker in standalone"
       +:+ " mode)");
      ("executor_memory",
       "Memory per executor (e.g. 1000M, 2G) (Default: 1G).");
      ("jobconf",
       "Arbitrary Spark configuration property, in the format"
       +:+ " PROP=VALUE.");
      ("keytab",
       "The full path to the file that contains the keytab for the"
       +:+ " principal specified above. This keytab will be copied to"
       +:+ " the node running the Application Master via the Secure"
       +:+ " Distributed Cache, for renewing the login tickets and the"
       +:+ " delegation tokens periodically.");
      ("libjars",
       "Comma-separated list of jars to include on the driver"
       +:+ "and executor classpaths.");
      ("main_class",
       "Your application's main class (for Java / Scala apps).");
      ("name", "The name of your application.");
      ("num_executors",
       "Number of executors to launch (Default: 2)."
       +:+ " If dynamic allocation is enabled, the initial number of"
       +:+ " executors will be at least NUM.");
      ("packages",
       "Comma-separated list of maven coordinates of jars to include"
       +:+ " on the driver and executor classpaths. Will search the local"
       +:+ " maven repo, then maven central and any additional remote"
       +:+ " repositories given by --repositories. The format for the"
       +:+ " coordinates should be groupId:artifactId:version.");
      ("principal",
       "Principal to be used to login to KDC, while running on"
       +:+ "secure HDFS.");
      ("properties_file",
       "Path to a file from which to load extra properties. If"
       +:+ " not specified, this will look for"
       +:+ " conf/spark-defaults.conf.");
      ("proxy_user",
       "User to impersonate when submitting the application."
       +:+ " This argument does not work with --principal / --keytab.");
      ("py_files",
       "Comma-separated list of .zip, .egg, or .py files to place"
       +:+ "on the PYTHONPATH for Python apps.");
      ("queue_name",
       "The YARN queue to submit to (Default: " +:+ dq +:+ "default"
       +:+ dq +:+ ").");
      ("repositories",
       "Comma-separated list of additional remote repositories to"
       +:+ " search for the maven coordinates given with --packages.");
      ("spark_deploy_mode",
       "Whether to launch the driver program locally"
       +:+ " (" +:+ dq +:+ "client" +:+ dq
       +:+ ") or on one of the worker machines inside"
       +:+ " the cluster (" +:+ dq +:+ "cluster" +:+ dq
       +:+ ") (Default: client).");
      ("spark_master",
       "spark://host:port, mesos://host:port, yarn,"
       +:+ "k8s://https://host:port, or local (Default: yarn).");
      ("supervise", "If given, restarts the driver on failure.");
      ("total_executor_cores", "Total cores for all executors.");
      ("upload_archives",
       "Comma-separated list of archives to be extracted into"
       +:+ " the working directory of each executor.");
      ("upload_dirs",
       "Comma-separated list of directors to be archived and then"
       +:+ " extracted into the working directory of each executor.");
      ("upload_files",
       "Comma-separated list of files to be placed in the working"
       +:+ " directory of each executor. File paths of these files"
       +:+ " in executors can be accessed via"
       +:+ " SparkFiles.get(fileName).") ].

(** ** Exceptions and the result of a call that may raise *)

Inductive exception :=
  | ValueError (msg : string)
  | KeyError (key : string)
  | AttributeError (name : string)
  | TypeError (msg : string)
  | ArgumentError (msg : string)
  | SystemExit (code : Z).

Inductive result (A : Type) :=
  | Ok (a : A)
  | Raise (e : exception).
Arguments Ok {A} a.
Arguments Raise {A} e.

Definition rbind {A B} (r : result A) (f : A -> result B) : result B :=
  match r with
  | Ok a => f a
  | Raise e => Raise e
  end.

Notation "x <- e1 ;; e2" := (rbind e1 (fun x => e2))
  (at level 100, e1 at next level, right associativity).

(** A [for] loop whose body may raise, threading the loop state. *)
Fixpoint for_each {A S} (xs : list A) (body : S -> A -> result S) (s : S)
  : result S :=
  match xs with
  | [] => Ok s
  | x :: xs' => s' <- body s x ;; for_each xs' body s'
  end.

(** [d[key]] on a dict. *)
Definition getitem {V} (d : gmap string V) (key : string) : result V :=
  match d !! key with
  | Some v => Ok v
  | None => Raise (KeyError key)
  end.

(** ** String methods used by the step builder

    Strings are sequences of 8-bit characters; [lower] is [str.lower] on
    ASCII text. *)

Definition ascii_lower (c : ascii) : ascii :=
  let n := nat_of_ascii c in
  if (65 <=? n)%nat && (n <=? 90)%nat then ascii_of_nat (n + 32) else c.

Fixpoint lower (s : string) : string :=
  match s with
  | EmptyString => EmptyString
  | String c s' => String (ascii_lower c) (lower s')
  end.

(** [s.startswith(p)] *)
Fixpoint startswith (s p : string) : bool :=
  match p, s with
  | EmptyString, _ => true
  | String a p', String b s' => Ascii.eqb a b && startswith s' p'
  | String _ _, EmptyString => false
  end.

(** [s.endswith(suffix)]: some tail of [s] is [suffix]. *)
Fixpoint endswith (s suffix : string) : bool :=
  String.eqb s suffix ||
  match s with
  | EmptyString => false
  | String _ s' => endswith s' suffix
  end.

(** [s.split(sep)] for a one-character separator: never empty. *)
Fixpoint split (sep : ascii) (s : string) : list string :=
  match s with
  | EmptyString => [EmptyString]
  | String c s' =>
      if Ascii.eqb c sep then EmptyString :: split sep s'
      else match split sep s' with
           | [] => [String c EmptyString]
           | w :: ws => String c w :: ws
           end
  end.

(** [l[-1]] on the list [split] returns. *)
Definition last_item (l : list string) : string := List.last l EmptyString.

(** [x in l] for strings. *)
Definition str_in (x : string) (l : list string) : bool :=
  existsb (String.eqb x) l.

(** ** The fragment of [argparse] the module relies on

    An [ArgumentParser] is the list of its registered actions, in
    registration order.  The fragment covers what this module and the option
    tables it reads use: switches matched by their exact spelling, taking
    one value ([store], [append]) or none ([store_const], [store_true],
    [store_false]), [choices], and positionals with [nargs] [?] and [*].
    Abbreviated switches, the [--switch=value] form, the [--] separator,
    numeric values, [type] converters and custom action classes are outside
    it: [add_argument] refuses a keyword it does not know, and the
    properties of parsing are stated for command lines inside the
    fragment. *)

Inductive arg_action :=
  | Store
  | Append
  | StoreConst (const : value).

Inductive arg_nargs :=
  | NargsNone
  | NargsOptional
  | NargsZeroOrMore.

Record Action := mkAction {
  option_strings : list string;
  dest : string;
  action : arg_action;
  nargs : arg_nargs;
  choices : option (list string);
  default_value : value;
  help : option value;
}.

(** The switch [s] is the spelling of an action of [parser]. *)
Definition has_switch (s : string) (a : Action) : bool :=
  str_in s (option_strings a).

Definition find_action (parser : list Action) (s : string) : option Action :=
  List.find (has_switch s) parser.

Definition registered (parser : list Action) (s : string) : bool :=
  existsb (has_switch s) parser.

Fixpoint lstrip_dash (s : string) : string :=
  match s with
  | String "-" s' => lstrip_dash s'
  | _ => s
  end.

Fixpoint dash_to_underscore (s : string) : string :=
  match s with
  | EmptyString => EmptyString
  | String c s' =>
      String (if Ascii.eqb c "-" then "_"%char else c) (dash_to_underscore s')
  end.

(** The destination argparse derives from the switches when [dest] is not
    given: the first long switch, else the first switch. *)
Definition derive_dest (opt_strings : list string) : string :=
  let long := List.find (fun s => startswith s "--") opt_strings in
  dash_to_underscore
    (lstrip_dash (default (List.hd EmptyString opt_strings) long)).

Definition known_keywords : list string :=
  ["dest"; "action"; "nargs"; "choices"; "const"; "default"; "help"].

Definition kw_dest (opt_strings : list string) (kwargs : gmap string value)
  : result string :=
  match kwargs !! "dest" with
  | Some (VStr d) => Ok d
  | Some _ => Raise (TypeError "dest")
  | None =>
      match opt_strings with
      | [] => Raise (TypeError "dest")
      | _ => Ok (derive_dest opt_strings)
      end
  end.

Definition kw_action (kwargs : gmap string value) : result arg_action :=
  match kwargs !! "action" with
  | None => Ok Store
  | Some (VStr a) =>
      if String.eqb a "store" then Ok Store
      else if String.eqb a "append" then Ok Append
      else if String.eqb a "store_true" then Ok (StoreConst (VBool true))
      else if String.eqb a "store_false" then Ok (StoreConst (VBool false))
      else if String.eqb a "store_const" then
        c <- getitem kwargs "const" ;; Ok (StoreConst c)
      else Raise (ValueError "action")
  | Some _ => Raise (ValueError "action")
  end.

Definition kw_nargs (kwargs : gmap string value) : result arg_nargs :=
  match kwargs !! "nargs" with
  | None => Ok NargsNone
  | Some (VStr n) =>
      if String.eqb n "?" then Ok NargsOptional
      else if String.eqb n "*" then Ok NargsZeroOrMore
      else Raise (ValueError "nargs")
  | Some _ => Raise (ValueError "nargs")
  end.

Definition kw_choices (kwargs : gmap string value)
  : result (option (list string)) :=
  match kwargs !! "choices" with
  | None => Ok None
  | Some (VList l) => Ok (Some l)
  | Some _ => Raise (TypeError "choices")
  end.

(** The default of an action when the keyword is absent. *)
Definition kw_default (act : arg_action) (kwargs : gmap string value)
  : value :=
  match kwargs !! "default" with
  | Some v => v
  | None =>
      match act with
      | StoreConst (VBool b) => VBool (negb b)
      | _ => VNone
      end
  end.

(** [parser.add_argument( *opt_strings, **kwargs)].  No switches means a
    positional.  The action is built from the keywords first; a switch that
    is already registered is then a conflict. *)
Definition add_argument (parser : list Action) (opt_strings : list string)
    (kwargs : gmap string value) : result (list Action) :=
  if negb (forallb (fun s => startswith s "-") opt_strings)
  then Raise (ValueError "invalid option string")
  else
    d <- kw_dest opt_strings kwargs ;;
    act <- kw_action kwargs ;;
    if negb (forallb (fun k => str_in k known_keywords)
                     (elements (dom kwargs)))
    then Raise (TypeError "unexpected keyword argument")
    else
      n <- kw_nargs kwargs ;;
      ch <- kw_choices kwargs ;;
      if existsb (registered parser) opt_strings
      then Raise (ArgumentError "conflicting option string")
      else
        Ok (parser ++
            [ {| option_strings := opt_strings;
                 dest := d;
                 action := act;
                 nargs := n;
                 choices := ch;
                 default_value := kw_default act kwargs;
                 help := kwargs !! "help" |} ]).

(** *** Parsing *)

Inductive parse_error :=
  | invalid_choice (option_string : string) (v : string)
  | expected_one_argument (option_string : string)
  | unrecognized_arguments (l : list string)
  | required_argument (d : string).

(** A token is read as a switch when it starts with a dash and is not the
    lone dash (a negative number too: the fragment has no numeric
    arguments). *)
Definition looks_like_option (t : string) : bool :=
  startswith t "-" && negb (String.eqb t "-").

Record parse_state := mkState {
  namespace : gmap string value;
  positionals : list string;
  extras : list string;
}.

Definition set_attr (st : parse_state) (d : string) (v : value)
  : parse_state :=
  {| namespace := <[d := v]> (namespace st);
     positionals := positionals st;
     extras := extras st |}.

Definition check_choice (a : Action) (v : string) : bool :=
  match choices a with
  | None => true
  | Some l => str_in v l
  end.

(** The value an action writes to its destination, given the value token it
    consumed (if it takes one) and the namespace so far. *)
Definition action_value (a : Action) (v : string) (ns : gmap string value)
  : value :=
  match action a with
  | Store => VStr v
  | Append =>
      match ns !! dest a with
      | Some (VList items) => VList (items ++ [v])
      | _ => VList [v]
      end
  | StoreConst c => c
  end.

Definition takes_value (a : Action) : bool :=
  match action a with
  | StoreConst _ => false
  | _ => true
  end.

(** The left-to-right pass over the tokens.  Each switch runs its action as
    soon as it is met; the pass stops at the first error, and returns the
    state it had reached. *)
Fixpoint consume (parser : list Action) (tokens : list string)
    (st : parse_state) : parse_state * option parse_error :=
  match tokens with
  | [] => (st, None)
  | t :: rest =>
      if looks_like_option t then
        match find_action parser t with
        | None =>
            consume parser rest
              {| namespace := namespace st;
                 positionals := positionals st;
                 extras := extras st ++ [t] |}
        | Some a =>
            if takes_value a then
              match rest with
              | v :: rest' =>
                  if looks_like_option v
                  then (st, Some (expected_one_argument t))
                  else if check_choice a v
                  then consume parser rest'
                         (set_attr st (dest a) (action_value a v (namespace st)))
                  else (st, Some (invalid_choice t v))
              | [] => (st, Some (expected_one_argument t))
              end
            else
              consume parser rest
                (set_attr st (dest a) (action_value a EmptyString (namespace st)))
        end
      else
        consume parser rest
          {| namespace := namespace st;
             positionals := positionals st ++ [t];
             extras := extras st |}
  end.

(** Every destination starts at the default of the first action that
    writes to it. *)
Definition init_namespace (parser : list Action) : gmap string value :=
  fold_left
    (fun ns a =>
       match ns !! dest a with
       | Some _ => ns
       | None => <[dest a := default_value a]> ns
       end)
    parser ∅.

(** The positional tokens are handed to the positionals in registration
    order; what is left over is not recognized. *)
Fixpoint match_positionals (pos_actions : list Action) (args : list string)
    (ns : gmap string value)
    : gmap string value * list string * option parse_error :=
  match pos_actions with
  | [] => (ns, args, None)
  | a :: pos_actions' =>
      match nargs a with
      | NargsOptional =>
          match args with
          | [] => match_positionals pos_actions' [] ns
          | x :: args' =>
              match_positionals pos_actions' args' (<[dest a := VStr x]> ns)
          end
      | NargsZeroOrMore =>
          match_positionals pos_actions' [] (<[dest a := VList args]> ns)
      | NargsNone =>
          match args with
          | [] => (ns, [], Some (required_argument (dest a)))
          | x :: args' =>
              match_positionals pos_actions' args' (<[dest a := VStr x]> ns)
          end
      end
  end.

Definition is_positional (a : Action) : bool :=
  match option_strings a with
  | [] => true
  | _ => false
  end.

(** The state the pass starts from. *)
Definition initial_state (parser : list Action) : parse_state :=
  {| namespace := init_namespace parser; positionals := []; extras := [] |}.

(** [parser.parse_args(cl_args)]: the namespace, or the usage error that
    ends the process with status 2. *)
Definition parse_args (parser : list Action) (cl_args : list string)
  : parse_error + gmap string value :=
  match consume parser cl_args (initial_state parser) with
  | (_, Some e) => inl e
  | (st, None) =>
      match match_positionals (List.filter is_positional parser)
              (positionals st) (namespace st) with
      | (_, _, Some e) => inl e
      | (ns, left_over, None) =>
          match left_over ++ extras st with
          | [] => inr ns
          | unknown => inl (unrecognized_arguments unknown)
          end
      end
  end.

(** [getattr(options, name)] on a namespace. *)
Definition getattr (options : gmap string value) (name : string)
  : result value :=
  match options !! name with
  | Some v => Ok v
  | None => Raise (AttributeError name)
  end.

(** ** Steps and runners *)

(** [mrjob.step.SparkJarStep] and [SparkScriptStep], by their keyword
    arguments.  [args] and [main_class] are whatever the namespace holds. *)
Inductive Step :=
  | SparkJarStep (args : value) (jar : string) (main_class : value)
      (spark_args : list string)
  | SparkScriptStep (args : value) (script : string)
      (spark_args : list string).

(** A runner class: its alias and the option names it declares. *)
Record RunnerClass := mkRunner {
  alias : string;
  OPT_NAMES : gset string;
}.

(** What the runner constructor receives under a keyword: an option value,
    or the list of step descriptions (a step stands for its description). *)
Inductive kwarg :=
  | KwValue (v : value)
  | KwSteps (steps : list Step).

(** ** What [main] does to the outside world *)

Inductive event :=
  | stderr_usage (e : parse_error)
  | print_help (help_parser : list Action)
  | print (line : string)
  | set_up_logging (quiet verbose : value)
  | runner_init (runner_class : RunnerClass) (kwargs : gmap string kwarg)
  | runner_run (runner_class : RunnerClass).

(** A computation that logs events and may raise. *)
Definition prog (A : Type) : Type := list event * result A.

Definition pbind {A B} (m : prog A) (f : A -> prog B) : prog B :=
  match m with
  | (log, Ok a) => let '(log', r) := f a in (log ++ log', r)
  | (log, Raise e) => (log, Raise e)
  end.

Definition emit (e : event) : prog unit := ([e], Ok tt).

Definition lift {A} (r : result A) : prog A := ([], r).

Notation "x <~ e1 ;; e2" := (pbind e1 (fun x => e2))
  (at level 100, e1 at next level, right associativity).

(** [sys.exit(code)] *)
Definition sys_exit {A} (code : Z) : prog A := ([], Raise (SystemExit code)).

(** One switch of the runner option [opt_name], registered under that
    name. *)
Definition add_runner_switch (opt_name : string) (parser : list Action)
    (sw : list string * gmap string value) : result (list Action) :=
  add_argument parser (fst sw) (<["dest" := VStr opt_name]> (snd sw)).

(** ** The module, over what it imports *)

Section spark_submit.

(** [mrjob.options._RUNNER_OPTS]: for every runner option name, the
    [switches] entry of its configuration, a list of
    [(opt_strings, opt_kwargs)].  The other entries are not read here. *)
Variable _RUNNER_OPTS : gmap string (list (list string * gmap string value)).

(** The [add_argument] calls [mrjob.options._add_basic_args] makes. *)
Variable basic_args : list (list string * gmap string value).

(** [mrjob.runner._runner_class] *)
Variable _runner_class : value -> result RunnerClass.

(** [os.devnull] *)
Variable os_devnull : string.

(** Lines 227-229. *)
Definition _SPARK_ARG_OPT_NAMES : gset string :=
  spark_submit_switch_names ∖ dom _RUNNER_OPTS ∖ _STEP_OPT_NAMES.

Definition _add_basic_args (parser : list Action) : result (list Action) :=
  for_each basic_args
    (fun parser call => add_argument parser (fst call) (snd call)) parser.

(** Modelled from the spec: [_add_runner_args] is defined in
    [mrjob.options], outside this module.  For every option name it is
    given it registers each switch of that option in [_RUNNER_OPTS], with
    the keyword arguments the table gives and the option name as
    destination. *)
Definition _add_runner_args (parser : list Action) (opt_names : gset string)
  : result (list Action) :=
  for_each (elements opt_names)
    (fun parser opt_name =>
       switches <- getitem _RUNNER_OPTS opt_name ;;
       for_each switches (add_runner_switch opt_name) parser)
    parser.

Definition _add_spark_submit_arg (parser : list Action) (opt_name : string)
  : result (list Action) :=
  match spark_submit_switch opt_name with
  | None => Raise (KeyError opt_name)
  | Some opt_string =>
      let kwargs : gmap string value := {[ "dest" := VStr opt_name ]} in
      let kwargs :=
        match _RUNNER_OPTS !! opt_name with
        | Some switches =>
            let opt_alias :=
              default opt_string (_SWITCH_ALIASES !! opt_string) in
            fold_left
              (fun kwargs sw =>
                 if str_in opt_alias (fst sw) then snd sw ∪ kwargs
                 else kwargs)
              switches kwargs
        | None => kwargs
        end in
      help_text <- getitem _SPARK_SUBMIT_ARG_HELP opt_name ;;
      let kwargs := <["help" := VStr help_text]> kwargs in
      let kwargs :=
        default ∅ (_SPARK_SUBMIT_ARG_KWARGS !! opt_name) ∪ kwargs in
      add_argument parser [opt_string] kwargs
  end.

Definition _add_runner_alias_arg (parser : list Action)
  : result (list Action) :=
  add_argument parser ["-r"; "--runner"]
    (list_to_map
       [ ("dest", VStr "runner");
         ("choices", VList _SPARK_RUNNERS);
         ("help", VStr ("Where to run the job (default: " +:+ dq
                        +:+ _DEFAULT_RUNNER +:+ dq +:+ ")")) ]).

Definition _add_help_arg (parser : list Action) : result (list Action) :=
  add_argument parser ["-h"; "--help"]
    (list_to_map
       [ ("dest", VStr "help");
         ("action", VStr "store_true");
         ("help", VStr "show this message and exit") ]).

Definition _add_deprecated_arg (parser : list Action)
  : result (list Action) :=
  add_argument parser ["--deprecated"]
    (list_to_map
       [ ("dest", VStr "deprecated");
         ("action", VStr "store_true");
         ("help", VStr "include help for deprecated options") ]).

(** The body of the loop of lines 353-356. *)
Definition add_spark_specific_opt (parser : list Action)
    (item : string * string) : result (list Action) :=
  let '(opt_name, switch) := item in
  if bool_decide (is_Some (_RUNNER_OPTS !! opt_name))
     && bool_decide (_SWITCH_ALIASES !! switch = None)
  then Ok parser
  else _add_spark_submit_arg parser opt_name.

Definition _make_arg_parser : result (list Action) :=
  let parser : list Action := [] in
  parser <- add_argument parser []
              (list_to_map [ ("dest", VStr "script_or_jar");
                             ("nargs", VStr "?") ]) ;;
  parser <- add_argument parser []
              (list_to_map [ ("dest", VStr "args");
                             ("nargs", VStr "*") ]) ;;
  parser <- _add_basic_args parser ;;
  parser <- _add_runner_alias_arg parser ;;
  parser <- _add_help_arg parser ;;
  parser <- _add_deprecated_arg parser ;;
  let runner_opt_names := dom _RUNNER_OPTS ∖ dom _HARD_CODED_OPTS in
  parser <- _add_runner_args parser runner_opt_names ;;
  for_each _SPARK_SUBMIT_SWITCHES add_spark_specific_opt parser.

(** Modelled from the spec: [_parse_raw_args] is defined in
    [mrjob.options], outside this module.  For every occurrence of a
    registered switch in the token stream, in order, it gives the
    destination, the switch as written and the value tokens the switch
    consumed, with the value arity of the parser.  Malformed input is left
    to the conventional pass. *)
Fixpoint _parse_raw_args (parser : list Action) (cl_args : list string)
  : list (string * string * list string) :=
  match cl_args with
  | [] => []
  | t :: rest =>
      match find_action parser t with
      | Some a =>
          if takes_value a then
            match rest with
            | v :: rest' =>
                (dest a, t, [v]) :: _parse_raw_args parser rest'
            | [] => []
            end
          else (dest a, t, []) :: _parse_raw_args parser rest
      | None => _parse_raw_args parser rest
      end
  end.

Definition _get_spark_args (parser : list Action) (cl_args : list string)
  : list string :=
  let raw_args := _parse_raw_args parser cl_args in
  fold_left
    (fun spark_args raw =>
       let '(dest, option_string, args) := raw in
       if bool_decide (dest ∈ _SPARK_ARG_OPT_NAMES)
       then (spark_args ++ [option_string]) ++ args
       else spark_args)
    raw_args [].

(** The test of lines 288-299 on the target path. *)
Definition classify_target (script_or_jar : string) (args main_class : value)
    (spark_args : list string) : result Step :=
  if endswith (lower script_or_jar) ".jar" then
    Ok (SparkJarStep args script_or_jar main_class spark_args)
  else if startswith (last_item (split "." (lower script_or_jar))) "py" then
    Ok (SparkScriptStep args script_or_jar spark_args)
  else
    Raise (ValueError (script_or_jar
                       +:+ " appears not to be a JAR or Python script")).

Definition _get_step (options : gmap string value) (parser : list Action)
    (cl_args : list string) : result Step :=
  args <- getattr options "args" ;;
  main_class <- getattr options "main_class" ;;
  let spark_args := _get_spark_args parser cl_args in
  script_or_jar <- getattr options "script_or_jar" ;;
  match script_or_jar with
  | VStr script_or_jar =>
      classify_target script_or_jar args main_class spark_args
  | _ => Raise (AttributeError "lower")
  end.

(** The dict comprehension of lines 276-278. *)
Definition _get_runner_opt_kwargs (options : gmap string value)
    (runner_class : RunnerClass) : gmap string value :=
  filter (fun kv => kv.1 ∈ OPT_NAMES runner_class) options.

Definition _make_basic_help_parser (include_deprecated : value)
  : result (list Action) :=
  let help_parser : list Action := [] in
  help_parser <- _add_runner_alias_arg help_parser ;;
  for_each _SPARK_SUBMIT_ARG_GROUPS
    (fun help_parser group =>
       let '(group_desc, opt_names) := group in
       help_parser <- for_each opt_names _add_spark_submit_arg help_parser ;;
       match group_desc with
       | None =>
           help_parser <- _add_basic_args help_parser ;;
           help_parser <- _add_help_arg help_parser ;;
           if truthy include_deprecated
           then _add_deprecated_arg help_parser
           else Ok help_parser
       | Some _ => Ok help_parser
       end)
    help_parser.

Definition _print_basic_help (include_deprecated : value) : prog unit :=
  help_parser <~ lift (_make_basic_help_parser include_deprecated) ;;
  _ <~ emit (print_help help_parser) ;;
  if truthy include_deprecated then lift (Ok tt)
  else
    _ <~ emit (print EmptyString) ;;
    emit (print _DEPRECATED_OPT_HELP).

(** Lines 391-398.  The table read here does not say which switches are
    deprecated, so the help parser holds every switch of the options,
    whatever [include_deprecated] is. *)
Definition _print_help_for_runner (runner_class : RunnerClass)
    (include_deprecated : value) : prog unit :=
  let help_parser : list Action := [] in
  let opt_names := OPT_NAMES runner_class ∖ dom _HARD_CODED_OPTS in
  help_parser <~ lift (_add_runner_args help_parser opt_names) ;;
  emit (print_help help_parser).

Definition _print_help (options : gmap string value)
    (runner_class : RunnerClass) : prog unit :=
  help <~ lift (getattr options "help") ;;
  for_runner <~
    (if truthy help
     then lift (r <- getattr options "runner" ;; Ok (truthy r))
     else lift (Ok false)) ;;
  deprecated <~ lift (getattr options "deprecated") ;;
  if for_runner : bool
  then _print_help_for_runner runner_class deprecated
  else _print_basic_help deprecated.

(** [parser.parse_args(cl_args)] inside [main]: a usage error goes to
    standard error and ends the process with status 2. *)
Definition run_parse_args (parser : list Action) (cl_args : list string)
  : prog (gmap string value) :=
  match parse_args parser cl_args with
  | inr options => lift (Ok options)
  | inl e => _ <~ emit (stderr_usage e) ;; sys_exit 2
  end.

(** [main] (lines 245-271).  The construction of the runner and its [run]
    are recorded as events; what they do, and whether they raise, is the
    runner's business and is not modelled. *)
Definition main (cl_args : list string) : prog unit :=
  parser <~ lift _make_arg_parser ;;
  options <~ run_parse_args parser cl_args ;;
  runner <~ lift (getattr options "runner") ;;
  let runner_alias := py_or runner (VStr _DEFAULT_RUNNER) in
  runner_class <~ lift (_runner_class runner_alias) ;;
  show_help <~
    lift (help <- getattr options "help" ;;
          if truthy help then Ok true
          else script_or_jar <- getattr options "script_or_jar" ;;
               Ok (negb (truthy script_or_jar))) ;;
  if show_help : bool then
    _ <~ _print_help options runner_class ;;
    sys_exit 0
  else
    quiet <~ lift (getattr options "quiet") ;;
    verbose <~ lift (getattr options "verbose") ;;
    _ <~ emit (set_up_logging quiet verbose) ;;
    let kwargs := _get_runner_opt_kwargs options runner_class in
    let kwargs := _HARD_CODED_OPTS ∪ kwargs in
    let kwargs : gmap string kwarg := KwValue <$> kwargs in
    let kwargs := <["input_paths" := KwValue (VList [os_devnull])]> kwargs in
    step <~ lift (_get_step options parser cl_args) ;;
    let kwargs := <["steps" := KwSteps [step]]> kwargs in
    _ <~ emit (runner_init runner_class kwargs) ;;
    emit (runner_run runner_class).

End spark_submit.

(** ** What the step builder is specified to test *)

(** [c] occurs in [s]. *)
Fixpoint contains_char (c : ascii) (s : string) : bool :=
  match s with
  | EmptyString => false
  | String b s' => Ascii.eqb b c || contains_char c s'
  end.

(** [ext] is the extension of the file name [s]: the text after its last
    dot, or the whole name when it has no dot. *)
Definition extension_of (s ext : string) : Prop :=
  contains_char "." ext = false ∧
  (s = ext ∨ ∃ stem, s = stem +:+ String "." ext).

(** [s] ends in [suffix]. *)
Definition has_suffix (s suffix : string) : Prop :=
  ∃ stem, s = stem +:+ suffix.

(** [s] begins with [p]. *)
Definition has_prefix (s p : string) : Prop :=
  ∃ rest, s = p +:+ rest.

(** ** Sample instances of the imported parts

    A small runner-option table in the shape this module expects of
    [_RUNNER_OPTS]: [spark_master], [spark_deploy_mode], [libjars] and
    [jobconf] are runner options under the native switches [_SWITCH_ALIASES]
    names, [py_files] is one under the switch spark-submit uses too, and
    [spark_master] is declared by the Hadoop runner only (the grouping of
    [_SPARK_SUBMIT_ARG_GROUPS]). *)

Definition sample_RUNNER_OPTS
  : gmap string (list (list string * gmap string value)) :=
  list_to_map
    [ ("bootstrap", [ (["--bootstrap"], {[ "action" := VStr "append" ]}) ]);
      ("check_input_paths",
       [ (["--check-input-paths"], {[ "action" := VStr "store_true" ]});
         (["--no-check-input-paths"], {[ "action" := VStr "store_false" ]}) ]);
      ("jobconf", [ (["-D"; "--jobconf"], {[ "action" := VStr "append" ]}) ]);
      ("libjars", [ (["--libjars"], {[ "action" := VStr "append" ]}) ]);
      ("py_files", [ (["--py-files"], ∅) ]);
      ("spark_deploy_mode", [ (["--spark-deploy-mode"], ∅) ]);
      ("spark_master", [ (["--spark-master"], ∅) ]) ].

Definition sample_basic_args : list (list string * gmap string value) :=
  [ (["-q"; "--quiet"],
     list_to_map [ ("dest", VStr "quiet"); ("action", VStr "store_true") ]);
    (["-v"; "--verbose"],
     list_to_map [ ("dest", VStr "verbose"); ("action", VStr "store_true") ]) ].

Definition sample_emr : RunnerClass :=
  {| alias := "emr";
     OPT_NAMES := {[ "bootstrap"; "check_input_paths"; "jobconf"; "libjars";
                     "py_files" ]} |}.

Definition sample_hadoop : RunnerClass :=
  {| alias := "hadoop";
     OPT_NAMES := {[ "check_input_paths"; "jobconf"; "libjars"; "py_files";
                     "spark_deploy_mode"; "spark_master" ]} |}.

Definition sample_runner_class (runner_alias : value) : result RunnerClass :=
  match runner_alias with
  | VStr a =>
      if String.eqb a "emr" then Ok sample_emr
      else if String.eqb a "hadoop" then Ok sample_hadoop
      else Raise (ValueError ("bad runner alias: " +:+ a))
  | _ => Raise (ValueError "bad runner alias")
  end.

(** A runner-option table with no entry. *)
Definition no_RUNNER_OPTS
  : gmap string (list (list string * gmap string value)) := ∅.

(** ** Auxiliary notions for reasoning about parsers *)

(** Every switch of the action starts with a dash. *)
Definition dashed (a : Action) : Prop :=
  Forall (fun s => startswith s "-" = true) (option_strings a).

(** [p'] is [p] with further actions registered after it. *)
Definition grows (p p' : list Action) : Prop :=
  ∃ l, p' = p ++ l ∧ Forall dashed l.

(** The keyword arguments [_add_spark_submit_arg] has collected for
    [opt_name] when it reaches line 328: the destination, patched with those
    of the runner switches that carry the alias of [opt_string]. *)
Definition patched_kwargs
    (_RUNNER_OPTS : gmap string (list (list string * gmap string value)))
    (opt_name opt_string : string) : gmap string value :=
  match _RUNNER_OPTS !! opt_name with
  | Some switches =>
      fold_left
        (fun kwargs sw =>
           if str_in (default opt_string (_SWITCH_ALIASES !! opt_string))
                     (fst sw)
           then snd sw ∪ kwargs else kwargs)
        switches {[ "dest" := VStr opt_name ]}
  | None => {[ "dest" := VStr opt_name ]}
  end.





(** A command line with every [sw] written as [native]. *)
Definition spell (sw native t : string) : string :=
  if String.eqb t sw then native else t.

Definition respell (sw native : string) (cl_args : list string)
  : list string :=
  spell sw native <$> cl_args.

(** The typed values of a parse, when it gives any. *)
Definition typed_values (r : parse_error + gmap string value)
  : option (gmap string value) :=
  match r with
  | inr options => Some options
  | inl _ => None
  end.

(** What [_print_basic_help] writes. *)
Definition basic_help_output (help_parser : list Action)
    (include_deprecated : value) : list event :=
  print_help help_parser
  :: (if truthy include_deprecated then []
      else [print EmptyString; print _DEPRECATED_OPT_HELP]).

(** The tokens of the order-preservation example. *)
Definition files_conf_tokens : list string :=
  ["--files"; "a"; "--conf"; "X=1"; "--files"; "b"; "--conf"; "Y=2"].


(** The sample table with [upload_files] a runner option too, under the
    switch spark-submit uses. *)
Definition files_RUNNER_OPTS
  : gmap string (list (list string * gmap string value)) :=
  <["upload_files" := [ (["--files"], {[ "action" := VStr "append" ]}) ]]>
    sample_RUNNER_OPTS.

(** ** The sample instances, evaluated *)

Definition files_parser : list Action :=
  Eval vm_compute in
    match _make_arg_parser files_RUNNER_OPTS sample_basic_args with
    | Ok parser => parser
    | Raise _ => []
    end.

Definition sample_parser : list Action :=
  Eval vm_compute in
    match _make_arg_parser sample_RUNNER_OPTS sample_basic_args with
    | Ok parser => parser
    | Raise _ => []
    end.

Definition sample_help_parser : list Action :=
  Eval vm_compute in
    match _make_basic_help_parser sample_RUNNER_OPTS sample_basic_args
            (VBool false) with
    | Ok parser => parser
    | Raise _ => []
    end.

(** A command line with switches only. *)
Definition switches_only : list string := ["-q"; "--conf"; "a=b"].

Definition switches_only_options : gmap string value :=
  Eval vm_compute in
    match parse_args sample_parser switches_only with
    | inr options => options
    | inl _ => ∅
    end.

(** A command line that names a runner option before an alias that is not
    eligible. *)
Definition master_then_local : list string :=
  ["--spark-master"; "yarn"; "-r"; "local"; "job.py"].

Definition state_at_local : parse_state :=
  Eval vm_compute in
    fst (consume sample_parser master_then_local
           (initial_state sample_parser)).

(** A submission of a script. *)
Definition submit_script : list string := ["--conf"; "a=b"; "job.py"; "10"].

Definition submit_script_options : gmap string value :=
  Eval vm_compute in
    match parse_args sample_parser submit_script with
    | inr options => options
    | inl _ => ∅
    end.

Definition submit_script_kwargs : gmap string kwarg :=
  Eval vm_compute in
    list_to_map
      [ ("check_input_paths", KwValue (VBool false));
        ("input_paths", KwValue (VList ["/dev/null"]));
        ("jobconf", KwValue (VList ["a=b"]));
        ("libjars", KwValue VNone);
        ("output_dir", KwValue VNone);
        ("py_files", KwValue VNone);
        ("spark_deploy_mode", KwValue VNone);
        ("spark_master", KwValue VNone);
        ("steps", KwSteps [SparkScriptStep (VList ["10"]) "job.py" []]) ].

(** ** Further notions for the properties of the parsers and of [main] *)

(** The switches a parser accepts, in registration order. *)
Definition switches_of (parser : list Action) : list string :=
  parser ≫= option_strings.

(** No switch is the spelling of two actions. *)
Definition unambiguous (parser : list Action) : Prop :=
  ∀ i j a b s,
    parser !! i = Some a → parser !! j = Some b →
    s ∈ option_strings a → s ∈ option_strings b → i = j.

(** The keyword arguments of lines 261-267, for a namespace, a runner class
    and a step. *)
Definition submitted_kwargs (os_devnull : string)
    (options : gmap string value) (runner_class : RunnerClass) (step : Step)
  : gmap string kwarg :=
  <["steps" := KwSteps [step]]>
    (<["input_paths" := KwValue (VList [os_devnull])]>
       (KwValue <$> (_HARD_CODED_OPTS
                     ∪ _get_runner_opt_kwargs options runner_class))).

(** The keywords [main] sets itself, whatever the command line. *)
Definition fixed_kwargs : list string :=
  ["check_input_paths"; "output_dir"; "input_paths"; "steps"].

(** The switches of the option names of a group, through
    [_SPARK_SUBMIT_SWITCHES]. *)
Definition group_switches (opt_names : list string) : list string :=
  omap spark_submit_switch opt_names.

(** What one round of the loop of lines 420-433 registers: the switches of
    the group, and after the first group the basic switches, the help flag
    and, if asked for, the flag for deprecated options. *)
Definition help_group_switches
    (basic_args : list (list string * gmap string value))
    (include_deprecated : value) (group : option string * list string)
  : list string :=
  group_switches group.2
  ++ match group.1 with
     | None =>
         (basic_args ≫= fst) ++ ["-h"; "--help"]
         ++ (if truthy include_deprecated then ["--deprecated"] else [])
     | Some _ => []
     end.

(** The items of [_SPARK_SUBMIT_SWITCHES] the loop of lines 353-356 does
    not skip. *)
Definition spark_specific_items
    (_RUNNER_OPTS : gmap string (list (list string * gmap string value)))
  : list (string * string) :=
  filter
    (λ item, item.1 ∉ dom _RUNNER_OPTS ∨ item.2 ∈ dom _SWITCH_ALIASES)
    _SPARK_SUBMIT_SWITCHES.

(** The first positional of [_make_arg_parser] (line 340). *)
Definition script_or_jar_positional : Action :=
  {| option_strings := [];
     dest := "script_or_jar";
     action := Store;
     nargs := NargsOptional;
     choices := None;
     default_value := VNone;
     help := None |}.

(** The second positional of [_make_arg_parser] (line 341). *)
Definition args_positional : Action :=
  {| option_strings := [];
     dest := "args";
     action := Store;
     nargs := NargsZeroOrMore;
     choices := None;
     default_value := VNone;
     help := None |}.

(** The test of line 252: help is shown when it is asked for or when no
    target is named. *)
Definition shows_help (options : gmap string value) : result bool :=
  help <- getattr options "help" ;;
  if truthy help then Ok true
  else script_or_jar <- getattr options "script_or_jar" ;;
       Ok (negb (truthy script_or_jar)).

(** ** Further sample instances, evaluated *)

(** A runner class lookup that fails, as when the runner's module cannot be
    imported. *)
Definition failing_runner_class (runner_alias : value) : result RunnerClass :=
  Raise (ValueError "runner not available").



(** Help asked for, with a target and no runner. *)
Definition help_with_target : list string := ["-h"; "job.py"].

Definition help_with_target_options : gmap string value :=
  Eval vm_compute in
    match parse_args sample_parser help_with_target with
    | inr options => options
    | inl _ => ∅
    end.

Definition sample_emr_help_parser : list Action :=
  Eval vm_compute in
    match _add_runner_args sample_RUNNER_OPTS []
            (OPT_NAMES sample_emr ∖ dom _HARD_CODED_OPTS) with
    | Ok parser => parser
    | Raise _ => []
    end.

(** A target that is neither a jar nor a Python script. *)
Definition submit_text : list string := ["data.txt"].

Definition submit_text_options : gmap string value :=
  Eval vm_compute in
    match parse_args sample_parser submit_text with
    | inr options => options
    | inl _ => ∅
    end.

(** The parser that holds [--supervise] alone. *)
Definition supervise_only : list Action :=
  Eval vm_compute in
    match _add_spark_submit_arg no_RUNNER_OPTS [] "supervise" with
    | Ok parser => parser
    | Raise _ => []
    end.

(** Basic switches of which one is spelled like the runner switch. *)
Definition clashing_basic_args : list (list string * gmap string value) :=
  [ (["-r"; "--recursive"], {[ "action" := VStr "store_true" ]}) ].

Definition clashing_basic_parser : list Action :=
  Eval vm_compute in
    match _add_basic_args clashing_basic_args
            [script_or_jar_positional; args_positional] with
    | Ok parser => parser
    | Raise _ => []
    end.

(** * Properties *)

(** * The option classes *)

Lemma main_class_known : "main_class" ∈ spark_submit_switch_names.
Proof. compute_done. Qed.

Lemma opt_names_are_switch_names :
  _SPARK_SUBMIT_OPT_NAMES = spark_submit_switch_names.
Proof. compute_done. Qed.

(** C3 as stated fails: the forwarded names are computed from the keys of
    [_RUNNER_OPTS], the options of all runners, not from the options the
    selected runner declares.  With [spark_master] a runner option that the
    EMR runner does not declare, [spark_master] is a known switch name that
    is in none of the three classes of that runner, so their union is not
    the known-switch set. *)
Lemma partition_misses_undeclared_runner_option :
  "emr" ∈ _SPARK_RUNNERS ∧
  sample_runner_class (VStr "emr") = Ok sample_emr ∧
  "spark_master" ∈ spark_submit_switch_names ∧
  ("spark_master" ∉ OPT_NAMES sample_emr) ∧
  ("spark_master" ∉ _STEP_OPT_NAMES) ∧
  ("spark_master" ∉ _SPARK_ARG_OPT_NAMES sample_RUNNER_OPTS) ∧
  (OPT_NAMES sample_emr ∩ spark_submit_switch_names)
    ∪ _STEP_OPT_NAMES ∪ _SPARK_ARG_OPT_NAMES sample_RUNNER_OPTS
  ≠ spark_submit_switch_names.
Proof.
  split; [compute_done|]. split; [reflexivity|]. split_and!; compute_done.
Qed.

(** C3, as amended: take as the three classes of a runner class the
    known-switch names it declares ([OPT_NAMES], line 277), the step-only
    names and the forwarded names of lines 227-229.  The step-only and the
    forwarded names are always disjoint.  The declared and the step-only
    names are disjoint exactly when the runner does not declare
    [main_class]; the declared and the forwarded names are disjoint exactly
    when every known-switch name the runner declares, [main_class] apart, is
    a key of [_RUNNER_OPTS]; and the three classes cover the known-switch
    set, which is also [_SPARK_SUBMIT_OPT_NAMES], exactly when every
    known-switch key of [_RUNNER_OPTS], [main_class] apart, is declared by
    the runner. *)
Theorem option_classes_partition_iff
    (RO : gmap string (list (list string * gmap string value)))
    (runner_class : RunnerClass) :
  let declared := OPT_NAMES runner_class ∩ spark_submit_switch_names in
  _STEP_OPT_NAMES ## _SPARK_ARG_OPT_NAMES RO ∧
  (declared ## _STEP_OPT_NAMES ↔ "main_class" ∉ OPT_NAMES runner_class) ∧
  (declared ## _SPARK_ARG_OPT_NAMES RO ↔
   ∀ x, x ∈ spark_submit_switch_names → x ∈ OPT_NAMES runner_class →
        x ≠ "main_class" → x ∈ dom RO) ∧
  (declared ∪ _STEP_OPT_NAMES ∪ _SPARK_ARG_OPT_NAMES RO
     = spark_submit_switch_names ↔
   ∀ x, x ∈ spark_submit_switch_names → x ∈ dom RO →
        x ≠ "main_class" → x ∈ OPT_NAMES runner_class) ∧
  spark_submit_switch_names = _SPARK_SUBMIT_OPT_NAMES.
Proof.
  cbv zeta. pose proof main_class_known as Hk.
  split_and!; [| | | |by rewrite opt_names_are_switch_names].
  all: unfold _SPARK_ARG_OPT_NAMES, _STEP_OPT_NAMES.
  all: generalize dependent spark_submit_switch_names; intros K Hk.
  - set_solver.
  - split.
    + intros Hdis Hmc. apply (Hdis "main_class"); set_solver.
    + intros Hmc x Hx Hs. apply elem_of_singleton in Hs as ->.
      apply elem_of_intersection in Hx as [Hx _]. contradiction.
  - split.
    + intros Hdis x HxK Hx Hne.
      destruct (decide (x ∈ dom RO)) as [|Hno]; [done|].
      destruct (Hdis x); set_solver.
    + intros Hall x Hx Hf.
      apply elem_of_intersection in Hx as [Hx HxK].
      apply elem_of_difference in Hf as [Hf Hne].
      apply elem_of_difference in Hf as [_ Hf].
      apply Hf, Hall; [done | done |]. intros ->. set_solver.
  - split.
    + intros Heq x HxK Hx Hne.
      assert (x ∈ OPT_NAMES runner_class ∩ K ∪ {["main_class"]}
                  ∪ K ∖ dom RO ∖ {["main_class"]}) as Hin
        by (rewrite Heq; done).
      set_solver.
    + intros Hall. apply set_eq. intros x. split.
      * set_solver.
      * intros HxK. destruct (decide (x = "main_class")) as [->|Hne].
        { set_solver. }
        destruct (decide (x ∈ dom RO)) as [Hx|Hx].
        -- specialize (Hall x HxK Hx Hne). set_solver.
        -- set_solver.
Qed.

(** The classes of the sample Hadoop runner, which declares every
    known-switch runner option of the sample table, cover the known-switch
    set. *)
Lemma option_classes_partition_iff_witness :
  (OPT_NAMES sample_hadoop ∩ spark_submit_switch_names)
    ∪ _STEP_OPT_NAMES ∪ _SPARK_ARG_OPT_NAMES sample_RUNNER_OPTS
  = spark_submit_switch_names.
Proof.
  apply (proj2 (proj1 (proj2 (proj2 (proj2
           (option_classes_partition_iff sample_RUNNER_OPTS sample_hadoop)))))).
  intros x HxK Hx Hne.
  apply elem_of_list_to_set in HxK.
  repeat (apply elem_of_cons in HxK as [-> | HxK];
          [first [ (clear; compute_done)
                 | (exfalso; revert Hx; clear; compute_done) ]|]).
  by apply elem_of_nil in HxK.
Defined.

(** C4 as stated fails: with [spark_master] a runner option that the EMR
    runner does not declare, [spark_master] is absent from the selected
    runner's declared set and present in the known-switch table, yet it is
    not forwarded, and the forwarded set is not the known names minus that
    runner's declared names minus the step-only names. *)
Lemma forward_set_not_backend_relative :
  "spark_master" ∈ spark_submit_switch_names ∧
  ("spark_master" ∉ OPT_NAMES sample_emr) ∧
  ("spark_master" ∉ _STEP_OPT_NAMES) ∧
  ("spark_master" ∉ _SPARK_ARG_OPT_NAMES sample_RUNNER_OPTS) ∧
  _SPARK_ARG_OPT_NAMES sample_RUNNER_OPTS
    ≠ spark_submit_switch_names ∖ OPT_NAMES sample_emr ∖ _STEP_OPT_NAMES.
Proof.
  split_and!; compute_done.
Qed.

(** C4, as amended: the forwarded set is the known-switch names minus the
    keys of the runner-option table [_RUNNER_OPTS] (the options of all
    runners) minus [main_class], whichever runner is selected; it is the
    backend-relative set exactly when the selected runner declares the same
    known-switch names as the table holds. *)
Theorem forward_set_global
    (RO : gmap string (list (list string * gmap string value)))
    (runner_class : RunnerClass) :
  (∀ x, x ∈ _SPARK_ARG_OPT_NAMES RO ↔
        x ∈ spark_submit_switch_names ∧ (x ∉ dom RO) ∧ x ≠ "main_class") ∧
  (_SPARK_ARG_OPT_NAMES RO
     = spark_submit_switch_names ∖ OPT_NAMES runner_class ∖ _STEP_OPT_NAMES
   ↔ ∀ x, x ∈ spark_submit_switch_names → x ≠ "main_class" →
          (x ∈ dom RO ↔ x ∈ OPT_NAMES runner_class)).
Proof.
  unfold _SPARK_ARG_OPT_NAMES, _STEP_OPT_NAMES.
  generalize spark_submit_switch_names; intros K. split.
  - set_solver.
  - split.
    + intros Heq x Hx Hne.
      assert (x ∈ K ∖ dom RO ∖ {["main_class"]}
              ↔ x ∈ K ∖ OPT_NAMES runner_class ∖ {["main_class"]}) as H
        by (rewrite Heq; done).
      destruct (decide (x ∈ dom RO));
        destruct (decide (x ∈ OPT_NAMES runner_class)); set_solver.
    + intros H. apply set_eq. intros x. specialize (H x). set_solver.
Qed.

(** * The step builder *)

Lemma append_nil s : "" +:+ s = s.
Proof. reflexivity. Qed.

Lemma append_cons c s t : String c s +:+ t = String c (s +:+ t).
Proof. reflexivity. Qed.

Lemma endswith_cons c s suffix :
  endswith (String c s) suffix
  = String.eqb (String c s) suffix || endswith s suffix.
Proof. reflexivity. Qed.

Lemma endswith_has_suffix s suffix :
  endswith s suffix = true ↔ has_suffix s suffix.
Proof.
  unfold has_suffix. induction s as [|c s IH].
  - cbn [endswith]. rewrite orb_false_r, String.eqb_eq. split.
    + intros <-. by exists "".
    + intros [stem H]. destruct stem; [done | discriminate].
  - rewrite endswith_cons, orb_true_iff, IH, String.eqb_eq. split.
    + intros [<- | [stem ->]]; [by exists "" | by exists (String c stem)].
    + intros [stem H]. destruct stem as [|b stem].
      * by left.
      * right. exists stem. rewrite append_cons in H. by injection H.
Qed.

Lemma startswith_has_prefix s p :
  startswith s p = true ↔ has_prefix s p.
Proof.
  unfold has_prefix. revert s. induction p as [|a p IH]; intros s.
  - split; [intros _; by exists s | by destruct s].
  - destruct s as [|b s]; cbn [startswith].
    + split; [done | intros [rest H]; discriminate].
    + rewrite andb_true_iff, IH, Ascii.eqb_eq. split.
      * intros [-> [rest ->]]. by exists rest.
      * intros [rest H]. rewrite append_cons in H. injection H as -> ->.
        split; [done | by exists rest].
Qed.

Lemma split_cons sep c s :
  split sep (String c s)
  = if Ascii.eqb c sep then "" :: split sep s
    else match split sep s with
         | [] => [String c ""]
         | w :: ws => String c w :: ws
         end.
Proof. reflexivity. Qed.

Lemma contains_char_cons sep c s :
  contains_char sep (String c s) = Ascii.eqb c sep || contains_char sep s.
Proof. reflexivity. Qed.

Lemma split_no_sep sep s :
  contains_char sep s = false → split sep s = [s].
Proof.
  induction s as [|c s IH]; [done|].
  rewrite contains_char_cons, split_cons, orb_false_iff.
  intros [-> Hs]. by rewrite (IH Hs).
Qed.

Lemma split_with_sep sep s :
  contains_char sep s = true → ∃ w w' ws, split sep s = w :: w' :: ws.
Proof.
  induction s as [|c s IH]; [done|].
  rewrite contains_char_cons, split_cons.
  destruct (Ascii.eqb c sep); simpl.
  - intros _. destruct (contains_char sep s) eqn:Hs.
    + destruct (IH eq_refl) as (w & w' & ws & ->). eauto.
    + rewrite (split_no_sep _ _ Hs). eauto.
  - intros Hs. destruct (IH Hs) as (w & w' & ws & ->). eauto.
Qed.

(** The last component of [split], by recursion on the string. *)
Lemma last_split_cons sep c s :
  last_item (split sep (String c s))
  = if Ascii.eqb c sep || contains_char sep s then last_item (split sep s)
    else String c s.
Proof.
  rewrite split_cons. destruct (Ascii.eqb c sep); simpl.
  - destruct (contains_char sep s) eqn:Hs.
    + by destruct (split_with_sep _ _ Hs) as (w & w' & ws & ->).
    + by rewrite (split_no_sep _ _ Hs).
  - destruct (contains_char sep s) eqn:Hs.
    + by destruct (split_with_sep _ _ Hs) as (w & w' & ws & ->).
    + by rewrite (split_no_sep _ _ Hs).
Qed.

Lemma contains_char_app sep stem s :
  contains_char sep (stem +:+ String sep s) = true.
Proof.
  induction stem as [|c stem IH].
  - by rewrite append_nil, contains_char_cons, Ascii.eqb_refl.
  - by rewrite append_cons, contains_char_cons, IH, orb_true_r.
Qed.

Lemma last_split_extension s :
  extension_of s (last_item (split "." s)).
Proof.
  unfold extension_of. induction s as [|c s [IHn IHs]].
  - split; [done | by left].
  - rewrite last_split_cons. destruct (Ascii.eqb_spec c ".") as [->|Hc]; simpl.
    + split; [done|]. right. destruct IHs as [IHs | [stem IHs]].
      * exists "". rewrite append_nil. by f_equal.
      * exists (String "." stem). rewrite append_cons. by f_equal.
    + destruct (contains_char "." s) eqn:Hs.
      * split; [done|]. right. destruct IHs as [IHs | [stem IHs]].
        -- congruence.
        -- exists (String c stem). rewrite append_cons. by f_equal.
      * split; [|by left]. rewrite contains_char_cons, Hs.
        by destruct (Ascii.eqb_spec c ".").
Qed.

Lemma extension_unique s ext :
  extension_of s ext → ext = last_item (split "." s).
Proof.
  intros [Hn [-> | [stem ->]]].
  - by rewrite (split_no_sep _ _ Hn).
  - induction stem as [|c stem IH].
    + rewrite append_nil, last_split_cons, Ascii.eqb_refl. simpl.
      by rewrite (split_no_sep _ _ Hn).
    + rewrite append_cons, last_split_cons, contains_char_app, orb_true_r.
      done.
Qed.

Lemma ascii_lower_dot c : Ascii.eqb (ascii_lower c) "." = Ascii.eqb c ".".
Proof. destruct c as [[] [] [] [] [] [] [] []]; reflexivity. Qed.

Lemma contains_dot_lower s :
  contains_char "." (lower s) = contains_char "." s.
Proof.
  induction s as [|c s IH]; [done|].
  cbn [lower]. by rewrite !contains_char_cons, ascii_lower_dot, IH.
Qed.

Lemma has_suffix_contains s c suffix :
  has_suffix s (String c suffix) → contains_char c s = true.
Proof. intros [stem ->]. apply contains_char_app. Qed.

Section step_builder.
Context (RO : gmap string (list (list string * gmap string value))).
Context (options : gmap string value) (parser : list Action).
Context (cl_args : list string).

Lemma get_step_unfold path args mc :
  options !! "args" = Some args →
  options !! "main_class" = Some mc →
  options !! "script_or_jar" = Some (VStr path) →
  _get_step RO options parser cl_args
  = classify_target path args mc (_get_spark_args RO parser cl_args).
Proof.
  intros Ha Hm Hs. unfold _get_step, getattr. by rewrite Ha, Hm, Hs.
Qed.

Lemma classify_target_jar path args mc spark_args :
  has_suffix (lower path) ".jar" →
  classify_target path args mc spark_args
  = Ok (SparkJarStep args path mc spark_args).
Proof.
  intros H%endswith_has_suffix. unfold classify_target. by rewrite H.
Qed.

Lemma classify_target_other path args mc spark_args ext :
  ¬ has_suffix (lower path) ".jar" →
  extension_of (lower path) ext →
  classify_target path args mc spark_args
  = if startswith ext "py"
    then Ok (SparkScriptStep args path spark_args)
    else Raise (ValueError
                  (path +:+ " appears not to be a JAR or Python script")).
Proof.
  intros Hj He. unfold classify_target.
  destruct (endswith (lower path) ".jar") eqn:E.
  - by apply endswith_has_suffix in E.
  - by rewrite <- (extension_unique _ _ He).
Qed.
End step_builder.

(** C5: a target that ends in [.jar], case apart, gives a jar step whose
    main class is the [main_class] option; otherwise a target whose
    extension begins with [py] gives a script step; otherwise the step
    builder raises an error that names the target.  [job.py] is a script,
    [App.jar] a jar, [data.txt] is refused. *)
Theorem get_step_classifies
    (RO : gmap string (list (list string * gmap string value)))
    (options : gmap string value) (parser : list Action)
    (cl_args : list string) (path : string) (args main_class : value) :
  options !! "args" = Some args →
  options !! "main_class" = Some main_class →
  options !! "script_or_jar" = Some (VStr path) →
  let spark_args := _get_spark_args RO parser cl_args in
  let step_for target :=
    _get_step RO (<["script_or_jar" := VStr target]> options) parser cl_args in
  (has_suffix (lower path) ".jar" →
   _get_step RO options parser cl_args
   = Ok (SparkJarStep args path main_class spark_args)) ∧
  (¬ has_suffix (lower path) ".jar" →
   ∀ ext, extension_of (lower path) ext →
     (has_prefix ext "py" →
      _get_step RO options parser cl_args
      = Ok (SparkScriptStep args path spark_args)) ∧
     (¬ has_prefix ext "py" →
      _get_step RO options parser cl_args
      = Raise (ValueError
                 (path +:+ " appears not to be a JAR or Python script")))) ∧
  (∃ ext, extension_of (lower path) ext) ∧
  step_for "job.py" = Ok (SparkScriptStep args "job.py" spark_args) ∧
  step_for "App.jar" = Ok (SparkJarStep args "App.jar" main_class spark_args) ∧
  step_for "data.txt"
  = Raise (ValueError "data.txt appears not to be a JAR or Python script").
Proof.
  intros Ha Hm Hs spark_args step_for. split_and!.
  - intros Hj. rewrite (get_step_unfold _ _ _ _ _ _ _ Ha Hm Hs).
    by apply classify_target_jar.
  - intros Hj ext He. rewrite (get_step_unfold _ _ _ _ _ _ _ Ha Hm Hs).
    rewrite (classify_target_other _ _ _ _ _ Hj He). split.
    + intros Hp%startswith_has_prefix. by rewrite Hp.
    + intros Hp. destruct (startswith ext "py") eqn:E; [|done].
      by apply startswith_has_prefix in E.
  - eexists. apply last_split_extension.
  - unfold step_for. by erewrite get_step_unfold; [| by simplify_map_eq..].
  - unfold step_for. by erewrite get_step_unfold; [| by simplify_map_eq..].
  - unfold step_for. by erewrite get_step_unfold; [| by simplify_map_eq..].
Qed.

Lemma get_step_classifies_witness :
  _get_step no_RUNNER_OPTS
    (list_to_map [ ("args", VList ["10"]); ("main_class", VStr "org.Main");
                   ("script_or_jar", VStr "Lib.JAR") ]) [] []
  = Ok (SparkJarStep (VList ["10"]) "Lib.JAR" (VStr "org.Main") []).
Proof.
  refine (proj1 (get_step_classifies no_RUNNER_OPTS _ [] [] "Lib.JAR"
                   (VList ["10"]) (VStr "org.Main") _ _ _) _).
  - reflexivity.
  - reflexivity.
  - reflexivity.
  - by exists "lib".
Defined.

(** C10: for a target without a dot the prefix test is applied to the whole
    name, so a dotless name that begins with [py], such as [pyspark_job],
    gives a script step. *)
Theorem dotless_target_is_matched_whole
    (RO : gmap string (list (list string * gmap string value)))
    (options : gmap string value) (parser : list Action)
    (cl_args : list string) (path : string) (args main_class : value) :
  options !! "args" = Some args →
  options !! "main_class" = Some main_class →
  options !! "script_or_jar" = Some (VStr path) →
  contains_char "." path = false →
  let spark_args := _get_spark_args RO parser cl_args in
  (has_prefix (lower path) "py" →
   _get_step RO options parser cl_args
   = Ok (SparkScriptStep args path spark_args)) ∧
  (¬ has_prefix (lower path) "py" →
   _get_step RO options parser cl_args
   = Raise (ValueError
              (path +:+ " appears not to be a JAR or Python script"))) ∧
  _get_step RO (<["script_or_jar" := VStr "pyspark_job"]> options)
    parser cl_args
  = Ok (SparkScriptStep args "pyspark_job" spark_args).
Proof.
  intros Ha Hm Hs Hdot spark_args.
  assert (¬ has_suffix (lower path) ".jar") as Hj.
  { intros H%has_suffix_contains. by rewrite contains_dot_lower, Hdot in H. }
  assert (extension_of (lower path) (lower path)) as He.
  { split; [by rewrite contains_dot_lower | by left]. }
  rewrite (get_step_unfold _ _ _ _ _ _ _ Ha Hm Hs).
  rewrite (classify_target_other _ _ _ _ _ Hj He). split_and!.
  - intros Hp%startswith_has_prefix. by rewrite Hp.
  - intros Hp. destruct (startswith (lower path) "py") eqn:E; [|done].
    by apply startswith_has_prefix in E.
  - by erewrite get_step_unfold; [| by simplify_map_eq..].
Qed.

(** * Results *)

Lemma rbind_Ok {A B} (r : result A) (f : A → result B) b :
  rbind r f = Ok b → ∃ a, r = Ok a ∧ f a = Ok b.
Proof. destruct r as [a|e]; [by exists a | done]. Qed.

Ltac inv_rbind H :=
  repeat match type of H with
         | rbind _ _ = Ok _ =>
             let a := fresh "p" in
             let Ha := fresh "Hp" in
             apply rbind_Ok in H as (a & Ha & H)
         end.

(** * Parsers grow by appending *)

Lemma str_in_true x l : str_in x l = true ↔ x ∈ l.
Proof.
  unfold str_in. rewrite existsb_exists. setoid_rewrite String.eqb_eq.
  setoid_rewrite <- list_elem_of_In. naive_solver.
Qed.

Lemma find_action_app p l s :
  find_action (p ++ l) s
  = match find_action p s with
    | Some a => Some a
    | None => find_action l s
    end.
Proof.
  unfold find_action. induction p as [|a p IH]; [done|].
  simpl. by destruct (has_switch s a).
Qed.

Lemma registered_find p s :
  registered p s = false ↔ find_action p s = None.
Proof.
  unfold registered, find_action. induction p as [|a p IH]; [done|].
  simpl. destruct (has_switch s a); [done | by rewrite <- IH].
Qed.

Lemma find_action_has_switch p s a :
  find_action p s = Some a → has_switch s a = true ∧ a ∈ p.
Proof.
  unfold find_action. intros H. split.
  - by apply find_some in H as [_ ?].
  - apply find_some in H as [? _]. by apply list_elem_of_In.
Qed.

Lemma add_argument_Ok parser strs kw parser' :
  add_argument parser strs kw = Ok parser' →
  ∃ a, parser' = parser ++ [a] ∧
       option_strings a = strs ∧
       kw_dest strs kw = Ok (dest a) ∧
       kw_action kw = Ok (action a) ∧
       kw_nargs kw = Ok (nargs a) ∧
       kw_choices kw = Ok (choices a) ∧
       Forall (λ s, find_action parser s = None) strs ∧
       dashed a.
Proof.
  unfold add_argument. intros H.
  destruct (forallb _ strs) eqn:Hdash; [|done]. simpl in H.
  apply rbind_Ok in H as (d & Hd & H). apply rbind_Ok in H as (act & Hact & H).
  destruct (forallb _ (elements _)); [|done]. simpl in H.
  apply rbind_Ok in H as (n & Hn & H). apply rbind_Ok in H as (ch & Hch & H).
  destruct (existsb (registered parser) strs) eqn:Hreg; [done|].
  injection H as <-. eexists. split_and!; try done.
  - apply Forall_forall. intros s Hs. apply registered_find.
    destruct (registered parser s) eqn:E; [|done].
    assert (existsb (registered parser) strs = true); [|congruence].
    apply existsb_exists. exists s. split; [by apply list_elem_of_In | done].
  - unfold dashed. simpl. apply Forall_forall. intros s Hs.
    rewrite forallb_forall in Hdash. by apply Hdash, list_elem_of_In.
Qed.

Lemma grows_refl p : grows p p.
Proof. exists []. by rewrite app_nil_r. Qed.

Lemma grows_trans p1 p2 p3 : grows p1 p2 → grows p2 p3 → grows p1 p3.
Proof.
  intros (l1 & -> & H1) (l2 & -> & H2). exists (l1 ++ l2).
  split; [by rewrite app_assoc | by apply Forall_app].
Qed.

Lemma grows_dashed p p' : grows p p' → Forall dashed p → Forall dashed p'.
Proof. intros (l & -> & Hl) Hp. by apply Forall_app. Qed.

Lemma find_action_grows p p' s a :
  grows p p' → find_action p s = Some a → find_action p' s = Some a.
Proof. intros (l & -> & _) H. by rewrite find_action_app, H. Qed.

Lemma find_action_undashed p s :
  Forall dashed p → startswith s "-" = false → find_action p s = None.
Proof.
  intros Hp Hs. destruct (find_action p s) as [a|] eqn:E; [|done].
  apply find_action_has_switch in E as [Hsw Ha].
  rewrite Forall_forall in Hp. specialize (Hp a Ha).
  apply str_in_true in Hsw. unfold dashed in Hp. rewrite Forall_forall in Hp.
  rewrite (Hp s Hsw) in Hs. done.
Qed.

Lemma add_argument_grows parser strs kw parser' :
  add_argument parser strs kw = Ok parser' → grows parser parser'.
Proof.
  intros (a & -> & H)%add_argument_Ok. exists [a]. split; [done|].
  apply Forall_singleton. naive_solver.
Qed.

Lemma add_argument_find parser strs kw parser' s :
  add_argument parser strs kw = Ok parser' → s ∈ strs →
  ∃ a, find_action parser' s = Some a ∧
       option_strings a = strs ∧
       kw_dest strs kw = Ok (dest a) ∧
       kw_action kw = Ok (action a) ∧
       kw_choices kw = Ok (choices a).
Proof.
  intros (a & -> & Hstrs & Hd & Ha & _ & Hc & Hfree & _)%add_argument_Ok Hs.
  exists a. split_and!; try done.
  rewrite find_action_app. rewrite Forall_forall in Hfree.
  rewrite (Hfree s Hs). unfold find_action. simpl.
  unfold has_switch. rewrite Hstrs.
  by rewrite (proj2 (str_in_true s strs) Hs).
Qed.

Section loops.
Context {A : Type} (body : list Action → A → result (list Action)).
Hypothesis body_grows : ∀ p x p', body p x = Ok p' → grows p p'.

Lemma for_each_grows xs p p' :
  for_each xs body p = Ok p' → grows p p'.
Proof.
  revert p. induction xs as [|x xs IH]; intros p H; simpl in H.
  - injection H as <-. apply grows_refl.
  - inv_rbind H. eapply grows_trans; [by eapply body_grows | by apply IH].
Qed.

Lemma for_each_elem (Q : list Action → Prop) x0 xs p p' :
  (∀ p p', grows p p' → Q p → Q p') →
  (∀ p p', body p x0 = Ok p' → Q p') →
  x0 ∈ xs → for_each xs body p = Ok p' → Q p'.
Proof.
  intros Hmono Hx0. revert p.
  induction xs as [|x xs IH]; intros p Hin H; [by apply elem_of_nil in Hin|].
  simpl in H. inv_rbind H.
  apply elem_of_cons in Hin as [<- | Hin].
  - eapply Hmono; [by eapply for_each_grows | by eapply Hx0].
  - by eapply IH.
Qed.
End loops.

(** * Construction of the parser *)

Section parser_construction.
Context (RO : gmap string (list (list string * gmap string value))).
Context (basic : list (list string * gmap string value)).

Lemma _add_basic_args_grows p p' :
  _add_basic_args basic p = Ok p' → grows p p'.
Proof.
  apply for_each_grows. intros q call q'. apply add_argument_grows.
Qed.

Lemma _add_runner_args_grows names p p' :
  _add_runner_args RO p names = Ok p' → grows p p'.
Proof.
  apply for_each_grows. intros q opt_name q' H. inv_rbind H.
  revert H. apply for_each_grows. intros q1 sw q2.
  apply add_argument_grows.
Qed.

Lemma _add_spark_submit_arg_grows p opt_name p' :
  _add_spark_submit_arg RO p opt_name = Ok p' → grows p p'.
Proof.
  unfold _add_spark_submit_arg.
  destruct (spark_submit_switch opt_name); [|done].
  intros H. inv_rbind H. by eapply add_argument_grows.
Qed.

Lemma add_spark_specific_opt_grows p item p' :
  add_spark_specific_opt RO p item = Ok p' → grows p p'.
Proof.
  destruct item as [opt_name switch]. unfold add_spark_specific_opt.
  destruct (_ && _).
  - intros [= ->]. apply grows_refl.
  - apply _add_spark_submit_arg_grows.
Qed.

Lemma make_arg_parser_stages parser :
  _make_arg_parser RO basic = Ok parser →
  ∃ p_basic p_alias p_flags p_runner,
    _add_runner_alias_arg p_basic = Ok p_alias ∧
    grows p_alias p_flags ∧
    _add_runner_args RO p_flags (dom RO ∖ dom _HARD_CODED_OPTS)
      = Ok p_runner ∧
    for_each _SPARK_SUBMIT_SWITCHES (add_spark_specific_opt RO) p_runner
      = Ok parser.
Proof.
  unfold _make_arg_parser. intros H. inv_rbind H.
  eexists _, _, _, _. split_and!; [done | | done | done].
  eapply grows_trans; by eapply add_argument_grows.
Qed.

Lemma spark_loop_grows p p' :
  for_each _SPARK_SUBMIT_SWITCHES (add_spark_specific_opt RO) p = Ok p' →
  grows p p'.
Proof. apply for_each_grows, add_spark_specific_opt_grows. Qed.

(** Both spellings of the runner switch reach the action that checks the
    alias against [_SPARK_RUNNERS]. *)
Lemma runner_switch_registered parser sw :
  _make_arg_parser RO basic = Ok parser →
  sw ∈ ["-r"; "--runner"] →
  ∃ a, find_action parser sw = Some a ∧ dest a = "runner" ∧
       action a = Store ∧ choices a = Some _SPARK_RUNNERS.
Proof.
  intros (p0 & p1 & p2 & p3 & Halias & H12 & Hrun & Hloop)
           %make_arg_parser_stages Hsw.
  destruct (add_argument_find _ _ _ _ sw Halias Hsw)
    as (a & Hfind & _ & Hd & Ha & Hc).
  exists a. split_and!.
  - eapply find_action_grows; [|done].
    eapply grows_trans; [done|].
    eapply grows_trans; [by eapply _add_runner_args_grows|].
    by apply spark_loop_grows.
  - vm_compute in Hd. by injection Hd.
  - vm_compute in Ha. by injection Ha.
  - vm_compute in Hc. by injection Hc.
Qed.

Lemma make_arg_parser_dashed parser :
  _make_arg_parser RO basic = Ok parser → Forall dashed parser.
Proof.
  unfold _make_arg_parser. intros H. inv_rbind H.
  eapply grows_dashed; [|apply Forall_nil_2].
  eapply grows_trans; [exact (add_argument_grows _ _ _ _ Hp)|].
  eapply grows_trans; [exact (add_argument_grows _ _ _ _ Hp0)|].
  eapply grows_trans; [exact (_add_basic_args_grows _ _ Hp1)|].
  eapply grows_trans; [exact (add_argument_grows _ _ _ _ Hp2)|].
  eapply grows_trans; [exact (add_argument_grows _ _ _ _ Hp3)|].
  eapply grows_trans; [exact (add_argument_grows _ _ _ _ Hp4)|].
  eapply grows_trans; [exact (_add_runner_args_grows _ _ _ Hp5)|].
  exact (spark_loop_grows _ _ H).
Qed.

Lemma spark_submit_switch_elem opt_name switch :
  (opt_name, switch) ∈ _SPARK_SUBMIT_SWITCHES →
  spark_submit_switch opt_name = Some switch.
Proof.
  unfold _SPARK_SUBMIT_SWITCHES. intros H.
  repeat (apply elem_of_cons in H as [[= -> ->] | H]; [reflexivity|]).
  by apply elem_of_nil in H.
Qed.

Lemma arg_kwargs_lookup opt_name k :
  default ∅ (_SPARK_SUBMIT_ARG_KWARGS !! opt_name) !! k
  = if decide (opt_name = "supervise" ∧ k = "action")
    then Some (VStr "store_true") else None.
Proof.
  unfold _SPARK_SUBMIT_ARG_KWARGS.
  destruct (decide (opt_name = "supervise")) as [->|Hne].
  - rewrite lookup_singleton_eq. simpl.
    destruct (decide (k = "action")) as [->|Hk].
    + rewrite lookup_singleton_eq. by rewrite decide_True.
    + rewrite lookup_singleton_ne by done. rewrite decide_False; naive_solver.
  - rewrite lookup_singleton_ne by done. simpl. rewrite lookup_empty.
    rewrite decide_False; naive_solver.
Qed.

Lemma spark_submit_arg_Ok p opt_name p' :
  _add_spark_submit_arg RO p opt_name = Ok p' →
  ∃ switch help_text a,
    spark_submit_switch opt_name = Some switch ∧
    find_action p' switch = Some a ∧
    let kwargs :=
      default ∅ (_SPARK_SUBMIT_ARG_KWARGS !! opt_name)
      ∪ <["help" := VStr help_text]> (patched_kwargs RO opt_name switch) in
    kw_dest [switch] kwargs = Ok (dest a) ∧
    kw_action kwargs = Ok (action a) ∧
    kw_choices kwargs = Ok (choices a).
Proof.
  unfold _add_spark_submit_arg.
  destruct (spark_submit_switch opt_name) as [switch|]; [|done].
  intros H. inv_rbind H.
  destruct (add_argument_find _ _ _ _ switch H) as (a & Hf & _ & Hd & Ha & Hc).
  { by apply list_elem_of_singleton. }
  exists switch, p0, a. split; [reflexivity|]. split; [exact Hf|].
  split; [exact Hd|]. split; [exact Ha | exact Hc].
Qed.

Lemma kw_dest_lookup strs (kwargs : gmap string value) d :
  kwargs !! "dest" = Some (VStr d) → kw_dest strs kwargs = Ok d.
Proof. unfold kw_dest. by intros ->. Qed.

Lemma kw_choices_lookup (kwargs : gmap string value) :
  kwargs !! "choices" = None → kw_choices kwargs = Ok None.
Proof. unfold kw_choices. by intros ->. Qed.

Lemma kw_action_lookup (kwargs : gmap string value) :
  kwargs !! "action" = None → kw_action kwargs = Ok Store.
Proof. unfold kw_action. by intros ->. Qed.

(** A known switch whose option is no runner option is registered by the
    loop of lines 353-356, under its own name, taking one value unless
    [_SPARK_SUBMIT_ARG_KWARGS] says otherwise. *)
Lemma spark_switch_registered parser opt_name switch :
  _make_arg_parser RO basic = Ok parser →
  (opt_name, switch) ∈ _SPARK_SUBMIT_SWITCHES →
  RO !! opt_name = None →
  ∃ a, find_action parser switch = Some a ∧ dest a = opt_name ∧
       action a = (if decide (opt_name = "supervise")
                   then StoreConst (VBool true) else Store) ∧
       choices a = None.
Proof.
  intros (p0 & p1 & p2 & p3 & _ & _ & _ & Hloop)%make_arg_parser_stages
         Hin Hno.
  refine (for_each_elem _ add_spark_specific_opt_grows
            (λ q, ∃ a, find_action q switch = Some a ∧ dest a = opt_name ∧
               action a = (if decide (opt_name = "supervise")
                           then StoreConst (VBool true) else Store) ∧
               choices a = None)
            (opt_name, switch) _ _ _ _ _ Hin Hloop).
  - intros q q' Hpre (a & Hf & ?). exists a. split; [|done].
    by eapply find_action_grows.
  - intros q q'. unfold add_spark_specific_opt.
    rewrite (bool_decide_eq_false_2 (is_Some (RO !! opt_name)))
      by (rewrite Hno; by intros [? ?]).
    simpl. intros (sw & h & a & Hsw & Hf & Hd & Ha & Hc)%spark_submit_arg_Ok.
    rewrite (spark_submit_switch_elem _ _ Hin) in Hsw. injection Hsw as <-.
    unfold patched_kwargs in *. rewrite Hno in *.
    exists a. split; [done|].
    set (kwargs := default ∅ (_SPARK_SUBMIT_ARG_KWARGS !! opt_name)
                   ∪ <["help" := VStr h]>
                       ({[ "dest" := VStr opt_name ]} : gmap string value))
      in *.
    assert (kwargs !! "dest" = Some (VStr opt_name)) as Kd.
    { unfold kwargs. rewrite lookup_union, arg_kwargs_lookup.
      rewrite decide_False by (by intros [_ [=]]).
      rewrite lookup_insert_ne by done. by rewrite lookup_singleton_eq. }
    assert (kwargs !! "choices" = None) as Kc.
    { unfold kwargs. rewrite lookup_union, arg_kwargs_lookup.
      rewrite decide_False by (by intros [_ [=]]).
      rewrite lookup_insert_ne by done. by rewrite lookup_singleton_ne. }
    assert (kwargs !! "action"
            = if decide (opt_name = "supervise")
              then Some (VStr "store_true") else None) as Ka.
    { unfold kwargs. rewrite lookup_union, arg_kwargs_lookup.
      rewrite lookup_insert_ne by done. rewrite lookup_singleton_ne by done.
      destruct (decide (opt_name = "supervise")).
      - by rewrite decide_True.
      - rewrite decide_False; [done|]. by intros [? _]. }
    split_and!.
    + rewrite (kw_dest_lookup _ _ opt_name Kd) in Hd. by injection Hd.
    + unfold kw_action in Ha. rewrite Ka in Ha.
      destruct (decide (opt_name = "supervise")); by injection Ha.
    + rewrite (kw_choices_lookup _ Kc) in Hc. by injection Hc.
Qed.
End parser_construction.

(** * Raw records and the forwarded list *)


Section forwarding.
Context (RO : gmap string (list (list string * gmap string value))).

Lemma spark_args_fold
    (raw_args : list (string * string * list string)) acc :
  fold_left
    (fun spark_args raw =>
       let '(dest, option_string, args) := raw in
       if bool_decide (dest ∈ _SPARK_ARG_OPT_NAMES RO)
       then (spark_args ++ [option_string]) ++ args
       else spark_args)
    raw_args acc
  = acc ++ (filter (λ raw, raw.1.1 ∈ _SPARK_ARG_OPT_NAMES RO) raw_args
            ≫= λ raw, raw.1.2 :: raw.2).
Proof.
  revert acc. induction raw_args as [|[[d sw] args] raws IH]; intros acc.
  - by rewrite app_nil_r.
  - cbn [fold_left]. rewrite IH, filter_cons. cbn [fst snd].
    case_bool_decide as Hd.
    + rewrite decide_True by done. cbn. by rewrite <- !app_assoc.
    + by rewrite decide_False by done.
Qed.
End forwarding.

Section forwarded_parts.
Context (RO : gmap string (list (list string * gmap string value))).
Context (parser : list Action).

Lemma spark_args_unfold cl_args :
  _get_spark_args RO parser cl_args
  = (filter (λ raw, raw.1.1 ∈ _SPARK_ARG_OPT_NAMES RO)
       (_parse_raw_args parser cl_args)
     ≫= λ raw, raw.1.2 :: raw.2).
Proof. unfold _get_spark_args. by rewrite spark_args_fold. Qed.


(** A switch with the values it takes is one raw record. *)
Lemma spark_args_cons_switch s a args rest :
  find_action parser s = Some a →
  length args = (if takes_value a then 1 else 0)%nat →
  _get_spark_args RO parser (s :: args ++ rest)
  = (if bool_decide (dest a ∈ _SPARK_ARG_OPT_NAMES RO) then s :: args else [])
    ++ _get_spark_args RO parser rest.
Proof.
  intros Hf Hlen. rewrite !spark_args_unfold. cbn [_parse_raw_args].
  rewrite Hf. destruct (takes_value a).
  - destruct args as [|v [|? ?]]; try discriminate Hlen. cbn [app].
    rewrite filter_cons. cbn [fst snd]. case_bool_decide.
    + by rewrite decide_True.
    + by rewrite decide_False.
  - destruct args as [|? ?]; [|discriminate Hlen]. cbn [app].
    rewrite filter_cons. cbn [fst snd]. case_bool_decide.
    + by rewrite decide_True.
    + by rewrite decide_False.
Qed.

(** A token that is no switch leaves no record. *)
Lemma spark_args_cons_word t rest :
  find_action parser t = None →
  _get_spark_args RO parser (t :: rest) = _get_spark_args RO parser rest.
Proof.
  intros Hf. rewrite !spark_args_unfold. cbn [_parse_raw_args]. by rewrite Hf.
Qed.

End forwarded_parts.


(** * The sample instances *)

Lemma sample_parser_built :
  _make_arg_parser sample_RUNNER_OPTS sample_basic_args = Ok sample_parser.
Proof. vm_compute. reflexivity. Qed.

Lemma files_parser_built :
  _make_arg_parser files_RUNNER_OPTS sample_basic_args = Ok files_parser.
Proof. vm_compute. reflexivity. Qed.


Lemma sample_help_parser_built :
  _make_basic_help_parser sample_RUNNER_OPTS sample_basic_args (VBool false)
  = Ok sample_help_parser.
Proof. vm_compute. reflexivity. Qed.

Lemma switches_only_parsed :
  parse_args sample_parser switches_only = inr switches_only_options.
Proof.
  vm_cast_no_check (eq_refl (@inr parse_error _ switches_only_options)).
Qed.

Lemma master_then_local_consumed :
  consume sample_parser master_then_local (initial_state sample_parser)
  = (state_at_local, Some (invalid_choice "-r" "local")).
Proof.
  vm_cast_no_check
    (eq_refl (state_at_local, Some (invalid_choice "-r" "local"))).
Qed.

Lemma submit_script_log :
  (main sample_RUNNER_OPTS sample_basic_args sample_runner_class "/dev/null"
     submit_script).1
  = [ set_up_logging (VBool false) (VBool false);
      runner_init sample_hadoop submit_script_kwargs;
      runner_run sample_hadoop ].
Proof.
  vm_cast_no_check
    (eq_refl [ set_up_logging (VBool false) (VBool false);
               runner_init sample_hadoop submit_script_kwargs;
               runner_run sample_hadoop ]).
Qed.

(** C1 as stated fails when [jobconf] is a runner option, which is what
    [_SWITCH_ALIASES] ([--conf] for [--jobconf]) provides for: the [--conf]
    occurrences are not forwarded. *)
Lemma conf_not_forwarded_when_runner_opt :
  ∃ parser,
    _make_arg_parser sample_RUNNER_OPTS sample_basic_args = Ok parser ∧
    _get_spark_args sample_RUNNER_OPTS parser (files_conf_tokens ++ ["job.py"])
    = ["--files"; "a"; "--files"; "b"] ∧
    _get_spark_args sample_RUNNER_OPTS parser (files_conf_tokens ++ ["job.py"])
    ≠ files_conf_tokens.
Proof.
  exists sample_parser. split; [exact sample_parser_built|].
  split; [vm_compute; reflexivity|]. vm_compute. discriminate.
Qed.

(** * The runner alias *)

(** C7 as stated fails: when a runner option precedes the alias on the
    command line, the one parse pass has stored its value by the time it
    rejects the alias. *)
Lemma runner_option_parsed_before_alias_rejected :
  ∃ parser st,
    _make_arg_parser sample_RUNNER_OPTS sample_basic_args = Ok parser ∧
    consume parser ["--spark-master"; "yarn"; "-r"; "local"; "job.py"]
      (initial_state parser)
    = (st, Some (invalid_choice "-r" "local")) ∧
    init_namespace parser !! "spark_master" = Some VNone ∧
    namespace st !! "spark_master" = Some (VStr "yarn").
Proof.
  exists sample_parser, state_at_local.
  split; [exact sample_parser_built|].
  split; [exact master_then_local_consumed|].
  split; vm_compute; reflexivity.
Qed.

Section runner_alias.
Context (RO : gmap string (list (list string * gmap string value))).
Context (basic : list (list string * gmap string value)).
Context (_runner_class : value → result RunnerClass).
Context (os_devnull : string).

Lemma consume_ineligible_alias parser sw runner_alias rest st :
  _make_arg_parser RO basic = Ok parser →
  sw ∈ ["-r"; "--runner"] →
  runner_alias ∉ _SPARK_RUNNERS →
  startswith runner_alias "-" = false →
  consume parser (sw :: runner_alias :: rest) st
  = (st, Some (invalid_choice sw runner_alias)).
Proof.
  intros Hp Hsw Hno Hdash.
  destruct (runner_switch_registered RO basic parser sw Hp Hsw)
    as (a & Hf & Hd & Ha & Hc).
  clear Hp.
  assert (looks_like_option sw = true) as Hl.
  { apply elem_of_cons in Hsw as [-> | Hsw]; [done|].
    apply list_elem_of_singleton in Hsw as ->. done. }
  cbn [consume]. rewrite Hl, Hf. unfold takes_value.
  rewrite Ha. unfold looks_like_option at 1. rewrite Hdash. cbn [andb].
  unfold check_choice. rewrite Hc.
  destruct (str_in runner_alias _SPARK_RUNNERS) eqn:E; [|reflexivity].
  apply str_in_true in E. contradiction.
Qed.

(** Wherever the alias stands on the command line, the pass ends in an
    error. *)
Lemma consume_fails_with_ineligible_alias parser sw runner_alias pre rest st :
  _make_arg_parser RO basic = Ok parser →
  sw ∈ ["-r"; "--runner"] →
  runner_alias ∉ _SPARK_RUNNERS →
  startswith runner_alias "-" = false →
  ∃ e, (consume parser (pre ++ sw :: runner_alias :: rest) st).2 = Some e.
Proof.
  intros Hp Hsw Hno Hdash.
  assert (∀ st, consume parser (sw :: runner_alias :: rest) st
                = (st, Some (invalid_choice sw runner_alias))) as Hstop.
  { intros st'. by eapply consume_ineligible_alias. }
  assert (looks_like_option sw = true) as Hl.
  { apply elem_of_cons in Hsw as [-> | Hsw]; [reflexivity|].
    apply list_elem_of_singleton in Hsw as ->. reflexivity. }
  clear Hp Hsw Hno Hdash.
  remember (length pre) as n eqn:Hn.
  revert pre st Hn. induction (lt_wf n) as [n _ IH]. intros pre st ->.
  destruct pre as [|t pre'].
  { rewrite app_nil_l, Hstop. by eexists. }
  cbn [app consume].
  destruct (looks_like_option t).
  - destruct (find_action parser t) as [a|].
    + destruct (takes_value a).
      * destruct pre' as [|v pre''].
        -- rewrite app_nil_l, Hl. by eexists.
        -- cbn [app]. destruct (looks_like_option v); [by eexists|].
           destruct (check_choice a v); [|by eexists].
           eapply IH; [|reflexivity]. simpl. lia.
      * eapply IH; [|reflexivity]. simpl. lia.
    + eapply IH; [|reflexivity]. simpl. lia.
  - eapply IH; [|reflexivity]. simpl. lia.
Qed.
End runner_alias.

(** C7, as amended: take an alias that is not in [_SPARK_RUNNERS] and does
    not start with a dash, given to [-r] or [--runner].  When no later
    token starts with a dash, the one parse pass stops at that switch with
    the usage error for an invalid choice, in whatever state the tokens
    before it left, so with the runner options written before it already
    parsed; and when the switch comes first, [main] writes exactly that
    usage error and exits with status 2.  Wherever the switch stands after
    tokens that do not include [--], [main] writes a usage error and exits
    with status 2, and does nothing else: no runner class is looked up and
    no option is handed to a runner. *)
Theorem ineligible_alias_is_usage_error
    (RO : gmap string (list (list string * gmap string value)))
    (basic : list (list string * gmap string value))
    (_runner_class : value → result RunnerClass) (os_devnull : string)
    (parser : list Action) (sw runner_alias : string)
    (pre rest : list string) :
  _make_arg_parser RO basic = Ok parser →
  sw ∈ ["-r"; "--runner"] →
  runner_alias ∉ _SPARK_RUNNERS →
  startswith runner_alias "-" = false →
  (Forall (λ t, startswith t "-" = false) rest →
   (∀ st, consume parser (sw :: runner_alias :: rest) st
          = (st, Some (invalid_choice sw runner_alias))) ∧
   main RO basic _runner_class os_devnull (sw :: runner_alias :: rest)
   = ([stderr_usage (invalid_choice sw runner_alias)],
      Raise (SystemExit 2))) ∧
  ("--" ∉ pre →
   ∃ e, main RO basic _runner_class os_devnull
          (pre ++ sw :: runner_alias :: rest)
        = ([stderr_usage e], Raise (SystemExit 2))).
Proof.
  intros Hp Hsw Hno Hdash. split; [intros _; split|intros _].
  - intros st. by eapply consume_ineligible_alias.
  - unfold main. rewrite Hp. cbn [lift pbind].
    unfold run_parse_args, parse_args.
    rewrite (consume_ineligible_alias RO basic parser sw runner_alias rest _
               Hp Hsw Hno Hdash).
    reflexivity.
  - destruct (consume_fails_with_ineligible_alias RO basic parser sw
                runner_alias pre rest (initial_state parser) Hp Hsw Hno Hdash)
      as [e He].
    exists e. unfold main. rewrite Hp. clear Hp. cbn [lift pbind].
    unfold run_parse_args, parse_args.
    destruct (consume parser _ _) as [st' o]. simpl in He. subst o.
    reflexivity.
Qed.

Lemma ineligible_alias_is_usage_error_witness :
  main sample_RUNNER_OPTS sample_basic_args sample_runner_class "/dev/null"
    ["-r"; "local"; "job.py"]
  = ([stderr_usage (invalid_choice "-r" "local")], Raise (SystemExit 2)).
Proof.
  refine (proj2 (proj1 (ineligible_alias_is_usage_error sample_RUNNER_OPTS
                          sample_basic_args sample_runner_class "/dev/null"
                          sample_parser "-r" "local" [] ["job.py"] _ _ _ _)
                   _)).
  - exact sample_parser_built.
  - apply list_elem_of_here.
  - compute_done.
  - reflexivity.
  - by repeat constructor.
Defined.

(** * The event log of [main] *)

Lemma elem_of_pbind_log {A B} (m : prog A) (f : A → prog B) ev :
  ev ∈ (pbind m f).1 → ev ∈ m.1 ∨ ∃ a, m.2 = Ok a ∧ ev ∈ (f a).1.
Proof.
  destruct m as [log [a|e]]; simpl.
  - destruct (f a) as [log' r] eqn:E. simpl.
    intros [H|H]%elem_of_app; [by left|]. right. exists a. by rewrite E.
  - by left.
Qed.

Lemma lift_log {A} (r : result A) ev : ev ∈ (lift r).1 → False.
Proof. by intros ?%elem_of_nil. Qed.

Lemma emit_log e ev : ev ∈ (emit e).1 → ev = e.
Proof. by intros ?%list_elem_of_singleton. Qed.

Ltac log_step H :=
  let a := fresh "x" in
  let Ha := fresh "Hx" in
  apply elem_of_pbind_log in H as [H | (a & Ha & H)];
  [ first [ apply lift_log in H; destruct H
          | apply emit_log in H; discriminate H
          | idtac ]
  | clear Ha ].

Section dispatch.
Context (RO : gmap string (list (list string * gmap string value))).
Context (basic : list (list string * gmap string value)).
Context (_runner_class : value → result RunnerClass).
Context (os_devnull : string).

Lemma run_parse_args_log parser cl_args ev :
  ev ∈ (run_parse_args parser cl_args).1 → ∃ e, ev = stderr_usage e.
Proof.
  unfold run_parse_args. destruct (parse_args parser cl_args) as [e|o].
  - intros H. log_step H.
    + apply emit_log in H. exists e. exact H.
    + apply elem_of_nil in H. destruct H.
  - intros H. apply lift_log in H. destruct H.
Qed.

Lemma print_help_log options runner_class ev :
  ev ∈ (_print_help RO basic options runner_class).1 →
  (∃ p, ev = print_help p) ∨ (∃ line, ev = print line).
Proof.
  unfold _print_help. intros H. log_step H.
  log_step H.
  { destruct (truthy x); apply lift_log in H; destruct H. }
  log_step H. destruct x0.
  - unfold _print_help_for_runner in H. log_step H.
    apply emit_log in H. left. eexists. exact H.
  - unfold _print_basic_help in H. log_step H. log_step H.
    { apply emit_log in H. left. eexists. exact H. }
    destruct (truthy x1); [apply lift_log in H; destruct H|].
    log_step H.
    + apply emit_log in H. right. eexists. exact H.
    + apply emit_log in H. right. eexists. exact H.
Qed.

Lemma main_runner_init cl_args runner_class kwargs :
  runner_init runner_class kwargs
    ∈ (main RO basic _runner_class os_devnull cl_args).1 →
  ∃ options step,
    kwargs
    = <["steps" := KwSteps [step]]>
        (<["input_paths" := KwValue (VList [os_devnull])]>
           (KwValue <$> (_HARD_CODED_OPTS
                         ∪ _get_runner_opt_kwargs options runner_class))).
Proof.
  unfold main. intros H. log_step H. log_step H.
  { apply run_parse_args_log in H as [e H]. discriminate H. }
  log_step H. log_step H. log_step H. destruct x3.
  - log_step H.
    + apply print_help_log in H as [[? H] | [? H]]; discriminate H.
    + apply elem_of_nil in H. destruct H.
  - log_step H. log_step H. log_step H. log_step H. log_step H.
    + apply emit_log in H. injection H as -> ->. eexists _, _. reflexivity.
    + apply emit_log in H. discriminate H.
Qed.
End dispatch.

(** C9: whenever [main] constructs a runner, the keyword arguments it
    passes hold [check_input_paths = False], [output_dir = None] and
    [input_paths = [os.devnull]], whatever the command line and whatever
    the namespace held under those names. *)
Theorem runner_kwargs_carry_fixed_overrides
    (RO : gmap string (list (list string * gmap string value)))
    (basic : list (list string * gmap string value))
    (_runner_class : value → result RunnerClass) (os_devnull : string)
    (cl_args : list string) (runner_class : RunnerClass)
    (kwargs : gmap string kwarg) :
  runner_init runner_class kwargs
    ∈ (main RO basic _runner_class os_devnull cl_args).1 →
  kwargs !! "check_input_paths" = Some (KwValue (VBool false)) ∧
  kwargs !! "output_dir" = Some (KwValue VNone) ∧
  kwargs !! "input_paths" = Some (KwValue (VList [os_devnull])).
Proof.
  intros (options & step & ->)%main_runner_init. split_and!.
  - rewrite !lookup_insert_ne by done. rewrite lookup_fmap.
    by erewrite lookup_union_Some_l.
  - rewrite !lookup_insert_ne by done. rewrite lookup_fmap.
    by erewrite lookup_union_Some_l.
  - rewrite lookup_insert_ne by done. by rewrite lookup_insert_eq.
Qed.

(** * Aliased switches *)

Section inner_loop.
Context (opt_name : string).


Lemma runner_switches_loop_grows switches p p' :
  for_each switches (add_runner_switch opt_name) p = Ok p' → grows p p'.
Proof.
  apply for_each_grows. intros q sw q'. apply add_argument_grows.
Qed.

(** Once a switch is registered no later entry can carry it. *)
Lemma registered_switch_not_repeated switches p p' s :
  for_each switches (add_runner_switch opt_name) p = Ok p' →
  is_Some (find_action p s) →
  filter (λ sw, s ∈ sw.1) switches = [].
Proof.
  revert p. induction switches as [|sw rest IH]; intros p H [a Ha]; [done|].
  simpl in H. apply rbind_Ok in H as (p1 & H1 & H).
  rewrite filter_cons. destruct (decide (s ∈ sw.1)) as [Hin|Hout].
  - apply add_argument_Ok in H1 as (_ & _ & _ & _ & _ & _ & _ & Hfree & _).
    rewrite Forall_forall in Hfree. rewrite (Hfree s Hin) in Ha. done.
  - apply (IH p1 H). exists a.
    eapply find_action_grows; [by eapply add_argument_grows | done].
Qed.

(** So the entry that carries a switch is the only one that does. *)
Lemma registered_switch_unique switches p p' s entry :
  for_each switches (add_runner_switch opt_name) p = Ok p' →
  entry ∈ switches → s ∈ entry.1 →
  filter (λ sw, s ∈ sw.1) switches = [entry].
Proof.
  revert p. induction switches as [|sw rest IH]; intros p H Hin Hs.
  { by apply elem_of_nil in Hin. }
  simpl in H. apply rbind_Ok in H as (p1 & H1 & H).
  rewrite filter_cons. destruct (decide (s ∈ sw.1)) as [Hsw|Hsw].
  - destruct (add_argument_find _ _ _ _ s H1 Hsw) as (a & Ha & _).
    pose proof (registered_switch_not_repeated rest p1 p' s H
                  (ltac:(by exists a))) as Hrest.
    rewrite Hrest. apply elem_of_cons in Hin as [-> | Hin]; [done|].
    assert (entry ∈ filter (λ sw, s ∈ sw.1) rest) as Hc.
    { by apply list_elem_of_filter. }
    rewrite Hrest in Hc. by apply elem_of_nil in Hc.
  - apply elem_of_cons in Hin as [-> | Hin]; [done|]. by eapply IH.
Qed.

Lemma runner_switches_loop_find switches p p' s entry :
  for_each switches (add_runner_switch opt_name) p = Ok p' →
  entry ∈ switches → s ∈ entry.1 →
  ∃ a, find_action p' s = Some a ∧
       kw_dest entry.1 (<["dest" := VStr opt_name]> entry.2) = Ok (dest a) ∧
       kw_action (<["dest" := VStr opt_name]> entry.2) = Ok (action a) ∧
       kw_choices (<["dest" := VStr opt_name]> entry.2) = Ok (choices a).
Proof.
  intros H Hin Hs.
  refine (for_each_elem (add_runner_switch opt_name) _
            (λ q, ∃ a, find_action q s = Some a ∧
               kw_dest entry.1 (<["dest" := VStr opt_name]> entry.2) = Ok (dest a) ∧
               kw_action (<["dest" := VStr opt_name]> entry.2) = Ok (action a) ∧
               kw_choices (<["dest" := VStr opt_name]> entry.2) = Ok (choices a))
            entry _ _ _ _ _ Hin H).
  - intros q sw q'. apply add_argument_grows.
  - intros q q' Hg (a & Ha & ?). exists a. split; [|done].
    by eapply find_action_grows.
  - intros q q' Hadd.
    destruct (add_argument_find _ _ _ _ s Hadd Hs) as (a & ? & ? & ? & ? & ?).
    by exists a.
Qed.
End inner_loop.

Section aliases.
Context (RO : gmap string (list (list string * gmap string value))).
Context (basic : list (list string * gmap string value)).

(** The four aliased switches, and what is true of each. *)
Lemma alias_pair_facts opt_name sw native :
  (opt_name, sw) ∈ _SPARK_SUBMIT_SWITCHES →
  _SWITCH_ALIASES !! sw = Some native →
  opt_name ≠ "supervise" ∧
  (opt_name ∉ dom _HARD_CODED_OPTS) ∧
  looks_like_option sw = true ∧
  looks_like_option native = true ∧
  sw ≠ native.
Proof.
  unfold _SPARK_SUBMIT_SWITCHES. intros H Ha.
  repeat (apply elem_of_cons in H as [[= -> ->] | H];
          [vm_compute in Ha; try discriminate Ha;
           injection Ha as <-; split_and!; (done || compute_done)|]).
  by apply elem_of_nil in H.
Qed.

Lemma runner_switch_of_table_registered parser opt_name switches entry s :
  _make_arg_parser RO basic = Ok parser →
  RO !! opt_name = Some switches →
  opt_name ∉ dom _HARD_CODED_OPTS →
  entry ∈ switches → s ∈ entry.1 →
  ∃ a, find_action parser s = Some a ∧
       kw_dest entry.1 (<["dest" := VStr opt_name]> entry.2) = Ok (dest a) ∧
       kw_action (<["dest" := VStr opt_name]> entry.2) = Ok (action a) ∧
       kw_choices (<["dest" := VStr opt_name]> entry.2) = Ok (choices a) ∧
       filter (λ sw, s ∈ sw.1) switches = [entry].
Proof.
  intros (p0 & p1 & p2 & p3 & _ & _ & Hrun & Hloop)%make_arg_parser_stages
         Hro Hhard Hin Hs.
  pose (Q := λ q : list Action,
          ∃ a, find_action q s = Some a ∧
            kw_dest entry.1 (<["dest" := VStr opt_name]> entry.2)
              = Ok (dest a) ∧
            kw_action (<["dest" := VStr opt_name]> entry.2)
              = Ok (action a) ∧
            kw_choices (<["dest" := VStr opt_name]> entry.2)
              = Ok (choices a) ∧
            filter (λ sw, s ∈ sw.1) switches = [entry]).
  assert (∀ q q', grows q q' → Q q → Q q') as Qmono.
  { intros q q' Hg (a & Ha & ?). exists a. split; [|done].
    by eapply find_action_grows. }
  apply (Qmono p3); [exact (spark_loop_grows RO _ _ Hloop)|].
  unfold _add_runner_args in Hrun.
  refine (for_each_elem _ _ Q opt_name _ _ _ Qmono _ _ Hrun).
  - intros q o q' H. apply rbind_Ok in H as (sws & _ & H).
    exact (runner_switches_loop_grows o _ _ _ H).
  - intros q q' H. apply rbind_Ok in H as (sws & Hget & H).
    unfold getitem in Hget. rewrite Hro in Hget. injection Hget as <-.
    destruct (runner_switches_loop_find opt_name _ _ _ s entry H Hin Hs)
      as (a & ? & ? & ? & ?).
    exists a. split_and!; try done.
    exact (registered_switch_unique opt_name _ _ _ s entry H Hin Hs).
  - apply elem_of_elements, elem_of_difference. split; [|done].
    apply elem_of_dom. by rewrite Hro.
Qed.

Lemma patched_kwargs_unique opt_name sw native switches entry :
  _SWITCH_ALIASES !! sw = Some native →
  RO !! opt_name = Some switches →
  filter (λ e, native ∈ e.1) switches = [entry] →
  patched_kwargs RO opt_name sw = entry.2 ∪ {[ "dest" := VStr opt_name ]}.
Proof.
  intros Ha Hro Hf. unfold patched_kwargs. rewrite Hro, Ha. simpl.
  assert (∀ (l : list (list string * gmap string value)) K,
            fold_left
              (λ kwargs e, if str_in native e.1 then e.2 ∪ kwargs else kwargs)
              l K
            = fold_left (λ kwargs e, e.2 ∪ kwargs)
                (filter (λ e, native ∈ e.1) l) K) as E.
  { induction l as [|e l IH]; intros K; [done|].
    rewrite filter_cons. simpl. destruct (str_in native e.1) eqn:Hin.
    - apply str_in_true in Hin. rewrite decide_True by done. apply IH.
    - rewrite decide_False; [apply IH|]. intros ?%str_in_true. congruence. }
  by rewrite E, Hf.
Qed.

Lemma alias_switch_registered parser opt_name sw native :
  _make_arg_parser RO basic = Ok parser →
  (opt_name, sw) ∈ _SPARK_SUBMIT_SWITCHES →
  _SWITCH_ALIASES !! sw = Some native →
  ∃ a help_text,
    find_action parser sw = Some a ∧
    let kwargs := <["help" := VStr help_text]> (patched_kwargs RO opt_name sw)
    in
    kw_dest [sw] kwargs = Ok (dest a) ∧
    kw_action kwargs = Ok (action a) ∧
    kw_choices kwargs = Ok (choices a).
Proof.
  intros (p0 & p1 & p2 & p3 & _ & _ & _ & Hloop)%make_arg_parser_stages
         Hin Ha.
  destruct (alias_pair_facts _ _ _ Hin Ha) as (Hsup & _).
  refine (for_each_elem _ (add_spark_specific_opt_grows RO)
            (λ q, ∃ a help_text, find_action q sw = Some a ∧
               let kwargs :=
                 <["help" := VStr help_text]> (patched_kwargs RO opt_name sw)
               in
               kw_dest [sw] kwargs = Ok (dest a) ∧
               kw_action kwargs = Ok (action a) ∧
               kw_choices kwargs = Ok (choices a))
            (opt_name, sw) _ _ _ _ _ Hin Hloop).
  - intros q q' Hg (a & h & Hf & ?). exists a, h. split; [|done].
    by eapply find_action_grows.
  - intros q q'. unfold add_spark_specific_opt.
    rewrite (bool_decide_eq_false_2 (_SWITCH_ALIASES !! sw = None))
      by (by rewrite Ha).
    rewrite andb_false_r.
    intros (sw' & h & a & Hsw & Hf & Hd & Hact & Hc)%spark_submit_arg_Ok.
    rewrite (spark_submit_switch_elem _ _ Hin) in Hsw. injection Hsw as <-.
    assert (default ∅ (_SPARK_SUBMIT_ARG_KWARGS !! opt_name)
            = (∅ : gmap string value)) as E.
    { apply map_eq. intros k. rewrite arg_kwargs_lookup, lookup_empty.
      rewrite decide_False; naive_solver. }
    rewrite E, (left_id_L ∅ (∪)) in Hd, Hact, Hc.
    by exists a, h.
Qed.
End aliases.

Section respelling.
Context (parser : list Action) (sw native : string) (a_sw a_native : Action).
Hypothesis find_sw : find_action parser sw = Some a_sw.
Hypothesis find_native : find_action parser native = Some a_native.
Hypothesis same_dest : dest a_sw = dest a_native.
Hypothesis same_action : action a_sw = action a_native.
Hypothesis same_choices : choices a_sw = choices a_native.
Hypothesis sw_option : looks_like_option sw = true.
Hypothesis native_option : looks_like_option native = true.


Lemma spell_looks_like_option t :
  looks_like_option (spell sw native t) = looks_like_option t.
Proof.
  unfold spell. destruct (String.eqb_spec t sw) as [->|]; [|done].
  by rewrite sw_option, native_option.
Qed.

Lemma spell_undashed v : looks_like_option v = false → spell sw native v = v.
Proof.
  unfold spell. destruct (String.eqb_spec v sw) as [->|]; [|done].
  by rewrite sw_option.
Qed.

(** The action a token reaches, up to the spelling of its switch. *)
Lemma spell_find_action t :
  match find_action parser (spell sw native t), find_action parser t with
  | Some a, Some b =>
      dest a = dest b ∧ action a = action b ∧ choices a = choices b
  | None, None => True
  | _, _ => False
  end.
Proof.
  unfold spell. destruct (String.eqb_spec t sw) as [->|].
  - by rewrite find_sw, find_native.
  - by destruct (find_action parser t).
Qed.

Lemma consume_respell cl_args st :
  (consume parser (respell sw native cl_args) st).1
  = (consume parser cl_args st).1 ∧
  ((consume parser (respell sw native cl_args) st).2 = None ↔
   (consume parser cl_args st).2 = None).
Proof.
  remember (length cl_args) as n eqn:Hn.
  revert cl_args st Hn. induction (lt_wf n) as [n _ IH].
  intros cl_args st ->.
  destruct cl_args as [|t rest]; [done|].
  change (respell sw native (t :: rest))
    with (spell sw native t :: respell sw native rest).
  cbn [consume]. rewrite spell_looks_like_option.
  destruct (looks_like_option t) eqn:Ht.
  - pose proof (spell_find_action t) as Hfa.
    destruct (find_action parser (spell sw native t)) as [a|],
             (find_action parser t) as [b|] eqn:Eb; try done.
    + destruct Hfa as (Hd & Ha & Hc).
      unfold takes_value, action_value, check_choice.
      rewrite Hd, Ha, Hc.
      destruct (action b) eqn:Hb.
      * destruct rest as [|v rest']; [done|].
        change (respell sw native (v :: rest'))
          with (spell sw native v :: respell sw native rest').
        cbv beta iota. rewrite spell_looks_like_option.
        destruct (looks_like_option v) eqn:Hv; [done|].
        rewrite (spell_undashed v Hv).
        destruct (match choices b with
                  | Some l => str_in v l
                  | None => true
                  end); [|done].
        eapply IH; [|done]. simpl. lia.
      * destruct rest as [|v rest']; [done|].
        change (respell sw native (v :: rest'))
          with (spell sw native v :: respell sw native rest').
        cbv beta iota. rewrite spell_looks_like_option.
        destruct (looks_like_option v) eqn:Hv; [done|].
        rewrite (spell_undashed v Hv).
        destruct (match choices b with
                  | Some l => str_in v l
                  | None => true
                  end); [|done].
        eapply IH; [|done]. simpl. lia.
      * eapply IH; [|done]. simpl. lia.
    + assert (spell sw native t = t) as ->.
      { unfold spell. destruct (String.eqb_spec t sw) as [->|]; [|done].
        rewrite find_sw in Eb. discriminate Eb. }
      eapply IH; [|done]. simpl. lia.
  - rewrite (spell_undashed t Ht). eapply IH; [|done]. simpl. lia.
Qed.

Lemma parse_args_respell cl_args :
  typed_values (parse_args parser (respell sw native cl_args))
  = typed_values (parse_args parser cl_args).
Proof.
  unfold parse_args.
  destruct (consume_respell cl_args
              {| namespace := init_namespace parser;
                 positionals := []; extras := [] |}) as [Hst Herr].
  destruct (consume parser (respell sw native cl_args) _) as [st1 e1],
           (consume parser cl_args _) as [st2 e2].
  simpl in Hst, Herr. subst st2.
  destruct e1 as [e1|], e2 as [e2|]; try done.
  - destruct Herr as [_ Herr]. specialize (Herr eq_refl). discriminate Herr.
  - destruct Herr as [Herr _]. specialize (Herr eq_refl). discriminate Herr.
Qed.
End respelling.

(** C8 as stated fails: both spellings of an aliased switch are registered
    in the one parser. *)
Lemma both_alias_spellings_live :
  ∃ parser,
    _make_arg_parser sample_RUNNER_OPTS sample_basic_args = Ok parser ∧
    _SWITCH_ALIASES !! "--master" = Some "--spark-master" ∧
    registered parser "--master" = true ∧
    registered parser "--spark-master" = true.
Proof.
  exists sample_parser. split; [exact sample_parser_built|].
  split; [compute_done|]. split; vm_compute; reflexivity.
Qed.

(** C8, as amended: for an aliased option that is a runner option with a
    switch entry in [_RUNNER_OPTS] that carries the native spelling and
    sets no [dest] of its own, the parser holds both spellings as live
    switches, with the same destination, action and choices, and a command
    line without [--] parses to the same typed values whichever spelling it
    uses. *)
Theorem alias_spellings_parse_alike
    (RO : gmap string (list (list string * gmap string value)))
    (basic : list (list string * gmap string value))
    (parser : list Action) (opt_name sw native : string)
    (switches : list (list string * gmap string value))
    (entry : list string * gmap string value) :
  _make_arg_parser RO basic = Ok parser →
  (opt_name, sw) ∈ _SPARK_SUBMIT_SWITCHES →
  _SWITCH_ALIASES !! sw = Some native →
  RO !! opt_name = Some switches →
  entry ∈ switches → native ∈ entry.1 →
  entry.2 !! "dest" = None →
  (∃ a_sw a_native,
     find_action parser sw = Some a_sw ∧
     find_action parser native = Some a_native ∧
     dest a_sw = opt_name ∧ dest a_native = opt_name ∧
     action a_sw = action a_native ∧
     choices a_sw = choices a_native) ∧
  ∀ cl_args,
    "--" ∉ cl_args →
    typed_values (parse_args parser (respell sw native cl_args))
    = typed_values (parse_args parser cl_args).
Proof.
  intros Hp Hin Ha Hro Hentry Hnative Hnodest.
  destruct (alias_pair_facts _ _ _ Hin Ha) as (_ & Hhard & Hsw & Hnat & _).
  destruct (runner_switch_of_table_registered RO basic parser opt_name
              switches entry native Hp Hro Hhard Hentry Hnative)
    as (a_n & Hfn & Hdn & Han & Hcn & Huniq).
  destruct (alias_switch_registered RO basic parser opt_name sw native
              Hp Hin Ha) as (a_s & h & Hfs & Hds & Has & Hcs).
  clear Hp.
  rewrite (patched_kwargs_unique RO opt_name sw native switches entry
             Ha Hro Huniq) in Hds, Has, Hcs.
  assert (dest a_n = opt_name) as En.
  { rewrite (kw_dest_lookup _ _ opt_name) in Hdn.
    - by injection Hdn.
    - by rewrite lookup_insert_eq. }
  assert (dest a_s = opt_name) as Es.
  { rewrite (kw_dest_lookup _ _ opt_name) in Hds.
    - by injection Hds.
    - rewrite lookup_insert_ne by done. rewrite lookup_union, Hnodest.
      by rewrite lookup_singleton_eq. }
  assert (action a_s = action a_n) as Eact.
  { cut (Ok (action a_s) = Ok (action a_n)); [by intros [= ->]|].
    rewrite <- Has, <- Han. unfold kw_action, getitem.
    rewrite !(lookup_insert_ne _ "help") by done.
    rewrite !(lookup_insert_ne _ "dest") by done.
    rewrite !lookup_union, !(lookup_singleton_ne "dest") by done.
    by rewrite !(right_id_L None _). }
  assert (choices a_s = choices a_n) as Ech.
  { cut (Ok (choices a_s) = Ok (choices a_n)); [by intros [= ->]|].
    rewrite <- Hcs, <- Hcn. unfold kw_choices.
    rewrite !(lookup_insert_ne _ "help") by done.
    rewrite !(lookup_insert_ne _ "dest") by done.
    rewrite !lookup_union, !(lookup_singleton_ne "dest") by done.
    by rewrite !(right_id_L None _). }
  split.
  - exists a_s, a_n. by rewrite Es, En.
  - intros cl_args _.
    apply (parse_args_respell parser sw native a_s a_n); try done.
    by rewrite Es, En.
Qed.

Lemma alias_spellings_parse_alike_witness :
  typed_values
    (parse_args sample_parser
       (respell "--master" "--spark-master" ["--master"; "yarn"; "job.py"]))
  = typed_values (parse_args sample_parser ["--master"; "yarn"; "job.py"]).
Proof.
  refine (proj2 (alias_spellings_parse_alike sample_RUNNER_OPTS
                   sample_basic_args sample_parser "spark_master" "--master"
                   "--spark-master" [(["--spark-master"], ∅)]
                   (["--spark-master"], ∅) _ _ _ _ _ _ _) _ _).
  - exact sample_parser_built.
  - compute_done.
  - compute_done.
  - compute_done.
  - apply list_elem_of_here.
  - apply list_elem_of_here.
  - reflexivity.
  - compute_done.
Defined.

(** * The help fallback *)

Lemma pbind_lift_Ok {A B} (a : A) (f : A → prog B) :
  pbind (lift (Ok a)) f = f a.
Proof. unfold pbind, lift. by destruct (f a). Qed.

Lemma pbind_emit {B} e (f : unit → prog B) :
  pbind (emit e) f = (e :: (f tt).1, (f tt).2).
Proof. unfold pbind, emit. by destruct (f tt). Qed.

Section help_fallback.
Context (RO : gmap string (list (list string * gmap string value))).
Context (basic : list (list string * gmap string value)).
Context (_runner_class : value → result RunnerClass).
Context (os_devnull : string).

Lemma print_basic_help_eq d hp :
  _make_basic_help_parser RO basic d = Ok hp →
  _print_basic_help RO basic d = (basic_help_output hp d, Ok tt).
Proof.
  intros Hhp. unfold _print_basic_help, basic_help_output.
  rewrite Hhp, pbind_lift_Ok, pbind_emit.
  destruct (truthy d); [reflexivity|].
  rewrite pbind_emit. reflexivity.
Qed.

Lemma print_help_without_flag options runner_class h d hp :
  options !! "help" = Some h → truthy h = false →
  options !! "deprecated" = Some d →
  _make_basic_help_parser RO basic d = Ok hp →
  _print_help RO basic options runner_class
  = (basic_help_output hp d, Ok tt).
Proof.
  intros Hh Hfalse Hd Hhp. unfold _print_help, getattr.
  rewrite Hh, pbind_lift_Ok, Hfalse, pbind_lift_Ok, Hd, pbind_lift_Ok.
  by apply print_basic_help_eq.
Qed.
End help_fallback.

(** C6: when the command line parses, names no target and has no help
    flag, [main] prints the basic help and exits with status 0; nothing
    else is written and no runner is constructed or run. *)
Theorem missing_target_falls_back_to_help
    (RO : gmap string (list (list string * gmap string value)))
    (basic : list (list string * gmap string value))
    (_runner_class : value → result RunnerClass) (os_devnull : string)
    (cl_args : list string) (parser : list Action)
    (options : gmap string value) (h s r d : value)
    (runner_class : RunnerClass) (hp : list Action) :
  _make_arg_parser RO basic = Ok parser →
  parse_args parser cl_args = inr options →
  options !! "help" = Some h → truthy h = false →
  options !! "script_or_jar" = Some s → truthy s = false →
  options !! "runner" = Some r →
  _runner_class (py_or r (VStr _DEFAULT_RUNNER)) = Ok runner_class →
  options !! "deprecated" = Some d →
  _make_basic_help_parser RO basic d = Ok hp →
  main RO basic _runner_class os_devnull cl_args
  = (basic_help_output hp d, Raise (SystemExit 0)) ∧
  ∀ ev, ev ∈ basic_help_output hp d →
        ev = print_help hp ∨ ∃ line, ev = print line.
Proof.
  intros Hp Hparse Hh Hhf Hs Hsf Hr Hrc Hd Hhp. split.
  - unfold main. rewrite Hp, pbind_lift_Ok. clear Hp.
    unfold run_parse_args. rewrite Hparse, pbind_lift_Ok.
    unfold getattr at 1. rewrite Hr, pbind_lift_Ok, Hrc, pbind_lift_Ok.
    unfold getattr at 1 2. rewrite Hh. cbn [rbind]. rewrite Hhf, Hs.
    cbn [rbind]. rewrite Hsf. cbn [negb]. rewrite pbind_lift_Ok.
    rewrite (print_help_without_flag RO basic options runner_class h d hp
               Hh Hhf Hd Hhp).
    unfold pbind, sys_exit. by rewrite app_nil_r.
  - clear. intros ev. unfold basic_help_output.
    intros [-> | Hev]%elem_of_cons; [by left|]. right.
    destruct (truthy d); [by apply elem_of_nil in Hev|].
    apply elem_of_cons in Hev as [-> | Hev]; [by eexists|].
    apply list_elem_of_singleton in Hev as ->. by eexists.
Qed.

Lemma missing_target_falls_back_to_help_witness :
  main sample_RUNNER_OPTS sample_basic_args sample_runner_class "/dev/null"
    switches_only
  = (basic_help_output sample_help_parser (VBool false),
     Raise (SystemExit 0)).
Proof.
  refine (proj1 (missing_target_falls_back_to_help sample_RUNNER_OPTS
                   sample_basic_args sample_runner_class "/dev/null"
                   switches_only sample_parser switches_only_options
                   (VBool false) VNone VNone (VBool false) sample_hadoop
                   sample_help_parser _ _ _ _ _ _ _ _ _ _)).
  - exact sample_parser_built.
  - exact switches_only_parsed.
  - reflexivity.
  - reflexivity.
  - reflexivity.
  - reflexivity.
  - reflexivity.
  - reflexivity.
  - reflexivity.
  - exact sample_help_parser_built.
Defined.

Lemma runner_kwargs_carry_fixed_overrides_witness :
  runner_init sample_hadoop submit_script_kwargs
    ∈ (main sample_RUNNER_OPTS sample_basic_args sample_runner_class
         "/dev/null" submit_script).1 ∧
  submit_script_kwargs !! "check_input_paths" = Some (KwValue (VBool false)) ∧
  submit_script_kwargs !! "output_dir" = Some (KwValue VNone) ∧
  submit_script_kwargs !! "input_paths"
  = Some (KwValue (VList ["/dev/null"])).
Proof.
  assert (runner_init sample_hadoop submit_script_kwargs
            ∈ (main sample_RUNNER_OPTS sample_basic_args sample_runner_class
                 "/dev/null" submit_script).1) as Hinit.
  { rewrite submit_script_log.
    apply list_elem_of_further, list_elem_of_here. }
  split; [exact Hinit|].
  exact (runner_kwargs_carry_fixed_overrides sample_RUNNER_OPTS
           sample_basic_args sample_runner_class "/dev/null" submit_script
           sample_hadoop submit_script_kwargs Hinit).
Defined.

Lemma dotless_target_is_matched_whole_witness :
  _get_step no_RUNNER_OPTS
    (list_to_map [ ("args", VList []); ("main_class", VNone);
                   ("script_or_jar", VStr "PySparkJob") ]) [] []
  = Ok (SparkScriptStep (VList []) "PySparkJob" []).
Proof.
  refine (proj1 (dotless_target_is_matched_whole no_RUNNER_OPTS _ [] []
                   "PySparkJob" (VList []) VNone _ _ _ _) _).
  - reflexivity.
  - reflexivity.
  - reflexivity.
  - reflexivity.
  - by exists "sparkjob".
Defined.

(** * What [main] does, case by case *)

Section main_cases.
Context (RO : gmap string (list (list string * gmap string value))).
Context (basic : list (list string * gmap string value)).
Context (_runner_class : value → result RunnerClass).
Context (os_devnull : string).

Lemma print_help_for_runner_cases runner_class d :
  _print_help_for_runner RO runner_class d
  = match _add_runner_args RO [] (OPT_NAMES runner_class ∖ dom _HARD_CODED_OPTS)
    with
    | Ok hp => ([print_help hp], Ok tt)
    | Raise e => ([], Raise e)
    end.
Proof.
  unfold _print_help_for_runner.
  destruct (_add_runner_args RO [] _) as [hp|e]; reflexivity.
Qed.

Lemma print_basic_help_cases d :
  _print_basic_help RO basic d
  = match _make_basic_help_parser RO basic d with
    | Ok hp => (basic_help_output hp d, Ok tt)
    | Raise e => ([], Raise e)
    end.
Proof.
  destruct (_make_basic_help_parser RO basic d) as [hp|e] eqn:E.
  - by apply print_basic_help_eq.
  - unfold _print_basic_help. by rewrite E.
Qed.

(** The test of line 383 and the two branches it selects. *)
Lemma print_help_cases options runner_class :
  _print_help RO basic options runner_class
  = match getattr options "help" with
    | Raise e => ([], Raise e)
    | Ok h =>
        match (if truthy h
               then r <- getattr options "runner" ;; Ok (truthy r)
               else Ok false) with
        | Raise e => ([], Raise e)
        | Ok for_runner =>
            match getattr options "deprecated" with
            | Raise e => ([], Raise e)
            | Ok d =>
                if for_runner : bool
                then _print_help_for_runner RO runner_class d
                else _print_basic_help RO basic d
            end
        end
    end.
Proof.
  unfold _print_help.
  destruct (getattr options "help") as [h|e]; [|reflexivity].
  rewrite pbind_lift_Ok.
  destruct (truthy h).
  - destruct (getattr options "runner") as [r|e]; [|reflexivity].
    cbn [rbind]. rewrite pbind_lift_Ok.
    destruct (getattr options "deprecated") as [d|e]; [|reflexivity].
    by rewrite pbind_lift_Ok.
  - rewrite pbind_lift_Ok.
    destruct (getattr options "deprecated") as [d|e]; [|reflexivity].
    by rewrite pbind_lift_Ok.
Qed.

(** [_print_help] prints one help screen, with or without the note on
    deprecated options, or raises having printed nothing. *)
Lemma print_help_shape options runner_class :
  (∃ e, _print_help RO basic options runner_class = ([], Raise e)) ∨
  (∃ hp note,
     _print_help RO basic options runner_class = (print_help hp :: note, Ok tt) ∧
     (note = [] ∨ note = [print ""; print _DEPRECATED_OPT_HELP])).
Proof.
  rewrite print_help_cases.
  destruct (getattr options "help") as [h|e]; [|left; by eexists].
  destruct (if truthy h then _ else _) as [for_runner|e]; [|left; by eexists].
  destruct (getattr options "deprecated") as [d|e]; [|left; by eexists].
  destruct for_runner.
  - rewrite print_help_for_runner_cases.
    destruct (_add_runner_args RO [] _) as [hp|e]; [|left; by eexists].
    right. exists hp, []. split; [reflexivity | by left].
  - rewrite print_basic_help_cases.
    destruct (_make_basic_help_parser RO basic d) as [hp|e];
      [|left; by eexists].
    right. unfold basic_help_output. eexists hp, _. split; [reflexivity|].
    destruct (truthy d); [by left | by right].
Qed.

(** [main], as the sequence of things that can stop it. *)
Lemma main_unfold cl_args :
  main RO basic _runner_class os_devnull cl_args
  = match _make_arg_parser RO basic with
    | Raise e => ([], Raise e)
    | Ok parser =>
    match parse_args parser cl_args with
    | inl e => ([stderr_usage e], Raise (SystemExit 2))
    | inr options =>
    match getattr options "runner" with
    | Raise e => ([], Raise e)
    | Ok runner =>
    match _runner_class (py_or runner (VStr _DEFAULT_RUNNER)) with
    | Raise e => ([], Raise e)
    | Ok runner_class =>
    match shows_help options with
    | Raise e => ([], Raise e)
    | Ok true =>
        match _print_help RO basic options runner_class with
        | (log, Ok _) => (log, Raise (SystemExit 0))
        | (log, Raise e) => (log, Raise e)
        end
    | Ok false =>
    match getattr options "quiet" with
    | Raise e => ([], Raise e)
    | Ok quiet =>
    match getattr options "verbose" with
    | Raise e => ([], Raise e)
    | Ok verbose =>
    match _get_step RO options parser cl_args with
    | Raise e => ([set_up_logging quiet verbose], Raise e)
    | Ok step =>
        ([ set_up_logging quiet verbose;
           runner_init runner_class
             (submitted_kwargs os_devnull options runner_class step);
           runner_run runner_class ], Ok tt)
    end end end end end end end end.
Proof.
  unfold main.
  destruct (_make_arg_parser RO basic) as [parser|e]; [|reflexivity].
  rewrite pbind_lift_Ok. unfold run_parse_args.
  destruct (parse_args parser cl_args) as [e|options]; [reflexivity|].
  rewrite pbind_lift_Ok.
  destruct (getattr options "runner") as [runner|e]; [|reflexivity].
  rewrite pbind_lift_Ok.
  destruct (_runner_class _) as [runner_class|e]; [|reflexivity].
  rewrite pbind_lift_Ok. fold (shows_help options).
  destruct (shows_help options) as [[]|e]; [| |reflexivity].
  - rewrite pbind_lift_Ok.
    destruct (_print_help RO basic options runner_class) as [log [[]|e]].
    + unfold pbind, sys_exit. by rewrite app_nil_r.
    + reflexivity.
  - rewrite pbind_lift_Ok.
    destruct (getattr options "quiet") as [quiet|e]; [|reflexivity].
    rewrite pbind_lift_Ok.
    destruct (getattr options "verbose") as [verbose|e]; [|reflexivity].
    rewrite pbind_lift_Ok, pbind_emit.
    destruct (_get_step RO options parser cl_args) as [step|e]; [|reflexivity].
    rewrite pbind_lift_Ok. reflexivity.
Qed.


Lemma getattr_Ok options name v :
  getattr options name = Ok v ↔ options !! name = Some v.
Proof.
  unfold getattr. destruct (options !! name); split; intros [=]; by subst.
Qed.

Lemma shows_help_false options :
  shows_help options = Ok false ↔
  ∃ h s, options !! "help" = Some h ∧ truthy h = false ∧
         options !! "script_or_jar" = Some s ∧ truthy s = true.
Proof.
  unfold shows_help, getattr. split.
  - destruct (options !! "help") as [h|]; [|done]. cbn [rbind].
    destruct (truthy h) eqn:Hh; [done|].
    destruct (options !! "script_or_jar") as [s|]; [|done]. cbn [rbind].
    destruct (truthy s) eqn:Hs; [|done]. intros _. by exists h, s.
  - intros (h & s & -> & Hh & -> & Hs). cbn [rbind]. by rewrite Hh, Hs.
Qed.

Lemma shows_help_flag options h :
  options !! "help" = Some h → truthy h = true → shows_help options = Ok true.
Proof.
  intros Hh Ht. unfold shows_help, getattr. rewrite Hh. cbn [rbind].
  by rewrite Ht.
Qed.

End main_cases.

(** X1: whatever the command line and the imported tables, [main] either
    ends without constructing a runner, in one of four ways that all raise
    (it raises having written nothing; it writes a usage error and exits
    with status 2; it prints one help screen, with or without the note on
    deprecated options, and exits with status 0; it sets up logging and
    raises), or it sets up logging and then constructs one runner, after
    which it does nothing but run that runner.  So a runner is constructed
    only after logging was set up and nothing else was written, a runner is
    never run without having been constructed, and help is never printed
    together with a runner. *)
Theorem main_ends_early_or_constructs_one_runner
    (RO : gmap string (list (list string * gmap string value)))
    (basic : list (list string * gmap string value))
    (_runner_class : value → result RunnerClass) (os_devnull : string)
    (cl_args : list string) :
  let log := (main RO basic _runner_class os_devnull cl_args).1 in
  let r := (main RO basic _runner_class os_devnull cl_args).2 in
  (log = [] ∧ ∃ e, r = Raise e) ∨
  (∃ e, log = [stderr_usage e] ∧ r = Raise (SystemExit 2)) ∨
  (∃ hp note,
     log = print_help hp :: note ∧
     (note = [] ∨ note = [print ""; print _DEPRECATED_OPT_HELP]) ∧
     r = Raise (SystemExit 0)) ∨
  (∃ quiet verbose e, log = [set_up_logging quiet verbose] ∧ r = Raise e) ∨
  (∃ quiet verbose runner_class kwargs rest,
     log = set_up_logging quiet verbose
           :: runner_init runner_class kwargs :: rest ∧
     ∀ ev, ev ∈ rest → ev = runner_run runner_class).
Proof.
  cbv zeta. rewrite main_unfold.
  destruct (_make_arg_parser RO basic) as [parser|e]; [|left; eauto].
  destruct (parse_args parser cl_args) as [e|options];
    [right; left; eauto|].
  destruct (getattr options "runner") as [runner|e]; [|left; eauto].
  destruct (_runner_class _) as [runner_class|e]; [|left; eauto].
  destruct (shows_help options) as [[]|e]; [| |left; eauto].
  - destruct (print_help_shape RO basic options runner_class)
      as [[e ->] | (hp & note & -> & Hnote)]; [left; eauto|].
    right; right; left. exists hp, note. done.
  - destruct (getattr options "quiet") as [quiet|e]; [|left; eauto].
    destruct (getattr options "verbose") as [verbose|e]; [|left; eauto].
    destruct (_get_step RO options parser cl_args) as [step|e].
    + do 4 right. eexists _, _, _, _, _. split; [reflexivity|].
      intros ev Hev. by apply list_elem_of_singleton in Hev.
    + do 3 right; left. by eexists _, _, _.
Qed.

(** X2: when the command line parses, [main] returns normally only if the
    runner class of the chosen alias (or of [hadoop]) was found, no help
    was asked for, a target was named and the step could be built from it;
    it then has set up logging with the [quiet] and [verbose] options,
    constructed that runner class once, with the keyword arguments of lines
    261-267, and run it, in this order, and has printed nothing. *)
Theorem main_returns_only_after_job_ran
    (RO : gmap string (list (list string * gmap string value)))
    (basic : list (list string * gmap string value))
    (_runner_class : value → result RunnerClass) (os_devnull : string)
    (cl_args : list string) (parser : list Action)
    (options : gmap string value) (log : list event) :
  _make_arg_parser RO basic = Ok parser →
  parse_args parser cl_args = inr options →
  main RO basic _runner_class os_devnull cl_args = (log, Ok tt) →
  ∃ runner runner_class h s quiet verbose step,
    options !! "runner" = Some runner ∧
    _runner_class (py_or runner (VStr _DEFAULT_RUNNER)) = Ok runner_class ∧
    options !! "help" = Some h ∧ truthy h = false ∧
    options !! "script_or_jar" = Some s ∧ truthy s = true ∧
    options !! "quiet" = Some quiet ∧
    options !! "verbose" = Some verbose ∧
    _get_step RO options parser cl_args = Ok step ∧
    log = [ set_up_logging quiet verbose;
            runner_init runner_class
              (submitted_kwargs os_devnull options runner_class step);
            runner_run runner_class ].
Proof.
  intros Hp Hparse. rewrite main_unfold, Hp, Hparse. clear Hp Hparse.
  destruct (getattr options "runner") as [runner|e] eqn:Hr; [|done].
  destruct (_runner_class _) as [runner_class|e] eqn:Hrc; [|done].
  destruct (shows_help options) as [[]|e] eqn:Hsh; [| |done].
  { destruct (_print_help RO basic options runner_class) as [l [[]|e]];
      done. }
  destruct (getattr options "quiet") as [quiet|e] eqn:Hq; [|done].
  destruct (getattr options "verbose") as [verbose|e] eqn:Hv; [|done].
  destruct (_get_step RO options parser cl_args) as [step|e] eqn:Hst;
    [|done].
  intros [= <-].
  apply shows_help_false in Hsh as (h & s & Hh & Hht & Hs & Hst').
  apply getattr_Ok in Hr, Hq, Hv.
  exists runner, runner_class, h, s, quiet, verbose, step.
  split; [exact Hr|].
  split; [exact Hrc|]. split; [exact Hh|]. split; [exact Hht|].
  split; [exact Hs|]. split; [exact Hst'|]. split; [exact Hq|].
  split; [exact Hv|]. split; reflexivity.
Qed.

(** * The keyword arguments of the runner *)

Lemma hard_coded_lookup k :
  _HARD_CODED_OPTS !! k
  = if decide (k = "check_input_paths") then Some (VBool false)
    else if decide (k = "output_dir") then Some VNone
    else None.
Proof.
  change _HARD_CODED_OPTS
    with (<["check_input_paths" := VBool false]>
            (<["output_dir" := VNone]> (∅ : gmap string value))).
  destruct (decide (k = "check_input_paths")) as [->|H1].
  { by rewrite lookup_insert_eq. }
  rewrite lookup_insert_ne by done.
  destruct (decide (k = "output_dir")) as [->|H2].
  { by rewrite lookup_insert_eq. }
  rewrite lookup_insert_ne by done. apply lookup_empty.
Qed.

Lemma submitted_kwargs_lookup os_devnull options runner_class step k :
  k ∉ fixed_kwargs →
  submitted_kwargs os_devnull options runner_class step !! k
  = if decide (k ∈ OPT_NAMES runner_class) then KwValue <$> options !! k
    else None.
Proof.
  intros Hk. unfold fixed_kwargs in Hk.
  assert (k ≠ "check_input_paths" ∧ k ≠ "output_dir" ∧ k ≠ "input_paths"
          ∧ k ≠ "steps") as (H1 & H2 & H3 & H4).
  { split_and!; intros ->; apply Hk; set_solver. }
  unfold submitted_kwargs.
  rewrite !lookup_insert_ne by done. rewrite lookup_fmap, lookup_union.
  rewrite hard_coded_lookup, !decide_False by done.
  rewrite (left_id_L None _). unfold _get_runner_opt_kwargs.
  rewrite map_lookup_filter. destruct (options !! k) as [v|]; simpl.
  - destruct (decide (k ∈ OPT_NAMES runner_class)) as [Hin|Hout].
    + by rewrite option_guard_True.
    + by rewrite option_guard_False.
  - by destruct (decide (k ∈ OPT_NAMES runner_class)).
Qed.

(** A runner is constructed on the last path of [main] only. *)
Lemma main_runner_init_inv RO basic _runner_class os_devnull cl_args
    runner_class kwargs :
  runner_init runner_class kwargs
    ∈ (main RO basic _runner_class os_devnull cl_args).1 →
  ∃ parser options step,
    _make_arg_parser RO basic = Ok parser ∧
    parse_args parser cl_args = inr options ∧
    _get_step RO options parser cl_args = Ok step ∧
    kwargs = submitted_kwargs os_devnull options runner_class step.
Proof.
  rewrite main_unfold.
  destruct (_make_arg_parser RO basic) as [parser|e];
    [|by intros ?%elem_of_nil].
  destruct (parse_args parser cl_args) as [e|options] eqn:Hparse.
  { by intros [=]%list_elem_of_singleton. }
  destruct (getattr options "runner") as [runner|e];
    [|by intros ?%elem_of_nil].
  destruct (_runner_class _) as [rc|e]; [|by intros ?%elem_of_nil].
  destruct (shows_help options) as [[]|e]; [| |by intros ?%elem_of_nil].
  - destruct (print_help_shape RO basic options rc)
      as [[e ->] | (hp & note & -> & Hnote)].
    { by intros ?%elem_of_nil. }
    simpl. intros [[=] | H]%elem_of_cons.
    destruct Hnote as [-> | ->]; [by apply elem_of_nil in H|].
    apply elem_of_cons in H as [[=] | H].
    by apply list_elem_of_singleton in H.
  - destruct (getattr options "quiet") as [quiet|e];
      [|by intros ?%elem_of_nil].
    destruct (getattr options "verbose") as [verbose|e];
      [|by intros ?%elem_of_nil].
    destruct (_get_step RO options parser cl_args) as [step|e] eqn:Hstep.
    + simpl. intros [[=] | H]%elem_of_cons.
      apply elem_of_cons in H as [[= -> ->] | H].
      * exists parser, options, step. split; [reflexivity|].
        split; [exact Hparse|]. split; [exact Hstep | reflexivity].
      * by apply list_elem_of_singleton in H.
    + by intros [=]%list_elem_of_singleton.
Qed.

(** X3: whenever [main] constructs a runner, the keyword arguments other
    than the four it sets itself ([check_input_paths], [output_dir],
    [input_paths], [steps]) are exactly the options the runner class
    declares that the parsed namespace holds, each with its parsed value:
    an option the class does not declare is never passed, a declared one
    missing from the namespace is left out, and [steps] is the one step
    built from the command line. *)
Theorem runner_gets_declared_options_only
    (RO : gmap string (list (list string * gmap string value)))
    (basic : list (list string * gmap string value))
    (_runner_class : value → result RunnerClass) (os_devnull : string)
    (cl_args : list string) (runner_class : RunnerClass)
    (kwargs : gmap string kwarg) :
  runner_init runner_class kwargs
    ∈ (main RO basic _runner_class os_devnull cl_args).1 →
  ∃ parser options step,
    _make_arg_parser RO basic = Ok parser ∧
    parse_args parser cl_args = inr options ∧
    _get_step RO options parser cl_args = Ok step ∧
    kwargs !! "steps" = Some (KwSteps [step]) ∧
    (∀ k, k ∉ fixed_kwargs →
       kwargs !! k = if decide (k ∈ OPT_NAMES runner_class)
                     then KwValue <$> options !! k else None) ∧
    (∀ k, k ∈ dom kwargs → k ∈ fixed_kwargs ∨ k ∈ OPT_NAMES runner_class).
Proof.
  intros (parser & options & step & Hp & Hparse & Hstep & ->)
           %main_runner_init_inv.
  exists parser, options, step. split; [exact Hp|]. clear Hp.
  split; [exact Hparse|]. split; [exact Hstep|]. split_and!.
  - unfold submitted_kwargs. by rewrite lookup_insert_eq.
  - intros k Hk. by apply submitted_kwargs_lookup.
  - intros k Hk. destruct (decide (k ∈ fixed_kwargs)) as [|Hfix]; [by left|].
    right. apply elem_of_dom in Hk as [v Hv].
    rewrite submitted_kwargs_lookup in Hv by done.
    by destruct (decide (k ∈ OPT_NAMES runner_class)).
Qed.

(** * Help, the runner class and the target *)

Section help_flag.
Context (RO : gmap string (list (list string * gmap string value))).
Context (basic : list (list string * gmap string value)).
Context (_runner_class : value → result RunnerClass).
Context (os_devnull : string).

(** With the help flag set, [main] is [_print_help] followed by
    [sys.exit(0)]. *)
Lemma main_with_help_flag cl_args parser options runner h runner_class :
  _make_arg_parser RO basic = Ok parser →
  parse_args parser cl_args = inr options →
  options !! "runner" = Some runner →
  _runner_class (py_or runner (VStr _DEFAULT_RUNNER)) = Ok runner_class →
  options !! "help" = Some h → truthy h = true →
  main RO basic _runner_class os_devnull cl_args
  = match _print_help RO basic options runner_class with
    | (log, Ok _) => (log, Raise (SystemExit 0))
    | (log, Raise e) => (log, Raise e)
    end.
Proof.
  intros Hp Hparse Hr Hrc Hh Hht.
  rewrite main_unfold, Hp, Hparse. clear Hp.
  rewrite (proj2 (getattr_Ok _ _ _) Hr), Hrc.
  by rewrite (shows_help_flag _ _ Hh Hht).
Qed.

End help_flag.

(** X4: when the command line parses with the help flag and no runner
    alias, [main] prints the basic help (with the note on deprecated
    options unless they are included) and exits with status 0, whether or
    not a target is named; no runner is constructed. *)
Theorem help_flag_prints_basic_help
    (RO : gmap string (list (list string * gmap string value)))
    (basic : list (list string * gmap string value))
    (_runner_class : value → result RunnerClass) (os_devnull : string)
    (cl_args : list string) (parser : list Action)
    (options : gmap string value) (runner h d : value)
    (runner_class : RunnerClass) (hp : list Action) :
  _make_arg_parser RO basic = Ok parser →
  parse_args parser cl_args = inr options →
  options !! "runner" = Some runner → truthy runner = false →
  _runner_class (py_or runner (VStr _DEFAULT_RUNNER)) = Ok runner_class →
  options !! "help" = Some h → truthy h = true →
  options !! "deprecated" = Some d →
  _make_basic_help_parser RO basic d = Ok hp →
  main RO basic _runner_class os_devnull cl_args
  = (basic_help_output hp d, Raise (SystemExit 0)).
Proof.
  intros Hp Hparse Hr Hrf Hrc Hh Hht Hd Hhp.
  rewrite (main_with_help_flag RO basic _runner_class os_devnull cl_args
             parser options runner h runner_class Hp Hparse Hr Hrc Hh Hht).
  clear Hp. rewrite print_help_cases.
  rewrite (proj2 (getattr_Ok _ _ _) Hh), Hht.
  rewrite (proj2 (getattr_Ok _ _ _) Hr), (proj2 (getattr_Ok _ _ _) Hd).
  cbn [rbind]. rewrite Hrf. by rewrite print_basic_help_cases, Hhp.
Qed.


(** X6: the runner class is looked up right after parsing, for the alias
    given with [-r] or else for [hadoop]; when the lookup raises, [main]
    raises the same exception having printed nothing, even when help was
    asked for. *)
Theorem runner_class_is_looked_up_before_help
    (RO : gmap string (list (list string * gmap string value)))
    (basic : list (list string * gmap string value))
    (_runner_class : value → result RunnerClass) (os_devnull : string)
    (cl_args : list string) (parser : list Action)
    (options : gmap string value) (runner : value) (e : exception) :
  _make_arg_parser RO basic = Ok parser →
  parse_args parser cl_args = inr options →
  options !! "runner" = Some runner →
  _runner_class (if truthy runner then runner else VStr "hadoop") = Raise e →
  main RO basic _runner_class os_devnull cl_args = ([], Raise e).
Proof.
  intros Hp Hparse Hr Hrc. rewrite main_unfold, Hp, Hparse. clear Hp.
  rewrite (proj2 (getattr_Ok _ _ _) Hr).
  change (py_or runner (VStr _DEFAULT_RUNNER))
    with (if truthy runner then runner else VStr "hadoop").
  by rewrite Hrc.
Qed.

(** X7: a target that is neither a jar nor a Python script stops [main]
    after logging was set up and before any runner is constructed: it
    raises the [ValueError] that names the target as typed. *)
Theorem bad_target_stops_before_runner
    (RO : gmap string (list (list string * gmap string value)))
    (basic : list (list string * gmap string value))
    (_runner_class : value → result RunnerClass) (os_devnull : string)
    (cl_args : list string) (parser : list Action)
    (options : gmap string value) (runner h quiet verbose args mc : value)
    (runner_class : RunnerClass) (path ext : string) :
  _make_arg_parser RO basic = Ok parser →
  parse_args parser cl_args = inr options →
  options !! "runner" = Some runner →
  _runner_class (py_or runner (VStr _DEFAULT_RUNNER)) = Ok runner_class →
  options !! "help" = Some h → truthy h = false →
  options !! "quiet" = Some quiet →
  options !! "verbose" = Some verbose →
  options !! "args" = Some args →
  options !! "main_class" = Some mc →
  options !! "script_or_jar" = Some (VStr path) →
  path ≠ "" →
  ¬ has_suffix (lower path) ".jar" →
  extension_of (lower path) ext →
  ¬ has_prefix ext "py" →
  main RO basic _runner_class os_devnull cl_args
  = ([set_up_logging quiet verbose],
     Raise (ValueError (path +:+ " appears not to be a JAR or Python script"))).
Proof.
  intros Hp Hparse Hr Hrc Hh Hht Hq Hv Ha Hm Hs Hne Hjar Hext Hpy.
  rewrite main_unfold, Hp, Hparse. clear Hp.
  rewrite (proj2 (getattr_Ok _ _ _) Hr), Hrc.
  assert (shows_help options = Ok false) as ->.
  { apply shows_help_false. exists h, (VStr path). split_and!; try done.
    simpl. destruct path; [done | reflexivity]. }
  rewrite (proj2 (getattr_Ok _ _ _) Hq), (proj2 (getattr_Ok _ _ _) Hv).
  rewrite (get_step_unfold _ _ _ _ _ _ _ Ha Hm Hs).
  rewrite (classify_target_other _ _ _ _ _ Hjar Hext).
  destruct (startswith ext "py") eqn:E; [|reflexivity].
  by apply startswith_has_prefix in E.
Qed.

(** * Witnesses for [main] *)


Lemma help_with_target_parsed :
  parse_args sample_parser help_with_target = inr help_with_target_options.
Proof.
  vm_cast_no_check (eq_refl (@inr parse_error _ help_with_target_options)).
Qed.

Lemma sample_emr_help_parser_built :
  _add_runner_args sample_RUNNER_OPTS []
    (OPT_NAMES sample_emr ∖ dom _HARD_CODED_OPTS)
  = Ok sample_emr_help_parser.
Proof. vm_compute. reflexivity. Qed.

Lemma submit_text_parsed :
  parse_args sample_parser submit_text = inr submit_text_options.
Proof.
  vm_cast_no_check (eq_refl (@inr parse_error _ submit_text_options)).
Qed.

Lemma submit_script_parsed :
  parse_args sample_parser submit_script = inr submit_script_options.
Proof.
  vm_cast_no_check (eq_refl (@inr parse_error _ submit_script_options)).
Qed.

Lemma main_returns_only_after_job_ran_witness :
  ∃ runner_class step,
    _get_step sample_RUNNER_OPTS submit_script_options sample_parser
      submit_script = Ok step ∧
    [ set_up_logging (VBool false) (VBool false);
      runner_init sample_hadoop submit_script_kwargs;
      runner_run sample_hadoop ]
    = [ set_up_logging (VBool false) (VBool false);
        runner_init runner_class
          (submitted_kwargs "/dev/null" submit_script_options runner_class
             step);
        runner_run runner_class ].
Proof.
  destruct (main_returns_only_after_job_ran sample_RUNNER_OPTS
              sample_basic_args sample_runner_class "/dev/null"
              submit_script sample_parser submit_script_options
              [ set_up_logging (VBool false) (VBool false);
                runner_init sample_hadoop submit_script_kwargs;
                runner_run sample_hadoop ])
    as (runner & runner_class & h & s & quiet & verbose & step & _ & _ & _
        & _ & _ & _ & Hq & Hv & Hstep & Hlog).
  - exact sample_parser_built.
  - exact submit_script_parsed.
  - vm_cast_no_check
      (eq_refl ([ set_up_logging (VBool false) (VBool false);
                  runner_init sample_hadoop submit_script_kwargs;
                  runner_run sample_hadoop ], @Ok unit tt)).
  - vm_compute in Hq. vm_compute in Hv.
    injection Hq as <-. injection Hv as <-.
    exists runner_class, step. split; [exact Hstep | exact Hlog].
Defined.

Lemma runner_gets_declared_options_only_witness :
  ∃ parser options step,
    _make_arg_parser sample_RUNNER_OPTS sample_basic_args = Ok parser ∧
    parse_args parser submit_script = inr options ∧
    _get_step sample_RUNNER_OPTS options parser submit_script = Ok step ∧
    submit_script_kwargs !! "steps" = Some (KwSteps [step]) ∧
    (∀ k, k ∉ fixed_kwargs →
       submit_script_kwargs !! k
       = if decide (k ∈ OPT_NAMES sample_hadoop)
         then KwValue <$> options !! k else None) ∧
    (∀ k, k ∈ dom submit_script_kwargs →
       k ∈ fixed_kwargs ∨ k ∈ OPT_NAMES sample_hadoop).
Proof.
  apply (runner_gets_declared_options_only sample_RUNNER_OPTS
           sample_basic_args sample_runner_class "/dev/null" submit_script).
  rewrite submit_script_log. apply list_elem_of_further, list_elem_of_here.
Defined.

Lemma help_flag_prints_basic_help_witness :
  main sample_RUNNER_OPTS sample_basic_args sample_runner_class "/dev/null"
    help_with_target
  = (basic_help_output sample_help_parser (VBool false),
     Raise (SystemExit 0)).
Proof.
  apply (help_flag_prints_basic_help sample_RUNNER_OPTS sample_basic_args
           sample_runner_class "/dev/null" help_with_target sample_parser
           help_with_target_options VNone (VBool true) (VBool false)
           sample_hadoop sample_help_parser).
  - exact sample_parser_built.
  - exact help_with_target_parsed.
  - reflexivity.
  - reflexivity.
  - reflexivity.
  - reflexivity.
  - reflexivity.
  - reflexivity.
  - exact sample_help_parser_built.
Defined.


Lemma runner_class_is_looked_up_before_help_witness :
  main sample_RUNNER_OPTS sample_basic_args failing_runner_class "/dev/null"
    switches_only
  = ([], Raise (ValueError "runner not available")).
Proof.
  apply (runner_class_is_looked_up_before_help sample_RUNNER_OPTS
           sample_basic_args failing_runner_class "/dev/null" switches_only
           sample_parser switches_only_options VNone).
  - exact sample_parser_built.
  - exact switches_only_parsed.
  - reflexivity.
  - reflexivity.
Defined.

Lemma bad_target_stops_before_runner_witness :
  main sample_RUNNER_OPTS sample_basic_args sample_runner_class "/dev/null"
    submit_text
  = ([set_up_logging (VBool false) (VBool false)],
     Raise (ValueError "data.txt appears not to be a JAR or Python script")).
Proof.
  apply (bad_target_stops_before_runner sample_RUNNER_OPTS sample_basic_args
           sample_runner_class "/dev/null" submit_text sample_parser
           submit_text_options VNone (VBool false) (VBool false) (VBool false)
           (VList []) VNone sample_hadoop "data.txt" "txt").
  - exact sample_parser_built.
  - exact submit_text_parsed.
  - reflexivity.
  - reflexivity.
  - reflexivity.
  - reflexivity.
  - reflexivity.
  - reflexivity.
  - reflexivity.
  - reflexivity.
  - reflexivity.
  - discriminate.
  - intros H%endswith_has_suffix. discriminate H.
  - split; [reflexivity|]. right. by exists "data".
  - intros [rest H]. discriminate H.
Defined.

(** * What a registration adds to a parser *)

Lemma add_argument_Ok_full parser strs kw parser' :
  add_argument parser strs kw = Ok parser' →
  ∃ d act n ch,
    kw_dest strs kw = Ok d ∧ kw_action kw = Ok act ∧
    kw_nargs kw = Ok n ∧ kw_choices kw = Ok ch ∧
    Forall (λ s, find_action parser s = None) strs ∧
    parser' = parser ++ [ {| option_strings := strs;
                             dest := d;
                             action := act;
                             nargs := n;
                             choices := ch;
                             default_value := kw_default act kw;
                             help := kw !! "help" |} ].
Proof.
  intros H.
  destruct (add_argument_Ok _ _ _ _ H)
    as (a & _ & _ & _ & _ & _ & _ & Hfree & _).
  unfold add_argument in H.
  destruct (forallb _ strs); [|discriminate H]. simpl in H.
  apply rbind_Ok in H as (d & Hd & H). apply rbind_Ok in H as (act & Hact & H).
  destruct (forallb _ (elements _)); [|discriminate H]. simpl in H.
  apply rbind_Ok in H as (n & Hn & H). apply rbind_Ok in H as (ch & Hch & H).
  destruct (existsb (registered parser) strs); [discriminate H|].
  injection H as <-. exists d, act, n, ch. done.
Qed.

Lemma find_action_last parser a s :
  find_action parser s = None → s ∈ option_strings a →
  find_action (parser ++ [a]) s = Some a.
Proof.
  intros Hfree Hs. rewrite find_action_app, Hfree.
  unfold find_action. simpl. unfold has_switch.
  by rewrite (proj2 (str_in_true s _) Hs).
Qed.

Lemma switches_of_app p l :
  switches_of (p ++ l) = switches_of p ++ switches_of l.
Proof. unfold switches_of. apply bind_app. Qed.

Lemma add_argument_switches parser strs kw parser' :
  add_argument parser strs kw = Ok parser' →
  switches_of parser' = switches_of parser ++ strs.
Proof.
  intros (d & act & n & ch & _ & _ & _ & _ & _ & ->)%add_argument_Ok_full.
  rewrite switches_of_app. unfold switches_of at 2. simpl.
  by rewrite app_nil_r.
Qed.

Lemma elem_of_switches_of parser s :
  s ∈ switches_of parser ↔ ∃ a, a ∈ parser ∧ s ∈ option_strings a.
Proof.
  unfold switches_of. rewrite list_elem_of_bind. naive_solver.
Qed.

Lemma find_action_Some_elem parser s a :
  a ∈ parser → s ∈ option_strings a → is_Some (find_action parser s).
Proof.
  intros Ha Hs. destruct (find_action parser s) as [b|] eqn:E; [by eexists|].
  unfold find_action in E.
  pose proof (find_none _ _ E a (proj1 (list_elem_of_In _ _) Ha)) as Hno.
  unfold has_switch in Hno.
  by rewrite (proj2 (str_in_true s _) Hs) in Hno.
Qed.

Lemma registered_switches_of parser s :
  is_Some (find_action parser s) ↔ s ∈ switches_of parser.
Proof.
  rewrite elem_of_switches_of. split.
  - intros [a Ha]. apply find_action_has_switch in Ha as [Hs Ha].
    exists a. split; [done|]. by apply str_in_true.
  - intros (a & Ha & Hs). by eapply find_action_Some_elem.
Qed.

(** A loop of registrations, with what each round adds. *)
Lemma for_each_switches {A} (body : list Action → A → result (list Action))
    (added : A → list string) xs p p' :
  (∀ q x q', body q x = Ok q' → switches_of q' = switches_of q ++ added x) →
  for_each xs body p = Ok p' →
  switches_of p' = switches_of p ++ (xs ≫= added).
Proof.
  intros Hbody. revert p. induction xs as [|x xs IH]; intros p H; simpl in H.
  - injection H as <-. by rewrite app_nil_r.
  - apply rbind_Ok in H as (q & Hq & H).
    rewrite (IH _ H), (Hbody _ _ _ Hq). by rewrite <- app_assoc.
Qed.

(** A loop of registrations keeps what every round keeps. *)
Lemma for_each_preserves {A} (body : list Action → A → result (list Action))
    (I : list Action → Prop) xs p p' :
  (∀ q x q', body q x = Ok q' → I q → I q') →
  I p → for_each xs body p = Ok p' → I p'.
Proof.
  intros Hbody. revert p. induction xs as [|x xs IH]; intros p Hp H; simpl in H.
  - by injection H as <-.
  - apply rbind_Ok in H as (q & Hq & H). eapply IH; [|exact H].
    by eapply Hbody.
Qed.

(** * [_add_spark_submit_arg] *)

Lemma spark_submit_switch_Some opt_name switch :
  spark_submit_switch opt_name = Some switch ↔
  (opt_name, switch) ∈ _SPARK_SUBMIT_SWITCHES.
Proof.
  split; [|apply spark_submit_switch_elem].
  unfold spark_submit_switch. intros H.
  destruct (List.find _ _) as [[k v]|] eqn:E; [|discriminate H].
  injection H as <-. apply find_some in E as [Hin Hk].
  apply String.eqb_eq in Hk. simpl in Hk. subst k. by apply list_elem_of_In.
Qed.

Lemma spark_submit_switch_None opt_name :
  spark_submit_switch opt_name = None ↔ opt_name ∉ _SPARK_SUBMIT_OPT_NAMES.
Proof.
  rewrite opt_names_are_switch_names. unfold spark_submit_switch_names.
  rewrite elem_of_list_to_set, list_elem_of_fmap.
  destruct (spark_submit_switch opt_name) as [sw|] eqn:E.
  - split; [done|]. intros []. exists (opt_name, sw).
    split; [done | by apply spark_submit_switch_Some].
  - split; [|done]. intros _ ([k v] & -> & Hin).
    apply spark_submit_switch_elem in Hin. simpl in E. congruence.
Qed.

(** Every option with a switch has a help text. *)
Lemma spark_submit_help_known opt_name switch :
  (opt_name, switch) ∈ _SPARK_SUBMIT_SWITCHES →
  is_Some (_SPARK_SUBMIT_ARG_HELP !! opt_name).
Proof.
  unfold _SPARK_SUBMIT_SWITCHES. intros H.
  repeat (apply elem_of_cons in H as [[= -> ->] | H]; [by eexists|]).
  by apply elem_of_nil in H.
Qed.

Section spark_submit_arg.
Context (RO : gmap string (list (list string * gmap string value))).

(** The keyword arguments line 331 passes. *)
Lemma spark_submit_arg_unfold p opt_name switch :
  (opt_name, switch) ∈ _SPARK_SUBMIT_SWITCHES →
  ∃ h, _SPARK_SUBMIT_ARG_HELP !! opt_name = Some h ∧
       _add_spark_submit_arg RO p opt_name
       = add_argument p [switch]
           (default ∅ (_SPARK_SUBMIT_ARG_KWARGS !! opt_name)
            ∪ <["help" := VStr h]> (patched_kwargs RO opt_name switch)).
Proof.
  intros Hin. destruct (spark_submit_help_known _ _ Hin) as [h Hh].
  exists h. split; [exact Hh|]. unfold _add_spark_submit_arg.
  rewrite (spark_submit_switch_elem _ _ Hin). unfold getitem. rewrite Hh.
  reflexivity.
Qed.

Lemma spark_submit_arg_Ok_full p opt_name p' :
  _add_spark_submit_arg RO p opt_name = Ok p' →
  ∃ switch h d act n ch,
    (opt_name, switch) ∈ _SPARK_SUBMIT_SWITCHES ∧
    _SPARK_SUBMIT_ARG_HELP !! opt_name = Some h ∧
    let kwargs :=
      default ∅ (_SPARK_SUBMIT_ARG_KWARGS !! opt_name)
      ∪ <["help" := VStr h]> (patched_kwargs RO opt_name switch) in
    kw_dest [switch] kwargs = Ok d ∧ kw_action kwargs = Ok act ∧
    kw_nargs kwargs = Ok n ∧ kw_choices kwargs = Ok ch ∧
    find_action p switch = None ∧
    p' = p ++ [ {| option_strings := [switch];
                   dest := d;
                   action := act;
                   nargs := n;
                   choices := ch;
                   default_value := kw_default act kwargs;
                   help := kwargs !! "help" |} ].
Proof.
  intros H.
  destruct (spark_submit_switch opt_name) as [switch|] eqn:Hsw.
  2:{ unfold _add_spark_submit_arg in H. rewrite Hsw in H. discriminate H. }
  apply spark_submit_switch_Some in Hsw.
  destruct (spark_submit_arg_unfold p _ _ Hsw) as (h & Hh & E).
  rewrite E in H.
  apply add_argument_Ok_full in H
    as (d & act & n & ch & Hd & Hact & Hn & Hch & Hfree & ->).
  rewrite Forall_singleton in Hfree.
  exists switch, h, d, act, n, ch. split; [exact Hsw|]. split; [exact Hh|].
  cbv zeta. split; [exact Hd|]. split; [exact Hact|]. split; [exact Hn|].
  split; [exact Hch|]. split; [exact Hfree | reflexivity].
Qed.

(** The keyword arguments, key by key. *)
Lemma final_kwargs_lookup opt_name h (patched : gmap string value) k :
  (default ∅ (_SPARK_SUBMIT_ARG_KWARGS !! opt_name)
   ∪ <["help" := VStr h]> patched) !! k
  = if decide (opt_name = "supervise" ∧ k = "action")
    then Some (VStr "store_true")
    else if decide (k = "help") then Some (VStr h)
    else patched !! k.
Proof.
  rewrite lookup_union, arg_kwargs_lookup.
  destruct (decide (opt_name = "supervise" ∧ k = "action")) as [[_ ->]|_].
  - rewrite lookup_insert_ne by done. by destruct (patched !! "action").
  - rewrite (left_id_L None _). destruct (decide (k = "help")) as [->|].
    + by rewrite lookup_insert_eq.
    + by rewrite lookup_insert_ne.
Qed.

Lemma patched_kwargs_plain opt_name switch :
  RO !! opt_name = None →
  patched_kwargs RO opt_name switch = {[ "dest" := VStr opt_name ]}.
Proof. intros H. unfold patched_kwargs. by rewrite H. Qed.

End spark_submit_arg.

(** X8: [_add_spark_submit_arg] raises [KeyError] for a name outside
    [_SPARK_SUBMIT_OPT_NAMES]; for a name inside, the switch and the help
    text are both found (the tables have the same keys) and the call is
    one [add_argument] of that single switch, with the keyword arguments
    of [_SPARK_SUBMIT_ARG_KWARGS] over the help text over those patched in
    from the runner option. *)
Theorem spark_submit_arg_needs_known_name
    (RO : gmap string (list (list string * gmap string value)))
    (p : list Action) (opt_name : string) :
  (opt_name ∉ _SPARK_SUBMIT_OPT_NAMES →
   _add_spark_submit_arg RO p opt_name = Raise (KeyError opt_name)) ∧
  (opt_name ∈ _SPARK_SUBMIT_OPT_NAMES →
   ∃ switch h,
     (opt_name, switch) ∈ _SPARK_SUBMIT_SWITCHES ∧
     _SPARK_SUBMIT_ARG_HELP !! opt_name = Some h ∧
     _add_spark_submit_arg RO p opt_name
     = add_argument p [switch]
         (default ∅ (_SPARK_SUBMIT_ARG_KWARGS !! opt_name)
          ∪ <["help" := VStr h]> (patched_kwargs RO opt_name switch))).
Proof.
  split.
  - intros H%spark_submit_switch_None. unfold _add_spark_submit_arg.
    by rewrite H.
  - intros H. destruct (spark_submit_switch opt_name) as [switch|] eqn:E.
    + apply spark_submit_switch_Some in E.
      destruct (spark_submit_arg_unfold RO p _ _ E) as (h & Hh & Heq).
      exists switch, h. split; [exact E|]. split; [exact Hh | exact Heq].
    + apply spark_submit_switch_None in E. destruct (E H).
Qed.

(** X9: a successful [_add_spark_submit_arg] appends exactly one action to
    the parser and leaves the others as they were; the action is spelled
    with the option's spark-submit switch only, which was not registered
    before, and carries spark-submit's help text, whatever help the
    runner's switch had; [supervise] is always a flag; an option that is no
    runner option is stored under its own name, takes one value of any
    kind and defaults to [None] (the flag [supervise] to [False]). *)
Theorem spark_submit_arg_appends_one_action
    (RO : gmap string (list (list string * gmap string value)))
    (p p' : list Action) (opt_name : string) :
  _add_spark_submit_arg RO p opt_name = Ok p' →
  ∃ switch h a,
    (opt_name, switch) ∈ _SPARK_SUBMIT_SWITCHES ∧
    _SPARK_SUBMIT_ARG_HELP !! opt_name = Some h ∧
    p' = p ++ [a] ∧
    option_strings a = [switch] ∧
    help a = Some (VStr h) ∧
    find_action p switch = None ∧
    find_action p' switch = Some a ∧
    (opt_name = "supervise" → action a = StoreConst (VBool true)) ∧
    (RO !! opt_name = None →
     dest a = opt_name ∧ nargs a = NargsNone ∧ choices a = None ∧
     action a = (if decide (opt_name = "supervise")
                 then StoreConst (VBool true) else Store) ∧
     default_value a = (if decide (opt_name = "supervise")
                        then VBool false else VNone)).
Proof.
  intros (switch & h & d & act & n & ch & Hin & Hh & Hd & Hact & Hn & Hch
          & Hfree & ->)%spark_submit_arg_Ok_full.
  eexists switch, h, _. split; [exact Hin|]. split; [exact Hh|].
  split; [reflexivity|]. cbn [option_strings help action dest nargs choices
                              default_value].
  split; [reflexivity|]. split.
  { rewrite final_kwargs_lookup. rewrite decide_False by (by intros [_ [=]]).
    by rewrite decide_True. }
  split; [exact Hfree|]. split.
  { apply find_action_last; [exact Hfree|]. simpl. apply list_elem_of_here. }
  split.
  - intros ->. unfold kw_action in Hact. rewrite final_kwargs_lookup in Hact.
    rewrite decide_True in Hact by done. simpl in Hact. by injection Hact.
  - intros Hno. rewrite (patched_kwargs_plain RO _ _ Hno) in *.
    unfold kw_dest in Hd. unfold kw_action in Hact. unfold kw_nargs in Hn.
    unfold kw_choices in Hch. unfold kw_default.
    rewrite final_kwargs_lookup in Hd, Hact, Hn, Hch |- *.
    rewrite (decide_False (P := _ ∧ "dest" = "action")) in Hd
      by (by intros [_ [=]]).
    rewrite (decide_False (P := "dest" = "help")) in Hd by done.
    rewrite lookup_singleton_eq in Hd. injection Hd as <-.
    rewrite (decide_False (P := _ ∧ "nargs" = "action")) in Hn
      by (by intros [_ [=]]).
    rewrite (decide_False (P := "nargs" = "help")) in Hn by done.
    rewrite lookup_singleton_ne in Hn by done. injection Hn as <-.
    rewrite (decide_False (P := _ ∧ "choices" = "action")) in Hch
      by (by intros [_ [=]]).
    rewrite (decide_False (P := "choices" = "help")) in Hch by done.
    rewrite lookup_singleton_ne in Hch by done. injection Hch as <-.
    rewrite (decide_False (P := _ ∧ "default" = "action"))
      by (by intros [_ [=]]).
    rewrite (decide_False (P := "default" = "help")) by done.
    rewrite lookup_singleton_ne by done.
    split; [reflexivity|]. split; [reflexivity|]. split; [reflexivity|].
    destruct (decide (opt_name = "supervise")) as [->|Hne].
    + rewrite decide_True in Hact by done. simpl in Hact.
      injection Hact as <-. done.
    + rewrite decide_False in Hact by (by intros [? _]).
      rewrite (decide_False (P := "action" = "help")) in Hact by done.
      rewrite lookup_singleton_ne in Hact by done. injection Hact as <-. done.
Qed.

Lemma spark_submit_arg_needs_known_name_witness :
  _add_spark_submit_arg no_RUNNER_OPTS [] "kill"
  = Raise (KeyError "kill").
Proof.
  apply (proj1 (spark_submit_arg_needs_known_name no_RUNNER_OPTS [] "kill")).
  compute_done.
Defined.

Lemma supervise_only_built :
  _add_spark_submit_arg no_RUNNER_OPTS [] "supervise" = Ok supervise_only.
Proof. vm_compute. reflexivity. Qed.

Lemma spark_submit_arg_appends_one_action_witness :
  ∃ a, supervise_only = [a] ∧
       option_strings a = ["--supervise"] ∧
       action a = StoreConst (VBool true) ∧
       default_value a = VBool false.
Proof.
  destruct (spark_submit_arg_appends_one_action no_RUNNER_OPTS []
              supervise_only "supervise" supervise_only_built)
    as (switch & h & a & Hin & _ & Hp & Hs & _ & _ & _ & Hact & Hplain).
  apply spark_submit_switch_elem in Hin. injection Hin as <-.
  destruct (Hplain eq_refl) as (_ & _ & _ & _ & Hdef).
  exists a. split; [exact Hp|]. split; [exact Hs|].
  split; [exact (Hact eq_refl) | exact Hdef].
Defined.

(** * The stages of [_make_arg_parser] *)

Lemma grows_elem p p' a : grows p p' → a ∈ p → a ∈ p'.
Proof. intros (l & -> & _) H. apply elem_of_app. by left. Qed.

Section stages.
Context (RO : gmap string (list (list string * gmap string value))).
Context (basic : list (list string * gmap string value)).

Lemma make_arg_parser_positionals :
  add_argument [] []
    (list_to_map [ ("dest", VStr "script_or_jar"); ("nargs", VStr "?") ])
  = Ok [script_or_jar_positional] ∧
  add_argument [script_or_jar_positional] []
    (list_to_map [ ("dest", VStr "args"); ("nargs", VStr "*") ])
  = Ok [script_or_jar_positional; args_positional].
Proof. split; vm_compute; reflexivity. Qed.

Lemma make_arg_parser_own_stages parser :
  _make_arg_parser RO basic = Ok parser →
  ∃ p_basic p_alias p_help p_dep,
    _add_basic_args basic [script_or_jar_positional; args_positional]
      = Ok p_basic ∧
    _add_runner_alias_arg p_basic = Ok p_alias ∧
    _add_help_arg p_alias = Ok p_help ∧
    _add_deprecated_arg p_help = Ok p_dep ∧
    grows p_dep parser.
Proof.
  unfold _make_arg_parser. intros H.
  destruct make_arg_parser_positionals as [E1 E2].
  apply rbind_Ok in H as (p1 & H1 & H). rewrite E1 in H1. injection H1 as <-.
  apply rbind_Ok in H as (p2 & H2 & H). rewrite E2 in H2. injection H2 as <-.
  apply rbind_Ok in H as (p_basic & Hb & H).
  apply rbind_Ok in H as (p_alias & Ha & H).
  apply rbind_Ok in H as (p_help & Hh & H).
  apply rbind_Ok in H as (p_dep & Hd & H).
  apply rbind_Ok in H as (p_runner & Hr & H).
  exists p_basic, p_alias, p_help, p_dep.
  split; [exact Hb|]. split; [exact Ha|]. split; [exact Hh|].
  split; [exact Hd|].
  eapply grows_trans; [exact (_add_runner_args_grows _ _ _ _ Hr)|].
  exact (spark_loop_grows _ _ _ H).
Qed.

(** What the three registrations of lines 361-379 leave in the parser. *)
Lemma own_switch_registered parser :
  _make_arg_parser RO basic = Ok parser →
  (∀ sw, sw ∈ ["-r"; "--runner"] →
     ∃ a, find_action parser sw = Some a ∧ a ∈ parser ∧
          option_strings a = ["-r"; "--runner"] ∧ dest a = "runner" ∧
          action a = Store ∧ choices a = Some _SPARK_RUNNERS ∧
          default_value a = VNone) ∧
  (∀ sw, sw ∈ ["-h"; "--help"] →
     ∃ a, find_action parser sw = Some a ∧ a ∈ parser ∧
          option_strings a = ["-h"; "--help"] ∧ dest a = "help" ∧
          action a = StoreConst (VBool true) ∧
          default_value a = VBool false) ∧
  (∃ a, find_action parser "--deprecated" = Some a ∧ a ∈ parser ∧
        option_strings a = ["--deprecated"] ∧ dest a = "deprecated" ∧
        action a = StoreConst (VBool true) ∧
        default_value a = VBool false).
Proof.
  intros (p_basic & p_alias & p_help & p_dep & _ & Ha & Hh & Hd & Hg)
           %make_arg_parser_own_stages.
  pose proof (add_argument_grows _ _ _ _ Hh) as Gh.
  pose proof (add_argument_grows _ _ _ _ Hd) as Gd.
  apply add_argument_Ok_full in Ha
    as (d1 & act1 & n1 & ch1 & Hd1 & Hact1 & _ & Hch1 & Hfree1 & ->).
  apply add_argument_Ok_full in Hh
    as (d2 & act2 & n2 & ch2 & Hd2 & Hact2 & _ & _ & Hfree2 & ->).
  apply add_argument_Ok_full in Hd
    as (d3 & act3 & n3 & ch3 & Hd3 & Hact3 & _ & _ & Hfree3 & ->).
  vm_compute in Hd1, Hact1, Hch1, Hd2, Hact2, Hd3, Hact3.
  injection Hd1 as <-. injection Hact1 as <-. injection Hch1 as <-.
  injection Hd2 as <-. injection Hact2 as <-.
  injection Hd3 as <-. injection Hact3 as <-.
  rewrite Forall_forall in Hfree1, Hfree2, Hfree3.
  split; [|split].
  - intros sw Hsw. eexists. split.
    { eapply find_action_grows; [exact Hg|].
      eapply find_action_grows; [exact Gd|].
      eapply find_action_grows; [exact Gh|].
      apply find_action_last; [by apply Hfree1 | exact Hsw]. }
    split.
    { eapply grows_elem; [exact Hg|]. eapply grows_elem; [exact Gd|].
      eapply grows_elem; [exact Gh|]. apply elem_of_app. right.
      apply list_elem_of_here. }
    repeat split; vm_compute; reflexivity.
  - intros sw Hsw. eexists. split.
    { eapply find_action_grows; [exact Hg|].
      eapply find_action_grows; [exact Gd|].
      apply find_action_last; [by apply Hfree2 | exact Hsw]. }
    split.
    { eapply grows_elem; [exact Hg|]. eapply grows_elem; [exact Gd|].
      apply elem_of_app. right. apply list_elem_of_here. }
    repeat split; vm_compute; reflexivity.
  - eexists. split.
    { eapply find_action_grows; [exact Hg|].
      apply find_action_last; [|apply list_elem_of_here].
      apply Hfree3, list_elem_of_here. }
    split.
    { eapply grows_elem; [exact Hg|].
      apply elem_of_app. right. apply list_elem_of_here. }
    repeat split; vm_compute; reflexivity.
Qed.

Lemma positionals_registered parser :
  _make_arg_parser RO basic = Ok parser →
  ∃ rest, parser = script_or_jar_positional :: args_positional :: rest.
Proof.
  intros (p_basic & p_alias & p_help & p_dep & Hb & Ha & Hh & Hd & Hg)
           %make_arg_parser_own_stages.
  assert (grows [script_or_jar_positional; args_positional] parser)
    as (l & -> & _); [|by exists l].
  eapply grows_trans; [exact (_add_basic_args_grows _ _ _ Hb)|].
  eapply grows_trans; [exact (add_argument_grows _ _ _ _ Ha)|].
  eapply grows_trans; [exact (add_argument_grows _ _ _ _ Hh)|].
  eapply grows_trans; [exact (add_argument_grows _ _ _ _ Hd)|].
  exact Hg.
Qed.

End stages.

(** X10: in the parser [_make_arg_parser] builds, [-r] and [--runner] take
    one value and store it under [runner], which is [None] when neither is
    given: followed by [emr] or [hadoop], either switch stores that alias
    and the pass goes on with the rest of the command line. *)
Theorem eligible_alias_is_stored
    (RO : gmap string (list (list string * gmap string value)))
    (basic : list (list string * gmap string value))
    (parser : list Action) (sw runner_alias : string) (rest : list string)
    (st : parse_state) :
  _make_arg_parser RO basic = Ok parser →
  sw ∈ ["-r"; "--runner"] →
  runner_alias ∈ _SPARK_RUNNERS →
  (∃ a, find_action parser sw = Some a ∧ dest a = "runner" ∧
        default_value a = VNone) ∧
  consume parser (sw :: runner_alias :: rest) st
  = consume parser rest (set_attr st "runner" (VStr runner_alias)).
Proof.
  intros Hp Hsw Hal.
  destruct (own_switch_registered RO basic parser Hp) as (Hr & _ & _).
  clear Hp.
  destruct (Hr sw Hsw) as (a & Hf & _ & _ & Hd & Hact & Hch & Hdef).
  split; [by exists a|].
  assert (looks_like_option sw = true) as Hl.
  { apply elem_of_cons in Hsw as [-> | Hsw]; [reflexivity|].
    apply list_elem_of_singleton in Hsw as ->. reflexivity. }
  assert (looks_like_option runner_alias = false) as Hla.
  { apply elem_of_cons in Hal as [-> | Hal]; [reflexivity|].
    apply list_elem_of_singleton in Hal as ->. reflexivity. }
  cbn [consume]. rewrite Hl, Hf. unfold takes_value, check_choice.
  rewrite Hact, Hla, Hch, (proj2 (str_in_true _ _) Hal).
  unfold action_value. by rewrite Hact, Hd.
Qed.

(** X11: in the parser [_make_arg_parser] builds, [-h], [--help] and
    [--deprecated] are flags: they take no value, store [True] under
    [help] and [deprecated], whose default is [False], and the pass goes
    on with the very next token. *)
Theorem help_and_deprecated_are_flags
    (RO : gmap string (list (list string * gmap string value)))
    (basic : list (list string * gmap string value))
    (parser : list Action) (sw d : string) (rest : list string)
    (st : parse_state) :
  _make_arg_parser RO basic = Ok parser →
  (sw, d) ∈ [("-h", "help"); ("--help", "help");
             ("--deprecated", "deprecated")] →
  (∃ a, find_action parser sw = Some a ∧ dest a = d ∧
        action a = StoreConst (VBool true) ∧
        default_value a = VBool false) ∧
  consume parser (sw :: rest) st
  = consume parser rest (set_attr st d (VBool true)).
Proof.
  intros Hp Hsw.
  destruct (own_switch_registered RO basic parser Hp) as (_ & Hh & Hd).
  clear Hp.
  assert (∃ a, find_action parser sw = Some a ∧ dest a = d ∧
               action a = StoreConst (VBool true) ∧
               default_value a = VBool false ∧
               looks_like_option sw = true)
    as (a & Hf & Hda & Hact & Hdef & Hl).
  { apply elem_of_cons in Hsw as [[= -> ->] | Hsw].
    { destruct (Hh "-h") as (a & ? & _ & _ & ? & ? & ?);
        [apply list_elem_of_here | by exists a]. }
    apply elem_of_cons in Hsw as [[= -> ->] | Hsw].
    { destruct (Hh "--help") as (a & ? & _ & _ & ? & ? & ?);
        [apply list_elem_of_further, list_elem_of_here | by exists a]. }
    apply list_elem_of_singleton in Hsw as [= -> ->].
    destruct Hd as (a & ? & _ & _ & ? & ? & ?). by exists a. }
  split; [by exists a|].
  cbn [consume]. rewrite Hl, Hf. unfold takes_value, action_value.
  by rewrite Hact, Hda.
Qed.

Lemma eligible_alias_is_stored_witness :
  consume sample_parser ["--runner"; "emr"; "job.py"]
    (initial_state sample_parser)
  = consume sample_parser ["job.py"]
      (set_attr (initial_state sample_parser) "runner" (VStr "emr")).
Proof.
  refine (proj2 (eligible_alias_is_stored sample_RUNNER_OPTS sample_basic_args
                   sample_parser "--runner" "emr" ["job.py"] _ _ _ _)).
  - exact sample_parser_built.
  - apply list_elem_of_further, list_elem_of_here.
  - apply list_elem_of_here.
Defined.

Lemma help_and_deprecated_are_flags_witness :
  consume sample_parser ["--deprecated"; "job.py"]
    (initial_state sample_parser)
  = consume sample_parser ["job.py"]
      (set_attr (initial_state sample_parser) "deprecated" (VBool true)).
Proof.
  refine (proj2 (help_and_deprecated_are_flags sample_RUNNER_OPTS
                   sample_basic_args sample_parser "--deprecated" "deprecated"
                   ["job.py"] _ _ _)).
  - exact sample_parser_built.
  - apply list_elem_of_further, list_elem_of_further, list_elem_of_here.
Defined.

(** * The keywords patched in from a runner option *)

Lemma patch_fold_lookup (opt_alias : string)
    (switches : list (list string * gmap string value))
    (init : gmap string value) (k : string) :
  fold_left
    (λ (kwargs : gmap string value) (sw : list string * gmap string value),
       if str_in opt_alias sw.1 then sw.2 ∪ kwargs else kwargs)
    switches init !! k
  = match List.find
            (λ sw, bool_decide (opt_alias ∈ sw.1 ∧ is_Some (sw.2 !! k)))
            (rev switches) with
    | Some sw => sw.2 !! k
    | None => init !! k
    end.
Proof.
  induction switches as [|sw switches IH] using rev_ind; [done|].
  rewrite fold_left_app, rev_unit. cbn [fold_left List.find].
  destruct (str_in opt_alias sw.1) eqn:Hin.
  - apply str_in_true in Hin. rewrite lookup_union.
    destruct (sw.2 !! k) as [v|] eqn:Hk.
    + rewrite bool_decide_eq_true_2 by (split; [done | by eexists]).
      rewrite Hk. by destruct (fold_left _ _ _ !! k).
    + rewrite bool_decide_eq_false_2 by (by intros [_ [? ?]]).
      by rewrite (left_id_L None _).
  - rewrite bool_decide_eq_false_2; [done|].
    intros [H%str_in_true _]. congruence.
Qed.

(** X12: for a runner option, the keyword arguments [_add_spark_submit_arg]
    collects before it sets the help text are patched in table order: a
    keyword gets its value from the last switch entry of the option that
    carries the alias of the spark-submit switch (the switch itself when it
    has no alias) and gives that keyword; entries that do not carry the
    alias are ignored; a keyword no such entry gives keeps its initial
    value, which is the option name for [dest] and nothing otherwise. *)
Theorem runner_keywords_are_patched_in_order
    (RO : gmap string (list (list string * gmap string value)))
    (opt_name switch : string)
    (switches : list (list string * gmap string value)) (k : string) :
  RO !! opt_name = Some switches →
  patched_kwargs RO opt_name switch !! k
  = match List.find
            (λ sw, bool_decide
                     (default switch (_SWITCH_ALIASES !! switch) ∈ sw.1
                      ∧ is_Some (sw.2 !! k)))
            (rev switches) with
    | Some sw => sw.2 !! k
    | None => if decide (k = "dest") then Some (VStr opt_name) else None
    end.
Proof.
  intros Hro. unfold patched_kwargs. rewrite Hro, patch_fold_lookup.
  destruct (List.find _ _); [done|].
  destruct (decide (k = "dest")) as [->|].
  - by rewrite lookup_singleton_eq.
  - by rewrite lookup_singleton_ne.
Qed.

Lemma runner_keywords_are_patched_in_order_witness :
  patched_kwargs sample_RUNNER_OPTS "jobconf" "--conf" !! "action"
  = Some (VStr "append").
Proof.
  exact (runner_keywords_are_patched_in_order sample_RUNNER_OPTS "jobconf"
           "--conf" [ (["-D"; "--jobconf"], {[ "action" := VStr "append" ]}) ]
           "action" eq_refl).
Defined.

(** * The attributes of a parsed namespace *)

Lemma init_namespace_fold parser (ns : gmap string value) d :
  is_Some (ns !! d) ∨ (∃ a, a ∈ parser ∧ dest a = d) →
  is_Some (fold_left
             (λ (ns : gmap string value) a, match ns !! dest a with
                      | Some _ => ns
                      | None => <[dest a := default_value a]> ns
                      end)
             parser ns !! d).
Proof.
  revert ns. induction parser as [|b parser IH]; intros ns H; simpl.
  - destruct H as [H | (a & Ha & _)]; [done | by apply elem_of_nil in Ha].
  - apply IH. destruct H as [H | (a & Ha & Hd)].
    + left. destruct (ns !! dest b); [done|].
      apply lookup_insert_is_Some. destruct (decide (dest b = d)); auto.
    + apply elem_of_cons in Ha as [-> | Ha]; [|right; by exists a].
      left. rewrite Hd. destruct (ns !! d) eqn:E; [by rewrite E|].
      rewrite lookup_insert_eq. by eexists.
Qed.

Lemma init_namespace_has_dest parser a :
  a ∈ parser → is_Some (init_namespace parser !! dest a).
Proof.
  intros Ha. unfold init_namespace. apply init_namespace_fold. right.
  by exists a.
Qed.

Lemma set_attr_keeps st d' v d :
  is_Some (namespace st !! d) → is_Some (namespace (set_attr st d' v) !! d).
Proof.
  intros H. unfold set_attr. simpl. apply lookup_insert_is_Some.
  destruct (decide (d' = d)); auto.
Qed.

Lemma consume_keeps_attributes parser tokens st d :
  is_Some (namespace st !! d) →
  is_Some (namespace (consume parser tokens st).1 !! d).
Proof.
  remember (length tokens) as n eqn:Hn.
  revert tokens st Hn. induction (lt_wf n) as [n _ IH].
  intros tokens st -> Hd.
  destruct tokens as [|t rest]; [done|]. cbn [consume].
  destruct (looks_like_option t).
  - destruct (find_action parser t) as [a|].
    + destruct (takes_value a).
      * destruct rest as [|v rest']; [done|].
        destruct (looks_like_option v); [done|].
        destruct (check_choice a v); [|done].
        eapply IH; [|reflexivity|by apply set_attr_keeps]. simpl. lia.
      * eapply IH; [|reflexivity|by apply set_attr_keeps]. simpl. lia.
    + eapply IH; [|reflexivity|done]. simpl. lia.
  - eapply IH; [|reflexivity|done]. simpl. lia.
Qed.

Lemma match_positionals_keeps_attributes pos_actions args ns d :
  is_Some (ns !! d) →
  is_Some ((match_positionals pos_actions args ns).1.1 !! d).
Proof.
  revert args ns. induction pos_actions as [|a pos IH]; intros args ns Hd.
  { done. }
  assert (∀ v, is_Some (<[dest a := v]> ns !! d)) as Hins.
  { intros v. apply lookup_insert_is_Some.
    destruct (decide (dest a = d)); auto. }
  cbn [match_positionals]. destruct (nargs a).
  - destruct args as [|x args']; [done|]. by apply IH.
  - destruct args as [|x args']; by apply IH.
  - by apply IH.
Qed.

Lemma parse_args_keeps_attributes parser cl_args options a :
  parse_args parser cl_args = inr options →
  a ∈ parser → is_Some (options !! dest a).
Proof.
  unfold parse_args. intros H Ha.
  pose proof (consume_keeps_attributes parser cl_args (initial_state parser)
                (dest a) (init_namespace_has_dest parser a Ha)) as Hc.
  destruct (consume parser cl_args (initial_state parser)) as [st [e|]];
    [discriminate H|].
  pose proof (match_positionals_keeps_attributes
                (List.filter is_positional parser) (positionals st)
                (namespace st) (dest a) Hc) as Hm.
  destruct (match_positionals _ _ _) as [[ns left_over] [e|]];
    [discriminate H|].
  destruct (left_over ++ extras st); [|discriminate H].
  by injection H as <-.
Qed.

(** X13: a namespace parsed by the parser of [_make_arg_parser] always
    holds the attributes [runner], [help], [script_or_jar], [args] and
    [deprecated] that [main], [_get_step] and [_print_help] read, and every
    spark-submit option that is no runner option ([main_class] among them,
    by the comment on [_STEP_OPT_NAMES]): reading them never raises
    [AttributeError]. *)
Theorem parsed_namespace_has_the_attributes_read
    (RO : gmap string (list (list string * gmap string value)))
    (basic : list (list string * gmap string value))
    (parser : list Action) (cl_args : list string)
    (options : gmap string value) :
  _make_arg_parser RO basic = Ok parser →
  parse_args parser cl_args = inr options →
  Forall (λ name, is_Some (options !! name))
    ["script_or_jar"; "args"; "runner"; "help"; "deprecated"] ∧
  (∀ opt_name, opt_name ∈ _SPARK_SUBMIT_OPT_NAMES → opt_name ∉ dom RO →
     is_Some (options !! opt_name)).
Proof.
  intros Hp Hparse.
  pose proof (parse_args_keeps_attributes parser cl_args options) as Hk.
  specialize (λ a, Hk a Hparse). clear Hparse.
  destruct (positionals_registered RO basic parser Hp) as [rest Hpos].
  destruct (own_switch_registered RO basic parser Hp) as (Hr & Hh & Hd).
  destruct (Hr "-r") as (ar & _ & Har & _ & Hdr & _);
    [apply list_elem_of_here|].
  destruct (Hh "-h") as (ah & _ & Hah & _ & Hdh & _);
    [apply list_elem_of_here|].
  destruct Hd as (ad & _ & Had & _ & Hdd & _).
  split.
  - repeat apply Forall_cons_2; [| | | | |apply Forall_nil_2].
    + apply (Hk script_or_jar_positional). rewrite Hpos.
      apply list_elem_of_here.
    + apply (Hk args_positional). rewrite Hpos.
      apply list_elem_of_further, list_elem_of_here.
    + rewrite <- Hdr. by apply Hk.
    + rewrite <- Hdh. by apply Hk.
    + rewrite <- Hdd. by apply Hk.
  - intros opt_name Hin Hno.
    destruct (spark_submit_switch opt_name) as [switch|] eqn:E.
    2:{ apply spark_submit_switch_None in E. destruct (E Hin). }
    apply spark_submit_switch_Some in E.
    destruct (spark_switch_registered RO basic parser opt_name switch Hp E)
      as (a & Hf & Hda & _); [by apply not_elem_of_dom|].
    apply find_action_has_switch in Hf as [_ Ha].
    rewrite <- Hda. by apply Hk.
Qed.

Lemma parsed_namespace_has_the_attributes_read_witness :
  Forall (λ name, is_Some (switches_only_options !! name))
    ["script_or_jar"; "args"; "runner"; "help"; "deprecated"].
Proof.
  exact (proj1 (parsed_namespace_has_the_attributes_read
                  sample_RUNNER_OPTS sample_basic_args sample_parser
                  switches_only switches_only_options
                  sample_parser_built switches_only_parsed)).
Defined.

(** * What every registration keeps *)

Section registrations.
Context (I : list Action → Prop).
Hypothesis I_add :
  ∀ p strs kw p', add_argument p strs kw = Ok p' → I p → I p'.
Context (RO : gmap string (list (list string * gmap string value))).
Context (basic : list (list string * gmap string value)).

Lemma _add_basic_args_preserves p p' :
  _add_basic_args basic p = Ok p' → I p → I p'.
Proof.
  intros H Hp. refine (for_each_preserves _ I _ _ _ _ Hp H).
  intros q call q'. apply I_add.
Qed.

Lemma _add_runner_args_preserves names p p' :
  _add_runner_args RO p names = Ok p' → I p → I p'.
Proof.
  intros H Hp. refine (for_each_preserves _ I _ _ _ _ Hp H).
  intros q opt_name q' Hq Iq. apply rbind_Ok in Hq as (sws & _ & Hq).
  refine (for_each_preserves _ I _ _ _ _ Iq Hq).
  intros q1 sw q2. apply I_add.
Qed.

Lemma _add_spark_submit_arg_preserves p opt_name p' :
  _add_spark_submit_arg RO p opt_name = Ok p' → I p → I p'.
Proof.
  unfold _add_spark_submit_arg.
  destruct (spark_submit_switch opt_name); [|discriminate].
  intros H. apply rbind_Ok in H as (h & _ & H). revert H. apply I_add.
Qed.

Lemma make_arg_parser_preserves parser :
  _make_arg_parser RO basic = Ok parser → I [] → I parser.
Proof.
  unfold _make_arg_parser. intros H I0.
  apply rbind_Ok in H as (p1 & H1 & H). apply I_add in H1; [|exact I0].
  apply rbind_Ok in H as (p2 & H2 & H). apply I_add in H2; [|exact H1].
  apply rbind_Ok in H as (p3 & H3 & H).
  apply _add_basic_args_preserves in H3; [|exact H2].
  apply rbind_Ok in H as (p4 & H4 & H). apply I_add in H4; [|exact H3].
  apply rbind_Ok in H as (p5 & H5 & H). apply I_add in H5; [|exact H4].
  apply rbind_Ok in H as (p6 & H6 & H). apply I_add in H6; [|exact H5].
  apply rbind_Ok in H as (p7 & H7 & H).
  apply _add_runner_args_preserves in H7; [|exact H6].
  refine (for_each_preserves _ I _ _ _ _ H7 H).
  intros q [opt_name switch] q'. unfold add_spark_specific_opt.
  destruct (_ && _); [by intros [= <-]|].
  apply _add_spark_submit_arg_preserves.
Qed.

Lemma make_basic_help_parser_preserves d hp :
  _make_basic_help_parser RO basic d = Ok hp → I [] → I hp.
Proof.
  unfold _make_basic_help_parser. intros H I0.
  apply rbind_Ok in H as (p1 & H1 & H). apply I_add in H1; [|exact I0].
  refine (for_each_preserves _ I _ _ _ _ H1 H).
  intros q [group_desc opt_names] q' Hq Iq.
  apply rbind_Ok in Hq as (q1 & Hq1 & Hq).
  assert (I q1) as Iq1.
  { refine (for_each_preserves _ I _ _ _ _ Iq Hq1).
    intros p o p'. apply _add_spark_submit_arg_preserves. }
  destruct group_desc as [desc|]; [by injection Hq as <-|].
  apply rbind_Ok in Hq as (q2 & Hq2 & Hq).
  apply _add_basic_args_preserves in Hq2; [|exact Iq1].
  apply rbind_Ok in Hq as (q3 & Hq3 & Hq). apply I_add in Hq3; [|exact Hq2].
  destruct (truthy d); [|by injection Hq as <-].
  revert Hq3. revert Hq. apply I_add.
Qed.

End registrations.

(** * No switch has two meanings *)

Lemma add_argument_unambiguous parser strs kw parser' :
  add_argument parser strs kw = Ok parser' →
  unambiguous parser → unambiguous parser'.
Proof.
  intros (d & act & n & ch & _ & _ & _ & _ & Hfree & ->)%add_argument_Ok_full
         Hu.
  rewrite Forall_forall in Hfree.
  assert (∀ i b s, parser !! i = Some b → s ∈ option_strings b →
                   s ∈ strs → False) as Hclash.
  { intros i b s Hb Hs Hin.
    destruct (find_action_Some_elem parser s b) as [x Hx];
      [by eapply list_elem_of_lookup_2 | done |].
    rewrite (Hfree s Hin) in Hx. discriminate Hx. }
  intros i j a b s Ha Hb Hsa Hsb.
  apply lookup_snoc_Some in Ha as [[Hi Ha] | [-> <-]];
    apply lookup_snoc_Some in Hb as [[Hj Hb] | [-> <-]].
  - by eapply Hu.
  - exfalso. by eapply Hclash.
  - exfalso. by eapply Hclash.
  - reflexivity.
Qed.

Lemma unambiguous_nil : unambiguous [].
Proof. intros i j a b s H. by rewrite lookup_nil in H. Qed.

Lemma unambiguous_find parser s a :
  unambiguous parser →
  find_action parser s = Some a ↔ a ∈ parser ∧ s ∈ option_strings a.
Proof.
  intros Hu. split.
  - intros [Hs Ha]%find_action_has_switch. split; [done|].
    by apply str_in_true.
  - intros [Ha Hs].
    destruct (find_action_Some_elem parser s a Ha Hs) as [b Hb].
    rewrite Hb. f_equal.
    apply find_action_has_switch in Hb as [Hsb Hb].
    apply str_in_true in Hsb.
    apply list_elem_of_lookup in Ha as [i Hi].
    apply list_elem_of_lookup in Hb as [j Hj].
    assert (j = i) as -> by (by eapply Hu). congruence.
Qed.

(** X14: in a parser [_make_arg_parser] has built no switch is the
    spelling of two actions, whatever the imported tables hold (a clash
    makes the construction raise); so a switch on the command line reaches
    the one action that carries it. *)
Theorem parser_switches_are_unambiguous
    (RO : gmap string (list (list string * gmap string value)))
    (basic : list (list string * gmap string value))
    (parser : list Action) :
  _make_arg_parser RO basic = Ok parser →
  unambiguous parser ∧
  ∀ s a, find_action parser s = Some a ↔ a ∈ parser ∧ s ∈ option_strings a.
Proof.
  intros Hp.
  assert (unambiguous parser) as Hu.
  { refine (make_arg_parser_preserves unambiguous _ RO basic parser Hp
              unambiguous_nil).
    intros p strs kw p'. apply add_argument_unambiguous. }
  split; [exact Hu|]. intros s a. by apply unambiguous_find.
Qed.

Lemma parser_switches_are_unambiguous_witness : unambiguous sample_parser.
Proof.
  exact (proj1 (parser_switches_are_unambiguous sample_RUNNER_OPTS
                  sample_basic_args sample_parser sample_parser_built)).
Defined.

(** * The switches of the basic help *)

Lemma group_switches_bind opt_names :
  group_switches opt_names
  = opt_names ≫= λ opt_name, option_list (spark_submit_switch opt_name).
Proof.
  unfold group_switches. induction opt_names as [|o names IH]; [done|].
  cbn [omap list_omap]. rewrite bind_cons, <- IH.
  by destruct (spark_submit_switch o).
Qed.

Section basic_help.
Context (RO : gmap string (list (list string * gmap string value))).
Context (basic : list (list string * gmap string value)).

Lemma _add_spark_submit_arg_switches p opt_name p' :
  _add_spark_submit_arg RO p opt_name = Ok p' →
  switches_of p' = switches_of p ++ option_list (spark_submit_switch opt_name).
Proof.
  intros (switch & h & d & act & n & ch & Hin & _ & _ & _ & _ & _ & _ & ->)
           %spark_submit_arg_Ok_full.
  rewrite (spark_submit_switch_elem _ _ Hin), switches_of_app.
  unfold switches_of at 2. reflexivity.
Qed.

Lemma _add_basic_args_switches p p' :
  _add_basic_args basic p = Ok p' →
  switches_of p' = switches_of p ++ (basic ≫= fst).
Proof.
  apply for_each_switches. intros q call q'. apply add_argument_switches.
Qed.

Lemma help_group_round d hp group hp' :
  (let '(group_desc, opt_names) := group in
   help_parser <- for_each opt_names (_add_spark_submit_arg RO) hp ;;
   match group_desc with
   | None =>
       help_parser <- _add_basic_args basic help_parser ;;
       help_parser <- _add_help_arg help_parser ;;
       if truthy d then _add_deprecated_arg help_parser else Ok help_parser
   | Some _ => Ok help_parser
   end) = Ok hp' →
  switches_of hp' = switches_of hp ++ help_group_switches basic d group.
Proof.
  destruct group as [group_desc opt_names]. intros H.
  apply rbind_Ok in H as (q & Hq & H).
  apply (for_each_switches _ _ _ _ _ _add_spark_submit_arg_switches) in Hq.
  rewrite <- group_switches_bind in Hq.
  unfold help_group_switches. cbn [fst snd].
  destruct group_desc as [desc|].
  - injection H as <-. by rewrite app_nil_r.
  - apply rbind_Ok in H as (q1 & H1 & H). apply rbind_Ok in H as (q2 & H2 & H).
    apply _add_basic_args_switches in H1. apply add_argument_switches in H2.
    destruct (truthy d).
    + apply add_argument_switches in H. rewrite H, H2, H1, Hq.
      by rewrite <- !app_assoc.
    + injection H as <-. rewrite H2, H1, Hq, app_nil_r.
      by rewrite <- !app_assoc.
Qed.

Lemma basic_help_parser_switches d hp :
  _make_basic_help_parser RO basic d = Ok hp →
  switches_of hp
  = ["-r"; "--runner"]
    ++ (_SPARK_SUBMIT_ARG_GROUPS ≫= help_group_switches basic d).
Proof.
  unfold _make_basic_help_parser. intros H.
  apply rbind_Ok in H as (q & Hq & H). apply add_argument_switches in Hq.
  apply (for_each_switches _ (help_group_switches basic d)) in H.
  - by rewrite H, Hq.
  - intros p group p'. apply help_group_round.
Qed.

End basic_help.

Lemma help_groups_unfold basic d :
  _SPARK_SUBMIT_ARG_GROUPS ≫= help_group_switches basic d
  = [ "--deploy-mode"; "--class"; "--name"; "--jars"; "--packages";
      "--exclude-packages"; "--repositories"; "--py-files"; "--files";
      "--cmdenv"; "--conf"; "--properties-file"; "--driver-memory";
      "--driver-java-options"; "--driver-library-path";
      "--driver-class-path"; "--executor-memory"; "--proxy-user" ]
    ++ (basic ≫= fst)
    ++ ["-h"; "--help"]
    ++ (if truthy d then ["--deprecated"] else [])
    ++ [ "--master"; "--driver-cores"; "--supervise";
         "--total-executor-cores"; "--executor-cores"; "--queue";
         "--num-executors"; "--archives"; "--dirs"; "--principal";
         "--keytab" ].
Proof.
  unfold _SPARK_SUBMIT_ARG_GROUPS, help_group_switches.
  cbn [mbind list_bind fst snd]. rewrite !app_nil_r.
  rewrite <- !app_assoc. reflexivity.
Qed.

(** Every switch of [_SPARK_SUBMIT_SWITCHES] is that of an option of some
    group. *)
Lemma spark_switches_grouped :
  Forall (λ item : string * string,
            item.2 ∈ [ "--deploy-mode"; "--class"; "--name"; "--jars";
                       "--packages"; "--exclude-packages"; "--repositories";
                       "--py-files"; "--files"; "--cmdenv"; "--conf";
                       "--properties-file"; "--driver-memory";
                       "--driver-java-options"; "--driver-library-path";
                       "--driver-class-path"; "--executor-memory";
                       "--proxy-user" ]
                     ++ [ "--master"; "--driver-cores"; "--supervise";
                          "--total-executor-cores"; "--executor-cores";
                          "--queue"; "--num-executors"; "--archives";
                          "--dirs"; "--principal"; "--keytab" ])
    _SPARK_SUBMIT_SWITCHES.
Proof. compute_done. Qed.

(** X15: whatever the runner options and whether or not deprecated options
    are included, the basic help parser lists, in this order: [-r] and
    [--runner]; the eighteen spark-submit switches of the first group; the
    basic switches; [-h] and [--help]; [--deprecated] when deprecated
    options are included; and the eleven switches of the titled groups.
    Every switch of [_SPARK_SUBMIT_SWITCHES] is listed once. *)
Theorem basic_help_lists_switches_in_group_order
    (RO : gmap string (list (list string * gmap string value)))
    (basic : list (list string * gmap string value))
    (d : value) (hp : list Action) :
  _make_basic_help_parser RO basic d = Ok hp →
  switches_of hp
  = ["-r"; "--runner"]
    ++ [ "--deploy-mode"; "--class"; "--name"; "--jars"; "--packages";
         "--exclude-packages"; "--repositories"; "--py-files"; "--files";
         "--cmdenv"; "--conf"; "--properties-file"; "--driver-memory";
         "--driver-java-options"; "--driver-library-path";
         "--driver-class-path"; "--executor-memory"; "--proxy-user" ]
    ++ (basic ≫= fst)
    ++ ["-h"; "--help"]
    ++ (if truthy d then ["--deprecated"] else [])
    ++ [ "--master"; "--driver-cores"; "--supervise";
         "--total-executor-cores"; "--executor-cores"; "--queue";
         "--num-executors"; "--archives"; "--dirs"; "--principal";
         "--keytab" ] ∧
  (∀ opt_name switch, (opt_name, switch) ∈ _SPARK_SUBMIT_SWITCHES →
     ∃ a, find_action hp switch = Some a) ∧
  unambiguous hp.
Proof.
  intros Hhp.
  pose proof (basic_help_parser_switches RO basic d hp Hhp) as Hsw.
  rewrite help_groups_unfold in Hsw. split; [exact Hsw|]. split.
  - intros opt_name switch Hin.
    apply registered_switches_of. rewrite Hsw. clear Hsw Hhp.
    pose proof spark_switches_grouped as Hall.
    rewrite Forall_forall in Hall. specialize (Hall _ Hin). cbn [snd] in Hall.
    rewrite !elem_of_app. rewrite elem_of_app in Hall. tauto.
  - refine (make_basic_help_parser_preserves unambiguous _ RO basic d hp Hhp
              unambiguous_nil).
    intros p strs kw p'. apply add_argument_unambiguous.
Qed.

Lemma basic_help_lists_switches_in_group_order_witness :
  switches_of sample_help_parser
  = [ "-r"; "--runner"; "--deploy-mode"; "--class"; "--name"; "--jars";
      "--packages"; "--exclude-packages"; "--repositories"; "--py-files";
      "--files"; "--cmdenv"; "--conf"; "--properties-file";
      "--driver-memory"; "--driver-java-options"; "--driver-library-path";
      "--driver-class-path"; "--executor-memory"; "--proxy-user";
      "-q"; "--quiet"; "-v"; "--verbose"; "-h"; "--help";
      "--master"; "--driver-cores"; "--supervise";
      "--total-executor-cores"; "--executor-cores"; "--queue";
      "--num-executors"; "--archives"; "--dirs"; "--principal"; "--keytab" ].
Proof.
  exact (proj1 (basic_help_lists_switches_in_group_order sample_RUNNER_OPTS
                  sample_basic_args (VBool false) sample_help_parser
                  sample_help_parser_built)).
Defined.

(** X16: when no basic switch is spelled [--deprecated], [_print_basic_help]
    prints the help screen first and then the note that points to
    [--deprecated] exactly when the screen does not list that switch, that
    is, when deprecated options are not included; it prints nothing else. *)
Theorem deprecated_note_iff_switch_hidden
    (RO : gmap string (list (list string * gmap string value)))
    (basic : list (list string * gmap string value))
    (d : value) (log : list event) :
  (∀ call, call ∈ basic → "--deprecated" ∉ call.1) →
  _print_basic_help RO basic d = (log, Ok tt) →
  ∃ hp,
    _make_basic_help_parser RO basic d = Ok hp ∧
    (log = [print_help hp] ∨
     log = [print_help hp; print ""; print _DEPRECATED_OPT_HELP]) ∧
    (print _DEPRECATED_OPT_HELP ∈ log ↔ "--deprecated" ∉ switches_of hp) ∧
    ("--deprecated" ∈ switches_of hp ↔ truthy d = true).
Proof.
  intros Hbasic. unfold _print_basic_help.
  destruct (_make_basic_help_parser RO basic d) as [hp|e] eqn:Hhp;
    [|discriminate].
  rewrite pbind_lift_Ok, pbind_emit.
  pose proof (basic_help_parser_switches RO basic d hp Hhp) as Hsw.
  rewrite help_groups_unfold in Hsw. clear Hhp.
  assert ("--deprecated" ∉ basic ≫= fst) as Hb.
  { intros (call & Hin & Hcall)%list_elem_of_bind. by eapply Hbasic. }
  assert ("--deprecated" ∈ switches_of hp ↔ truthy d = true) as Hiff.
  { rewrite Hsw, !elem_of_app. destruct (truthy d).
    - split; [done|]. intros _. do 4 right. left. apply list_elem_of_here.
    - split; [|done].
      intros [H | [H | [H | [H | [H | H]]]]]; try done; revert H; clear;
        compute_done. }
  intros Hlog. exists hp. split; [reflexivity|].
  destruct (truthy d) eqn:Hd.
  - injection Hlog as <-. split; [by left|]. split; [|exact Hiff].
    split.
    + intros [=]%list_elem_of_singleton.
    + intros H. destruct H. by apply Hiff.
  - rewrite pbind_emit in Hlog. injection Hlog as <-.
    split; [by right|]. split; [|exact Hiff]. split.
    + intros _ H%Hiff. discriminate H.
    + intros _. do 2 apply list_elem_of_further. apply list_elem_of_here.
Qed.

Lemma deprecated_note_iff_switch_hidden_witness :
  ∃ hp,
    _make_basic_help_parser sample_RUNNER_OPTS sample_basic_args (VBool false)
    = Ok hp ∧
    (basic_help_output sample_help_parser (VBool false) = [print_help hp] ∨
     basic_help_output sample_help_parser (VBool false)
     = [print_help hp; print ""; print _DEPRECATED_OPT_HELP]) ∧
    (print _DEPRECATED_OPT_HELP
       ∈ basic_help_output sample_help_parser (VBool false)
     ↔ "--deprecated" ∉ switches_of hp) ∧
    ("--deprecated" ∈ switches_of hp ↔ truthy (VBool false) = true).
Proof.
  apply (deprecated_note_iff_switch_hidden sample_RUNNER_OPTS
           sample_basic_args).
  - intros call Hin. revert call Hin. apply Forall_forall. compute_done.
  - apply print_basic_help_eq. exact sample_help_parser_built.
Defined.

(** * The switches of spark-submit in the parser *)

Section spark_switches.
Context (RO : gmap string (list (list string * gmap string value))).
Context (basic : list (list string * gmap string value)).

Lemma spark_switch_action parser opt_name switch :
  _make_arg_parser RO basic = Ok parser →
  (opt_name, switch) ∈ _SPARK_SUBMIT_SWITCHES →
  RO !! opt_name = None ∨ is_Some (_SWITCH_ALIASES !! switch) →
  ∃ a h, find_action parser switch = Some a ∧
         option_strings a = [switch] ∧
         _SPARK_SUBMIT_ARG_HELP !! opt_name = Some h ∧
         help a = Some (VStr h).
Proof.
  intros (p0 & p1 & p2 & p3 & _ & _ & _ & Hloop)%make_arg_parser_stages
         Hin Hcase.
  refine (for_each_elem _ (add_spark_specific_opt_grows RO)
            (λ q, ∃ a h, find_action q switch = Some a ∧
                         option_strings a = [switch] ∧
                         _SPARK_SUBMIT_ARG_HELP !! opt_name = Some h ∧
                         help a = Some (VStr h))
            (opt_name, switch) _ _ _ _ _ Hin Hloop).
  - intros q q' Hg (a & h & Hf & ?). exists a, h. split; [|done].
    by eapply find_action_grows.
  - intros q q'. unfold add_spark_specific_opt.
    assert (bool_decide (is_Some (RO !! opt_name))
            && bool_decide (_SWITCH_ALIASES !! switch = None) = false) as ->.
    { destruct Hcase as [Hno | [native Hal]].
      - rewrite (bool_decide_eq_false_2 (is_Some (RO !! opt_name))); [done|].
        rewrite Hno. by intros [? ?].
      - rewrite (bool_decide_eq_false_2 (_SWITCH_ALIASES !! switch = None)).
        + apply andb_false_r.
        + by rewrite Hal. }
    intros (sw & h & d & act & n & ch & Hin' & Hh & _ & _ & _ & _ & Hfree & ->)
             %spark_submit_arg_Ok_full.
    apply spark_submit_switch_elem in Hin, Hin'.
    rewrite Hin in Hin'. injection Hin' as <-.
    eexists _, h. split.
    { apply find_action_last; [exact Hfree|]. apply list_elem_of_here. }
    split; [reflexivity|]. split; [exact Hh|]. cbn [help].
    rewrite final_kwargs_lookup. rewrite decide_False by (by intros [_ [=]]).
    by rewrite decide_True.
Qed.

End spark_switches.

(** X17: the parser of [_make_arg_parser] accepts every spark-submit switch
    whose option is no runner option, and each of the four aliased
    switches ([--master], [--deploy-mode], [--jars], [--conf]) in any
    case: the switch reaches an action spelled with it alone, which
    carries spark-submit's help text; when the option is no runner option
    the action stores one value under the option's name (the flag
    [--supervise] stores [True]). *)
Theorem spark_submit_switches_are_accepted
    (RO : gmap string (list (list string * gmap string value)))
    (basic : list (list string * gmap string value))
    (parser : list Action) (opt_name switch : string) :
  _make_arg_parser RO basic = Ok parser →
  (opt_name, switch) ∈ _SPARK_SUBMIT_SWITCHES →
  RO !! opt_name = None ∨ is_Some (_SWITCH_ALIASES !! switch) →
  ∃ a h, find_action parser switch = Some a ∧
         option_strings a = [switch] ∧
         _SPARK_SUBMIT_ARG_HELP !! opt_name = Some h ∧
         help a = Some (VStr h) ∧
         (RO !! opt_name = None →
          dest a = opt_name ∧ choices a = None ∧
          action a = (if decide (opt_name = "supervise")
                      then StoreConst (VBool true) else Store)).
Proof.
  intros Hp Hin Hcase.
  destruct (spark_switch_action RO basic parser opt_name switch Hp Hin Hcase)
    as (a & h & Hf & Hs & Hh & Hha).
  exists a, h. split; [exact Hf|]. split; [exact Hs|]. split; [exact Hh|].
  split; [exact Hha|]. intros Hno.
  destruct (spark_switch_registered RO basic parser opt_name switch Hp Hin
              Hno) as (a' & Hf' & Hd & Hact & Hch).
  clear Hp. rewrite Hf in Hf'. injection Hf' as <-.
  split; [exact Hd|]. split; [exact Hch | exact Hact].
Qed.

Lemma spark_submit_switches_are_accepted_witness :
  ∃ a h, find_action sample_parser "--conf" = Some a ∧
         option_strings a = ["--conf"] ∧
         _SPARK_SUBMIT_ARG_HELP !! "jobconf" = Some h ∧
         help a = Some (VStr h) ∧
         (sample_RUNNER_OPTS !! "jobconf" = None →
          dest a = "jobconf" ∧ choices a = None ∧
          action a = (if decide ("jobconf" = "supervise")
                      then StoreConst (VBool true) else Store)).
Proof.
  apply (spark_submit_switches_are_accepted sample_RUNNER_OPTS
           sample_basic_args).
  - exact sample_parser_built.
  - compute_done.
  - right. by eexists.
Defined.

(** * The case of the target *)

(** X18: the kind of step depends on the target only through its
    lower-cased form, and the step (or the error message) carries the
    target as typed: two targets that differ in case only give the same
    kind of step, or are both refused. *)
Theorem step_kind_ignores_case
    (RO : gmap string (list (list string * gmap string value)))
    (options : gmap string value) (parser : list Action)
    (cl_args : list string) (p1 p2 : string) (args mc : value) :
  options !! "args" = Some args →
  options !! "main_class" = Some mc →
  lower p1 = lower p2 →
  let step_for target :=
    _get_step RO (<["script_or_jar" := VStr target]> options) parser cl_args in
  let spark_args := _get_spark_args RO parser cl_args in
  match step_for p1 with
  | Ok (SparkJarStep _ _ _ _) =>
      step_for p2 = Ok (SparkJarStep args p2 mc spark_args)
  | Ok (SparkScriptStep _ _ _) =>
      step_for p2 = Ok (SparkScriptStep args p2 spark_args)
  | Raise _ =>
      step_for p2
      = Raise (ValueError (p2 +:+ " appears not to be a JAR or Python script"))
  end.
Proof.
  intros Ha Hm Hlow step_for spark_args. unfold step_for.
  rewrite !(get_step_unfold RO _ parser cl_args _ args mc)
    by (by simplify_map_eq).
  unfold classify_target. rewrite Hlow. fold spark_args.
  destruct (endswith (lower p2) ".jar"); [reflexivity|].
  destruct (startswith _ "py"); reflexivity.
Qed.

Lemma step_kind_ignores_case_witness :
  _get_step no_RUNNER_OPTS
    (<["script_or_jar" := VStr "job.py"]>
       (list_to_map [ ("args", VList []); ("main_class", VNone) ])) [] []
  = Ok (SparkScriptStep (VList []) "job.py" []).
Proof.
  exact (step_kind_ignores_case no_RUNNER_OPTS
           (list_to_map [ ("args", VList []); ("main_class", VNone) ]) [] []
           "JOB.PY" "job.py" (VList []) VNone eq_refl eq_refl eq_refl).
Defined.

(** * Clashes with the switches of the module *)

(** A registration whose keywords are in order can only fail on a clash. *)
Lemma add_argument_only_clashes p strs kw d act n ch e :
  forallb (λ s, startswith s "-") strs = true →
  kw_dest strs kw = Ok d → kw_action kw = Ok act →
  forallb (λ k, str_in k known_keywords) (elements (dom kw)) = true →
  kw_nargs kw = Ok n → kw_choices kw = Ok ch →
  add_argument p strs kw = Raise e →
  e = ArgumentError "conflicting option string".
Proof.
  intros H1 H2 H3 H4 H5 H6. unfold add_argument.
  rewrite H1, H2, H3. cbn [negb rbind]. rewrite H4, H5, H6. cbn [negb rbind].
  destruct (existsb (registered p) strs); [by intros [= <-] | discriminate].
Qed.

(** The module's own registrations are of that kind. *)
Lemma own_registrations_cases p :
  ((∃ p', _add_runner_alias_arg p = Ok p') ∨
   _add_runner_alias_arg p = Raise (ArgumentError "conflicting option string"))
  ∧
  ((∃ p', _add_help_arg p = Ok p') ∨
   _add_help_arg p = Raise (ArgumentError "conflicting option string")) ∧
  ((∃ p', _add_deprecated_arg p = Ok p') ∨
   _add_deprecated_arg p = Raise (ArgumentError "conflicting option string")).
Proof.
  unfold _add_runner_alias_arg, _add_help_arg, _add_deprecated_arg.
  split_and!.
  all: match goal with
       | |- _ ∨ add_argument ?q ?strs ?kw = _ =>
           destruct (add_argument q strs kw) as [p'|e] eqn:E;
           [left; by exists p'|right; f_equal]
       end.
  all: revert E; eapply add_argument_only_clashes; vm_compute; reflexivity.
Qed.

(** X19: a basic switch spelled like one of the module's own switches
    ([-r], [--runner], [-h], [--help], [--deprecated]) makes
    [_make_arg_parser] raise the conflict error of [add_argument]: the
    parser is never built with a switch of two meanings. *)
Theorem clash_with_own_switch_stops_construction
    (RO : gmap string (list (list string * gmap string value)))
    (basic : list (list string * gmap string value))
    (p_basic : list Action) (call : list string * gmap string value)
    (s : string) :
  _add_basic_args basic [script_or_jar_positional; args_positional]
  = Ok p_basic →
  call ∈ basic → s ∈ call.1 →
  s ∈ ["-r"; "--runner"; "-h"; "--help"; "--deprecated"] →
  _make_arg_parser RO basic
  = Raise (ArgumentError "conflicting option string").
Proof.
  intros Hb Hcall Hs Hown.
  assert (is_Some (find_action p_basic s)) as Hreg.
  { apply registered_switches_of.
    assert (switches_of p_basic
            = switches_of [script_or_jar_positional; args_positional]
              ++ (basic ≫= fst)) as ->.
    { revert Hb. apply for_each_switches. intros q c q'.
      apply add_argument_switches. }
    apply elem_of_app. right. apply list_elem_of_bind. by exists call. }
  assert (∀ p_alias p_help p_dep,
            _add_runner_alias_arg p_basic = Ok p_alias →
            _add_help_arg p_alias = Ok p_help →
            _add_deprecated_arg p_help = Ok p_dep → False) as Hclash.
  { intros p_alias p_help p_dep Ha Hh Hd.
    pose proof (add_argument_grows _ _ _ _ Ha) as Ga.
    pose proof (add_argument_grows _ _ _ _ Hh) as Gh.
    apply add_argument_Ok in Ha as (_ & _ & _ & _ & _ & _ & _ & Fa & _).
    apply add_argument_Ok in Hh as (_ & _ & _ & _ & _ & _ & _ & Fh & _).
    apply add_argument_Ok in Hd as (_ & _ & _ & _ & _ & _ & _ & Fd & _).
    rewrite Forall_forall in Fa, Fh, Fd.
    destruct Hreg as [a Hf].
    pose proof (find_action_grows _ _ _ _ Ga Hf) as Hf1.
    pose proof (find_action_grows _ _ _ _ Gh Hf1) as Hf2.
    apply elem_of_cons in Hown as [-> | Hown].
    { rewrite Fa in Hf; [discriminate Hf | apply list_elem_of_here]. }
    apply elem_of_cons in Hown as [-> | Hown].
    { rewrite Fa in Hf; [discriminate Hf|].
      apply list_elem_of_further, list_elem_of_here. }
    apply elem_of_cons in Hown as [-> | Hown].
    { rewrite Fh in Hf1; [discriminate Hf1 | apply list_elem_of_here]. }
    apply elem_of_cons in Hown as [-> | Hown].
    { rewrite Fh in Hf1; [discriminate Hf1|].
      apply list_elem_of_further, list_elem_of_here. }
    apply list_elem_of_singleton in Hown as ->.
    rewrite Fd in Hf2; [discriminate Hf2 | apply list_elem_of_here]. }
  clear Hreg Hcall Hs Hown.
  unfold _make_arg_parser.
  destruct make_arg_parser_positionals as [E1 E2].
  rewrite E1. cbn [rbind]. rewrite E2. cbn [rbind]. rewrite Hb. cbn [rbind].
  destruct (own_registrations_cases p_basic) as ([[p_alias Ha] | Ha] & _ & _);
    rewrite Ha; cbn [rbind]; [|reflexivity].
  destruct (own_registrations_cases p_alias) as (_ & [[p_help Hh] | Hh] & _);
    rewrite Hh; cbn [rbind]; [|reflexivity].
  destruct (own_registrations_cases p_help) as (_ & _ & [[p_dep Hd] | Hd]);
    rewrite Hd; cbn [rbind]; [|reflexivity].
  destruct (Hclash _ _ _ Ha Hh Hd).
Qed.

Lemma clashing_basic_parser_built :
  _add_basic_args clashing_basic_args
    [script_or_jar_positional; args_positional]
  = Ok clashing_basic_parser.
Proof. vm_compute. reflexivity. Qed.

Lemma clash_with_own_switch_stops_construction_witness :
  _make_arg_parser no_RUNNER_OPTS clashing_basic_args
  = Raise (ArgumentError "conflicting option string").
Proof.
  apply (clash_with_own_switch_stops_construction no_RUNNER_OPTS
           clashing_basic_args clashing_basic_parser
           (["-r"; "--recursive"], {[ "action" := VStr "store_true" ]}) "-r").
  - exact clashing_basic_parser_built.
  - apply list_elem_of_here.
  - apply list_elem_of_here.
  - apply list_elem_of_here.
Defined.

(** * The switches of the parser, in registration order *)

Lemma bind_filter_fmap {A B} (P : A → Prop) `{!∀ x, Decision (P x)}
    (f : A → B) (l : list A) :
  l ≫= (λ x, if decide (P x) then [f x] else []) = f <$> filter P l.
Proof.
  induction l as [|x l IH]; [done|].
  rewrite bind_cons, filter_cons, IH. by destruct (decide (P x)).
Qed.

Lemma for_each_switches_elem {A}
    (body : list Action → A → result (list Action))
    (added : A → list string) xs p p' :
  (∀ q x q', x ∈ xs → body q x = Ok q' →
             switches_of q' = switches_of q ++ added x) →
  for_each xs body p = Ok p' →
  switches_of p' = switches_of p ++ (xs ≫= added).
Proof.
  revert p. induction xs as [|x xs IH]; intros p Hbody H; simpl in H.
  - injection H as <-. by rewrite app_nil_r.
  - apply rbind_Ok in H as (q & Hq & H).
    rewrite (IH q);
      [|intros; eapply Hbody; [by apply list_elem_of_further | done]
       |exact H].
    rewrite (Hbody _ _ _ (list_elem_of_here _ _) Hq). by rewrite <- app_assoc.
Qed.

Section parser_switches.
Context (RO : gmap string (list (list string * gmap string value))).
Context (basic : list (list string * gmap string value)).

Lemma add_spark_specific_opt_switches p item p' :
  item ∈ _SPARK_SUBMIT_SWITCHES →
  add_spark_specific_opt RO p item = Ok p' →
  switches_of p'
  = switches_of p
    ++ (if decide (item.1 ∉ dom RO ∨ item.2 ∈ dom _SWITCH_ALIASES)
        then [item.2] else []).
Proof.
  destruct item as [opt_name switch]. intros Hitem.
  unfold add_spark_specific_opt. cbn [fst snd].
  destruct (decide (opt_name ∉ dom RO ∨ switch ∈ dom _SWITCH_ALIASES))
    as [Hadd|Hskip].
  - assert (bool_decide (is_Some (RO !! opt_name))
            && bool_decide (_SWITCH_ALIASES !! switch = None) = false) as ->.
    { destruct Hadd as [Hno | Hal].
      - rewrite (bool_decide_eq_false_2 (is_Some (RO !! opt_name))); [done|].
        by rewrite <- elem_of_dom.
      - rewrite (bool_decide_eq_false_2 (_SWITCH_ALIASES !! switch = None)).
        + apply andb_false_r.
        + apply elem_of_dom in Hal as [? Hal]. by rewrite Hal. }
    intros (sw & h & d & act & n & ch & Hin & _ & _ & _ & _ & _ & _ & ->)
             %spark_submit_arg_Ok_full.
    apply spark_submit_switch_elem in Hitem, Hin.
    rewrite Hitem in Hin. injection Hin as <-.
    rewrite switches_of_app. reflexivity.
  - assert (bool_decide (is_Some (RO !! opt_name))
            && bool_decide (_SWITCH_ALIASES !! switch = None) = true) as ->.
    { apply andb_true_iff. split; apply bool_decide_eq_true_2.
      - apply elem_of_dom. destruct (decide (opt_name ∈ dom RO)); [done|].
        destruct Hskip. by left.
      - apply not_elem_of_dom. intros H. destruct Hskip. by right. }
    intros [= <-]. by rewrite app_nil_r.
Qed.

Lemma spark_loop_switches p p' :
  for_each _SPARK_SUBMIT_SWITCHES (add_spark_specific_opt RO) p = Ok p' →
  switches_of p' = switches_of p ++ (spark_specific_items RO).*2.
Proof.
  intros H. unfold spark_specific_items. rewrite <- bind_filter_fmap.
  revert H. apply for_each_switches_elem.
  intros q item q'. apply add_spark_specific_opt_switches.
Qed.

Lemma parser_switches parser :
  _make_arg_parser RO basic = Ok parser →
  ∃ p_own p_runner,
    switches_of p_own
    = (basic ≫= fst) ++ ["-r"; "--runner"; "-h"; "--help"; "--deprecated"] ∧
    _add_runner_args RO p_own (dom RO ∖ dom _HARD_CODED_OPTS) = Ok p_runner ∧
    switches_of parser
    = switches_of p_runner ++ (spark_specific_items RO).*2.
Proof.
  unfold _make_arg_parser. intros H.
  apply rbind_Ok in H as (p1 & H1 & H). apply add_argument_switches in H1.
  apply rbind_Ok in H as (p2 & H2 & H). apply add_argument_switches in H2.
  apply rbind_Ok in H as (p3 & H3 & H).
  apply (for_each_switches _ fst) in H3;
    [|intros q c q'; apply add_argument_switches].
  apply rbind_Ok in H as (p4 & H4 & H). apply add_argument_switches in H4.
  apply rbind_Ok in H as (p5 & H5 & H). apply add_argument_switches in H5.
  apply rbind_Ok in H as (p6 & H6 & H). apply add_argument_switches in H6.
  apply rbind_Ok in H as (p7 & H7 & H).
  apply spark_loop_switches in H.
  exists p6, p7. split; [|split; [exact H7 | exact H]].
  rewrite H6, H5, H4, H3, H2, H1. rewrite !app_nil_r.
  rewrite <- !app_assoc. reflexivity.
Qed.

End parser_switches.

(** X20: the switches of the parser of [_make_arg_parser] are, in
    registration order: the basic switches; [-r], [--runner], [-h],
    [--help], [--deprecated]; what [_add_runner_args] registers for the
    runner options other than those of [_HARD_CODED_OPTS]; and, last, the
    spark-submit switches whose option is no runner option or that have an
    alias, in table order. *)
Theorem parser_lists_switches_in_registration_order
    (RO : gmap string (list (list string * gmap string value)))
    (basic : list (list string * gmap string value))
    (parser : list Action) :
  _make_arg_parser RO basic = Ok parser →
  ∃ p_own p_runner,
    switches_of p_own
    = (basic ≫= fst) ++ ["-r"; "--runner"; "-h"; "--help"; "--deprecated"] ∧
    _add_runner_args RO p_own (dom RO ∖ dom _HARD_CODED_OPTS) = Ok p_runner ∧
    switches_of parser
    = switches_of p_runner
      ++ (filter (λ item, item.1 ∉ dom RO ∨ item.2 ∈ dom _SWITCH_ALIASES)
            _SPARK_SUBMIT_SWITCHES).*2.
Proof. apply parser_switches. Qed.

Lemma parser_lists_switches_in_registration_order_witness :
  ∃ p_own p_runner,
    switches_of p_own
    = (sample_basic_args ≫= fst)
      ++ ["-r"; "--runner"; "-h"; "--help"; "--deprecated"] ∧
    _add_runner_args sample_RUNNER_OPTS p_own
      (dom sample_RUNNER_OPTS ∖ dom _HARD_CODED_OPTS) = Ok p_runner ∧
    switches_of sample_parser
    = switches_of p_runner
      ++ (filter (λ item, item.1 ∉ dom sample_RUNNER_OPTS
                          ∨ item.2 ∈ dom _SWITCH_ALIASES)
            _SPARK_SUBMIT_SWITCHES).*2.
Proof.
  exact (parser_lists_switches_in_registration_order
           sample_RUNNER_OPTS sample_basic_args sample_parser
           sample_parser_built).
Defined.

(** * What the basic help offers and what the parser accepts *)

(** The switches of the groups are those of [_SPARK_SUBMIT_SWITCHES]. *)
Lemma grouped_switches_known :
  Forall (λ s, s ∈ _SPARK_SUBMIT_SWITCHES.*2)
    ([ "--deploy-mode"; "--class"; "--name"; "--jars"; "--packages";
       "--exclude-packages"; "--repositories"; "--py-files"; "--files";
       "--cmdenv"; "--conf"; "--properties-file"; "--driver-memory";
       "--driver-java-options"; "--driver-library-path";
       "--driver-class-path"; "--executor-memory"; "--proxy-user" ]
     ++ [ "--master"; "--driver-cores"; "--supervise";
          "--total-executor-cores"; "--executor-cores"; "--queue";
          "--num-executors"; "--archives"; "--dirs"; "--principal";
          "--keytab" ]).
Proof. compute_done. Qed.

(** X21: every switch the basic help lists is accepted by the parser
    [_make_arg_parser] builds from the same tables, except the spark-submit
    switches of runner options that have no alias, which the parser leaves
    to the runner's own switches. *)
Theorem basic_help_switches_are_accepted
    (RO : gmap string (list (list string * gmap string value)))
    (basic : list (list string * gmap string value))
    (d : value) (hp parser : list Action) (s : string) :
  _make_basic_help_parser RO basic d = Ok hp →
  _make_arg_parser RO basic = Ok parser →
  is_Some (find_action hp s) →
  is_Some (find_action parser s) ∨
  ∃ opt_name, (opt_name, s) ∈ _SPARK_SUBMIT_SWITCHES ∧
              opt_name ∈ dom RO ∧ s ∉ dom _SWITCH_ALIASES.
Proof.
  intros Hhp Hp Hs.
  apply registered_switches_of in Hs.
  rewrite (basic_help_parser_switches RO basic d hp Hhp) in Hs.
  rewrite help_groups_unfold in Hs. clear Hhp.
  destruct (parser_switches RO basic parser Hp)
    as (p_own & p_runner & Hown & Hrun & Hsw).
  clear Hp. rewrite registered_switches_of, Hsw.
  assert (s ∈ switches_of p_own → s ∈ switches_of p_runner) as Hkeep.
  { apply _add_runner_args_grows in Hrun as (l & -> & _).
    rewrite switches_of_app, elem_of_app. by left. }
  rewrite Hown in Hkeep. clear Hown Hrun Hsw.
  assert (s ∈ _SPARK_SUBMIT_SWITCHES.*2 →
          s ∈ (spark_specific_items RO).*2 ∨
          ∃ opt_name, (opt_name, s) ∈ _SPARK_SUBMIT_SWITCHES ∧
                      opt_name ∈ dom RO ∧ s ∉ dom _SWITCH_ALIASES) as Hspark.
  { intros ([opt_name s'] & -> & Hin)%list_elem_of_fmap. cbn [snd].
    destruct (decide (opt_name ∉ dom RO ∨ s' ∈ dom _SWITCH_ALIASES))
      as [Hadd|Hskip].
    - left. apply list_elem_of_fmap. exists (opt_name, s'). split; [done|].
      unfold spark_specific_items. by apply list_elem_of_filter.
    - right. exists opt_name. split; [exact Hin|]. split.
      + destruct (decide (opt_name ∈ dom RO)); [done|]. destruct Hskip.
        by left.
      + intros H. destruct Hskip. by right. }
  pose proof grouped_switches_known as Hknown.
  rewrite Forall_forall in Hknown. specialize (Hknown s).
  rewrite !elem_of_app in *.
  destruct Hs as [Hs | [Hs | [Hs | [Hs | [Hs | Hs]]]]].
  - left. left. apply Hkeep. right.
    apply elem_of_cons in Hs as [-> | Hs]; [(clear; compute_done)|].
    apply list_elem_of_singleton in Hs as ->. (clear; compute_done).
  - destruct (Hspark (Hknown (or_introl Hs))) as [H | H]; [left|]; auto.
  - left. left. apply Hkeep. by left.
  - left. left. apply Hkeep. right.
    apply elem_of_cons in Hs as [-> | Hs]; [(clear; compute_done)|].
    apply list_elem_of_singleton in Hs as ->. (clear; compute_done).
  - left. left. apply Hkeep. right. destruct (truthy d).
    + apply list_elem_of_singleton in Hs as ->. (clear; compute_done).
    + by apply elem_of_nil in Hs.
  - destruct (Hspark (Hknown (or_intror Hs))) as [H | H]; [left|]; auto.
Qed.

Lemma basic_help_switches_are_accepted_witness :
  is_Some (find_action sample_parser "--conf") ∨
  ∃ opt_name, (opt_name, "--conf") ∈ _SPARK_SUBMIT_SWITCHES ∧
              opt_name ∈ dom sample_RUNNER_OPTS ∧
              "--conf" ∉ dom _SWITCH_ALIASES.
Proof.
  apply (basic_help_switches_are_accepted sample_RUNNER_OPTS sample_basic_args
           (VBool false) sample_help_parser).
  - exact sample_help_parser_built.
  - exact sample_parser_built.
  - by eexists.
Defined.
(** * The order-preservation example *)

(** A spark-submit switch belongs to one option. *)
Lemma switch_owner_elem opt_name switch :
  (opt_name, switch) ∈ _SPARK_SUBMIT_SWITCHES →
  List.find (λ kv, String.eqb kv.2 switch) _SPARK_SUBMIT_SWITCHES
  = Some (opt_name, switch).
Proof.
  unfold _SPARK_SUBMIT_SWITCHES. intros H.
  repeat (apply elem_of_cons in H as [[= -> ->] | H]; [reflexivity|]).
  by apply elem_of_nil in H.
Qed.

Section order_example.
Context (RO : gmap string (list (list string * gmap string value))).
Context (basic : list (list string * gmap string value)).

(** What [_add_runner_args] registers writes to runner options. *)
Lemma _add_runner_args_dests names p p' :
  _add_runner_args RO p names = Ok p' →
  ∃ l, p' = p ++ l ∧ Forall (λ a, dest a ∈ dom RO) l.
Proof.
  unfold _add_runner_args.
  apply (for_each_preserves _
           (λ q, ∃ l, q = p ++ l ∧ Forall (λ a, dest a ∈ dom RO) l)).
  - intros q opt_name q' H Iq.
    apply rbind_Ok in H as (switches & Hget & H).
    assert (opt_name ∈ dom RO) as Hdom.
    { unfold getitem in Hget. apply elem_of_dom.
      destruct (RO !! opt_name); [by eexists | discriminate Hget]. }
    clear Hget. revert Iq H.
    apply (for_each_preserves _
             (λ q, ∃ l, q = p ++ l ∧ Forall (λ a, dest a ∈ dom RO) l)).
    intros q1 sw q2 Hadd (l & -> & Hl).
    apply add_argument_Ok in Hadd as (a & -> & _ & Hd & _).
    rewrite (kw_dest_lookup _ _ opt_name) in Hd
      by (by rewrite lookup_insert_eq).
    injection Hd as Hd. exists (l ++ [a]). split; [by rewrite app_assoc|].
    apply Forall_app. split; [done|]. apply Forall_singleton.
    by rewrite <- Hd.
  - exists []. split; [by rewrite app_nil_r | done].
Qed.

(** The parser, as what the module registers itself, what
    [_add_runner_args] registers and what the loop of lines 353-356
    registers. *)
Lemma parser_parts parser :
  _make_arg_parser RO basic = Ok parser →
  ∃ p_own l_runner l_spark,
    parser = (p_own ++ l_runner) ++ l_spark ∧
    switches_of p_own
    = (basic ≫= fst) ++ ["-r"; "--runner"; "-h"; "--help"; "--deprecated"] ∧
    Forall (λ a, dest a ∈ dom RO) l_runner ∧
    switches_of l_spark = (spark_specific_items RO).*2.
Proof.
  unfold _make_arg_parser. intros H.
  apply rbind_Ok in H as (p1 & H1 & H). apply add_argument_switches in H1.
  apply rbind_Ok in H as (p2 & H2 & H). apply add_argument_switches in H2.
  apply rbind_Ok in H as (p3 & H3 & H).
  apply (for_each_switches _ fst) in H3;
    [|intros q c q'; apply add_argument_switches].
  apply rbind_Ok in H as (p4 & H4 & H). apply add_argument_switches in H4.
  apply rbind_Ok in H as (p5 & H5 & H). apply add_argument_switches in H5.
  apply rbind_Ok in H as (p6 & H6 & H). apply add_argument_switches in H6.
  apply rbind_Ok in H as (p7 & H7 & H).
  apply _add_runner_args_dests in H7 as (l_runner & -> & Hdests).
  pose proof (spark_loop_switches RO _ _ H) as Hsw.
  apply spark_loop_grows in H as (l_spark & -> & _).
  exists p6, l_runner, l_spark. split; [reflexivity|]. split; [|split].
  - rewrite H6, H5, H4, H3, H2, H1. rewrite !app_nil_r.
    rewrite <- !app_assoc. reflexivity.
  - exact Hdests.
  - rewrite (switches_of_app (p6 ++ l_runner)) in Hsw.
    by apply app_inv_head in Hsw.
Qed.

(** A switch that the module does not register itself, and that is no
    spark-submit switch left in the loop of lines 353-356, writes to a
    runner option if it is registered at all. *)
Lemma runner_switch_dest parser s a :
  _make_arg_parser RO basic = Ok parser →
  s ∉ basic ≫= fst →
  s ∉ ["-r"; "--runner"; "-h"; "--help"; "--deprecated"] →
  s ∉ (spark_specific_items RO).*2 →
  find_action parser s = Some a →
  dest a ∈ dom RO.
Proof.
  intros (p_own & l_runner & l_spark & -> & Hown & Hdests & Hspark)
           %parser_parts Hbasic Hmodule Hitems Hf.
  rewrite !find_action_app in Hf.
  assert (find_action p_own s = None) as Eown.
  { destruct (find_action p_own s) eqn:E; [|done].
    assert (s ∈ switches_of p_own) as Hin
      by (apply registered_switches_of; by eexists).
    rewrite Hown, elem_of_app in Hin. by destruct Hin. }
  assert (find_action l_spark s = None) as Espark.
  { destruct (find_action l_spark s) eqn:E; [|done].
    assert (s ∈ switches_of l_spark) as Hin
      by (apply registered_switches_of; by eexists).
    by rewrite Hspark in Hin. }
  rewrite Eown in Hf.
  destruct (find_action l_runner s) as [b|] eqn:Erun.
  - injection Hf as <-. apply find_action_has_switch in Erun as [_ Hb].
    rewrite Forall_forall in Hdests. by apply Hdests.
  - rewrite Espark in Hf. discriminate Hf.
Qed.

(** The spark-submit switch of a runner option without alias is not
    registered by the loop of lines 353-356. *)
Lemma spark_specific_items_skip opt_name switch :
  (opt_name, switch) ∈ _SPARK_SUBMIT_SWITCHES →
  opt_name ∈ dom RO →
  switch ∉ dom _SWITCH_ALIASES →
  switch ∉ (spark_specific_items RO).*2.
Proof.
  intros Hin Hdom Halias ([o s] & Hs & Hitem)%list_elem_of_fmap.
  cbn [snd] in Hs. subst s.
  unfold spark_specific_items in Hitem.
  apply list_elem_of_filter in Hitem as [Hkeep Hitem]. cbn [fst snd] in Hkeep.
  destruct Hkeep as [Hno | Hal]; [|contradiction].
  apply switch_owner_elem in Hin, Hitem. rewrite Hin in Hitem.
  injection Hitem as <-. contradiction.
Qed.

(** What a switch followed by a token that is no switch contributes to the
    forwarded list. *)
Lemma spark_args_switch_token parser s v rest :
  find_action parser v = None →
  _get_spark_args RO parser (s :: v :: rest)
  = match find_action parser s with
    | Some a =>
        if bool_decide (dest a ∈ _SPARK_ARG_OPT_NAMES RO)
        then s :: (if takes_value a then [v] else [])
        else []
    | None => []
    end ++ _get_spark_args RO parser rest.
Proof.
  intros Hv. destruct (find_action parser s) as [a|] eqn:Hf.
  - destruct (takes_value a) eqn:Ht.
    + pose proof (spark_args_cons_switch RO parser s a [v] rest Hf) as E.
      cbn [app] in E. rewrite E by (by rewrite Ht). reflexivity.
    + pose proof (spark_args_cons_switch RO parser s a [] (v :: rest) Hf) as E.
      cbn [app] in E. rewrite E by (by rewrite Ht).
      by rewrite (spark_args_cons_word RO parser v rest Hv).
  - rewrite (spark_args_cons_word RO parser s _ Hf).
    by rewrite (spark_args_cons_word RO parser v rest Hv).
Qed.

(** An occurrence of the spark-submit switch of [opt_name] with a value is
    forwarded when [opt_name] is no runner option. *)
Lemma plain_switch_forwarded parser opt_name switch v rest :
  _make_arg_parser RO basic = Ok parser →
  (opt_name, switch) ∈ _SPARK_SUBMIT_SWITCHES →
  opt_name ∉ dom RO →
  opt_name ≠ "supervise" → opt_name ≠ "main_class" →
  startswith v "-" = false →
  _get_spark_args RO parser (switch :: v :: rest)
  = [switch; v] ++ _get_spark_args RO parser rest.
Proof.
  intros Hp Hin Hdom Hsup Hmc Hv.
  rewrite spark_args_switch_token
    by (apply find_action_undashed; [by eapply make_arg_parser_dashed | done]).
  destruct (spark_switch_registered RO basic parser opt_name switch Hp Hin)
    as (a & -> & Hd & Hact & _); [by apply not_elem_of_dom|].
  rewrite decide_False in Hact by done. unfold takes_value. rewrite Hact, Hd.
  rewrite bool_decide_eq_true_2; [done|].
  unfold _SPARK_ARG_OPT_NAMES, _STEP_OPT_NAMES.
  assert (opt_name ∈ spark_submit_switch_names) as Hk.
  { apply elem_of_list_to_set, list_elem_of_fmap. exists (opt_name, switch).
    split; [reflexivity | exact Hin]. }
  clear -Hk Hdom Hmc. revert Hk. generalize spark_submit_switch_names.
  intros K Hk. set_solver.
Qed.

(** An occurrence of a switch that writes to a runner option, or is not
    registered, is not forwarded. *)
Lemma runner_switch_not_forwarded parser s v rest :
  _make_arg_parser RO basic = Ok parser →
  (∀ a, find_action parser s = Some a → dest a ∈ dom RO) →
  startswith v "-" = false →
  _get_spark_args RO parser (s :: v :: rest) = _get_spark_args RO parser rest.
Proof.
  intros Hp Hdest Hv.
  rewrite spark_args_switch_token
    by (apply find_action_undashed; [by eapply make_arg_parser_dashed | done]).
  destruct (find_action parser s) as [a|]; [|done].
  rewrite bool_decide_eq_false_2; [done|].
  specialize (Hdest a eq_refl). unfold _SPARK_ARG_OPT_NAMES.
  clear -Hdest. generalize spark_submit_switch_names. intros K. set_solver.
Qed.

(** The [--conf] switch of a runner option [jobconf] writes to
    [jobconf]. *)
Lemma conf_switch_dest parser switches a :
  _make_arg_parser RO basic = Ok parser →
  RO !! "jobconf" = Some switches →
  (∀ entry, entry ∈ switches → "--jobconf" ∈ entry.1 →
            entry.2 !! "dest" = None) →
  find_action parser "--conf" = Some a →
  dest a = "jobconf".
Proof.
  intros Hp Hro Hnodest Hf.
  destruct (alias_switch_registered RO basic parser "jobconf" "--conf"
              "--jobconf" Hp) as (b & h & Hfb & Hd & _);
    [compute_done | compute_done |].
  clear Hp. rewrite Hf in Hfb. injection Hfb as <-.
  rewrite (kw_dest_lookup _ _ "jobconf") in Hd; [by injection Hd|].
  rewrite lookup_insert_ne by done.
  unfold patched_kwargs. rewrite Hro.
  change (default "--conf" (_SWITCH_ALIASES !! "--conf")) with "--jobconf".
  rewrite patch_fold_lookup.
  destruct (List.find _ _) as [entry|] eqn:E.
  - apply find_some in E as [Hin Hb].
    apply bool_decide_eq_true_1 in Hb as [Hcarries [x Hx]].
    apply in_rev, list_elem_of_In in Hin.
    rewrite (Hnodest entry Hin Hcarries) in Hx. discriminate Hx.
  - by rewrite lookup_singleton_eq.
Qed.
End order_example.

(** C1, as amended: for the tokens [--files a --conf X=1 --files b --conf
    Y=2] followed by a target that does not start with a dash,
    [_get_spark_args] gives the occurrences of [--files] when
    [upload_files] is no key of [_RUNNER_OPTS] and those of [--conf] when
    [jobconf] is no key of it, as they are written and in the order they are
    written, not grouped by switch; the occurrences of a switch whose option
    is a key of [_RUNNER_OPTS] are not forwarded.  So the result is the
    eight tokens exactly when neither option is a runner option, and it is
    empty when both are.  The basic switches are taken not to include
    [--files], and the [--jobconf] entry of the runner option not to set a
    [dest] of its own. *)
Theorem files_conf_forwarded_in_order
    (RO : gmap string (list (list string * gmap string value)))
    (basic : list (list string * gmap string value))
    (parser : list Action) (target : string) :
  _make_arg_parser RO basic = Ok parser →
  startswith target "-" = false →
  "--files" ∉ basic ≫= fst →
  (∀ switches entry,
     RO !! "jobconf" = Some switches → entry ∈ switches →
     "--jobconf" ∈ entry.1 → entry.2 !! "dest" = None) →
  let unless_runner_opt (opt_name : string) (tokens : list string) :=
    if decide (opt_name ∈ dom RO) then [] else tokens in
  _get_spark_args RO parser (files_conf_tokens ++ [target])
  = unless_runner_opt "upload_files" ["--files"; "a"]
    ++ unless_runner_opt "jobconf" ["--conf"; "X=1"]
    ++ unless_runner_opt "upload_files" ["--files"; "b"]
    ++ unless_runner_opt "jobconf" ["--conf"; "Y=2"] ∧
  (_get_spark_args RO parser (files_conf_tokens ++ [target])
   = files_conf_tokens ↔
   ("upload_files" ∉ dom RO) ∧ ("jobconf" ∉ dom RO)).
Proof.
  intros Hp Ht Hbasic Hnodest unless_runner_opt.
  assert (_get_spark_args RO parser [target] = []) as Htarget.
  { rewrite spark_args_cons_word; [reflexivity|].
    apply find_action_undashed; [by eapply make_arg_parser_dashed | done]. }
  assert (∀ v rest, startswith v "-" = false →
            _get_spark_args RO parser ("--files" :: v :: rest)
            = unless_runner_opt "upload_files" ["--files"; v]
              ++ _get_spark_args RO parser rest) as Hfiles.
  { intros v rest Hv. unfold unless_runner_opt.
    destruct (decide ("upload_files" ∈ dom RO)) as [Hin|Hout].
    - apply (runner_switch_not_forwarded RO basic parser); [done| |done].
      intros a. apply (runner_switch_dest RO basic parser); [done|done| |].
      + clear. compute_done.
      + apply (spark_specific_items_skip RO "upload_files");
          [clear; compute_done | done | clear; compute_done].
    - apply (plain_switch_forwarded RO basic parser "upload_files");
        [done | clear; compute_done | done | done | done | done]. }
  assert (∀ v rest, startswith v "-" = false →
            _get_spark_args RO parser ("--conf" :: v :: rest)
            = unless_runner_opt "jobconf" ["--conf"; v]
              ++ _get_spark_args RO parser rest) as Hconf.
  { intros v rest Hv. unfold unless_runner_opt.
    destruct (decide ("jobconf" ∈ dom RO)) as [Hin|Hout].
    - apply (runner_switch_not_forwarded RO basic parser); [done| |done].
      intros a Ha. pose proof Hin as Hdom.
      apply elem_of_dom in Hin as [switches Hro].
      rewrite (conf_switch_dest RO basic parser switches a Hp Hro
                 (λ entry, Hnodest switches entry Hro) Ha).
      exact Hdom.
    - apply (plain_switch_forwarded RO basic parser "jobconf");
        [done | clear; compute_done | done | done | done | done]. }
  clear Hp Hnodest Hbasic.
  assert (_get_spark_args RO parser (files_conf_tokens ++ [target])
          = unless_runner_opt "upload_files" ["--files"; "a"]
            ++ unless_runner_opt "jobconf" ["--conf"; "X=1"]
            ++ unless_runner_opt "upload_files" ["--files"; "b"]
            ++ unless_runner_opt "jobconf" ["--conf"; "Y=2"]) as E.
  { unfold files_conf_tokens. cbn [app].
    rewrite Hfiles, Hconf, Hfiles, Hconf, Htarget by done.
    by rewrite app_nil_r. }
  split; [exact E|]. rewrite E. unfold unless_runner_opt, files_conf_tokens.
  clear. destruct (decide ("upload_files" ∈ dom RO));
    destruct (decide ("jobconf" ∈ dom RO)); cbn [app]; split;
    first [ discriminate | (intros [? ?]; contradiction) | done ].
Qed.

(** With [upload_files] and [jobconf] both runner options, none of the
    eight tokens is forwarded. *)
Lemma files_conf_forwarded_in_order_witness :
  _get_spark_args files_RUNNER_OPTS files_parser
    (files_conf_tokens ++ ["job.py"])
  = [].
Proof.
  refine (eq_trans
            (proj1 (files_conf_forwarded_in_order files_RUNNER_OPTS
                      sample_basic_args files_parser "job.py" _ _ _ _)) _).
  - exact files_parser_built.
  - reflexivity.
  - compute_done.
  - intros switches entry Hro Hentry _.
    vm_compute in Hro. injection Hro as <-.
    apply list_elem_of_singleton in Hentry as ->. reflexivity.
  - vm_compute. reflexivity.
Defined.
